(** * Release computation engine of aws-go-multi-module-repository-tools

    A shallow embedding of the module path tree (package [gomod]), the change
    filter ([gomod/diff.go]) and the release calculator (package [release]),
    with the properties of the specification proved about them.

    Go strings are byte strings and are modelled by [string]; Go's [int] is
    a 64-bit two's complement integer and is modelled by [Z] with the
    wrap-around written out; Go maps are modelled by [gmap], and the order
    in which a [range] loop visits a map, which Go leaves unspecified, is an
    explicit argument of the functions that range over one. *)

From Stdlib Require Import ZArith String Ascii List Lia Bool.
From stdpp Require Import base option list strings gmap sorting.

Local Open Scope string_scope.
Local Open Scope list_scope.
Local Open Scope nat_scope.

Set Warnings "-register-all".

(** ** Results of fallible functions

    A Go function returning [(T, error)] returns [Ok v] for [(v, nil)] and
    [Err e] for a non-nil error. *)

Inductive result (E A : Type) : Type :=
| Ok (v : A)
| Err (e : E).
Arguments Ok {E A} v.
Arguments Err {E A} e.

Definition is_ok {E A} (r : result E A) : bool :=
  match r with Ok _ => true | Err _ => false end.

Definition is_err {E A} (r : result E A) : bool :=
  match r with Ok _ => false | Err _ => true end.

(** ** The parts of Go's standard library the code uses *)

Module GoStrings.

(** [strings.HasPrefix(s, prefix)]. *)
Definition HasPrefix (s pre : string) : bool := String.prefix pre s.

(** [strings.HasSuffix(s, suffix)]. *)
Definition HasSuffix (s suf : string) : bool :=
  let n := String.length s in
  let m := String.length suf in
  (m <=? n) && String.eqb (String.substring (n - m) m s) suf.

(** [strings.TrimPrefix(s, prefix)]. *)
Definition TrimPrefix (s pre : string) : string :=
  if HasPrefix s pre
  then String.substring (String.length pre) (String.length s - String.length pre) s
  else s.

(** Index of the last occurrence of the byte [c] in [s], counting from
    [i] for the first byte of [s]. *)
Fixpoint lastIndexFrom (i : nat) (c : ascii) (s : string) : option nat :=
  match s with
  | EmptyString => None
  | String a s' =>
      match lastIndexFrom (S i) c s' with
      | Some j => Some j
      | None => if Ascii.eqb a c then Some i else None
      end
  end.

(** [strings.LastIndex(s, c)] for a one-byte separator; Go's [-1] is
    [None]. *)
Definition LastIndex (s : string) (c : ascii) : option nat := lastIndexFrom 0 c s.

(** [strings.Split(s, sep)] for a one-byte separator. *)
Fixpoint Split (sep : ascii) (s : string) : list string :=
  match s with
  | EmptyString => [EmptyString]
  | String a s' =>
      if Ascii.eqb a sep then EmptyString :: Split sep s'
      else match Split sep s' with
           | c :: cs => String a c :: cs
           | [] => [String a EmptyString]
           end
  end.

(** [strings.Join(elems, sep)]. *)
Definition Join (elems : list string) (sep : string) : string := String.concat sep elems.

(** [strings.Count(s, sep)] for a one-byte separator. *)
Fixpoint Count (s : string) (c : ascii) : nat :=
  match s with
  | EmptyString => 0
  | String a s' => (if Ascii.eqb a c then 1 else 0) + Count s' c
  end.

(** [sort.Strings]: ascending byte-wise order.  Strings that compare equal
    are equal, so every sorting algorithm computes this function. *)
Definition SortStrings (l : list string) : list string := merge_sort String.le l.

End GoStrings.

Module Filepath.
Import GoStrings.

(** The path separator of the platform, ['/']. *)
Definition Separator : ascii := "/"%char.

(** [filepath.Split]: splits immediately after the final separator. *)
Definition Split (path : string) : string * string :=
  match LastIndex path Separator with
  | None => (EmptyString, path)
  | Some i =>
      (String.substring 0 (S i) path,
       String.substring (S i) (String.length path - S i) path)
  end.

(** One path element processed by [Clean].  [out] holds the elements
    written so far, the last one first. *)
Definition cleanStep (rooted : bool) (out : list string) (elem : string) : list string :=
  if String.eqb elem EmptyString || String.eqb elem "." then out
  else if String.eqb elem ".." then
    match out with
    | last :: out' =>
        if String.eqb last ".." then ".." :: out else out'
    | [] => if rooted then [] else [".."]
    end
  else elem :: out.

(** [filepath.Clean]: the shortest path lexically equivalent to [path]:
    empty and ["."] elements are dropped, an inner [".."] removes the
    element before it, a [".."] at the start of a rooted path is dropped,
    and the empty result is ["."]. *)
Definition Clean (path : string) : string :=
  if String.eqb path EmptyString then "."
  else
    let rooted := HasPrefix path "/" in
    let out := fold_left (cleanStep rooted) (GoStrings.Split Separator path) [] in
    let body := Join (rev out) "/" in
    let res := if rooted then "/" +:+ body else body in
    if String.eqb res EmptyString then "." else res.

(** The element at the start of [s] and what follows its separator. *)
Fixpoint cutElem (s : string) : string * string :=
  match s with
  | EmptyString => (EmptyString, EmptyString)
  | String a s' =>
      if Ascii.eqb a Separator then (EmptyString, s')
      else let (e, r) := cutElem s' in (String a e, r)
  end.

(** The loop of [Rel] that skips the common leading elements of [base]
    and [targ].  It returns the rest of both paths and the element of
    [base] at which the loop broke off (empty when it ran to the end of
    one of the paths).  Every round consumes a byte of [base], so
    [String.length base] rounds are enough. *)
Fixpoint relLoop (rounds : nat) (base targ : string) : string * string * string :=
  match rounds with
  | O => (EmptyString, base, targ)
  | S rounds' =>
      if String.eqb base EmptyString || String.eqb targ EmptyString then (EmptyString, base, targ)
      else
        let (eb, rb) := cutElem base in
        let (et, rt) := cutElem targ in
        if String.eqb et eb then relLoop rounds' rb rt
        else (eb, base, targ)
  end.

Fixpoint dotdots (n : nat) : string :=
  match n with
  | O => EmptyString
  | S n' => "/.." +:+ dotdots n'
  end.

(** [filepath.Rel(basepath, targpath)] on a platform without volume
    names.  The error is "Rel: can't make targpath relative to
    basepath". *)
Definition Rel (basepath targpath : string) : result unit string :=
  let base := Clean basepath in
  let targ := Clean targpath in
  if String.eqb targ base then Ok "."
  else
    let base := if String.eqb base "." then EmptyString else base in
    if negb (Bool.eqb (HasPrefix base "/") (HasPrefix targ "/")) then Err tt
    else
      let '(eb, rb, rt) := relLoop (String.length base) base targ in
      if String.eqb eb ".." then Err tt
      else if negb (String.eqb rb EmptyString) then
        Ok (".." +:+ dotdots (Count rb Separator)
                 +:+ (if negb (String.eqb rt EmptyString) then "/" +:+ rt else EmptyString))
      else Ok rt.

(** [filepath.Join]: the elements from the first non-empty one on, joined
    by the separator and cleaned; the empty string when every element is
    empty. *)
Fixpoint Join (elem : list string) : string :=
  match elem with
  | [] => EmptyString
  | e :: rest =>
      if String.eqb e EmptyString then Join rest
      else Clean (GoStrings.Join elem "/")
  end.

End Filepath.

Module Strconv.

Definition minInt : Z := (- 2 ^ 63)%Z.
Definition maxInt : Z := (2 ^ 63 - 1)%Z.

(** A Go [int] result brought back into the 64-bit range. *)
Definition wrapInt (z : Z) : Z := ((z + 2 ^ 63) mod 2 ^ 64 - 2 ^ 63)%Z.

Definition digitOf (c : ascii) : option Z :=
  let n := nat_of_ascii c in
  if (48 <=? n) && (n <=? 57) then Some (Z.of_nat (n - 48)) else None.

Fixpoint digits (acc : Z) (s : string) : option Z :=
  match s with
  | EmptyString => Some acc
  | String c s' =>
      match digitOf c with
      | Some d => digits (acc * 10 + d)%Z s'
      | None => None
      end
  end.

(** [strconv.Atoi]: an optional sign followed by one or more decimal
    digits; a syntax error or a value outside the range of [int] is
    [None]. *)
Definition Atoi (s : string) : option Z :=
  let '(neg, body) :=
    match s with
    | String "-"%char s' => (true, s')
    | String "+"%char s' => (false, s')
    | _ => (false, s)
    end in
  match body with
  | EmptyString => None
  | _ =>
      match digits 0%Z body with
      | Some n =>
          let v := if neg then (- n)%Z else n in
          if (minInt <=? v)%Z && (v <=? maxInt)%Z then Some v else None
      | None => None
      end
  end.

Definition digitChar (d : Z) : ascii := ascii_of_nat (48 + Z.to_nat d).

Fixpoint itoaPos (rounds : nat) (z : Z) (acc : string) : string :=
  match rounds with
  | O => acc
  | S rounds' =>
      let acc' := String (digitChar (z mod 10)%Z) acc in
      if (z <? 10)%Z then acc' else itoaPos rounds' (z / 10)%Z acc'
  end.

(** [strconv.Itoa] on a value in the range of [int]: at most 19 digits. *)
Definition Itoa (z : Z) : string :=
  if (z <? 0)%Z then "-" +:+ itoaPos 20 (- z)%Z EmptyString else itoaPos 20 z EmptyString.

End Strconv.

(** ** Package [gomod]: the module path tree *)

Module Gomod.
Import GoStrings.

(** [ModuleTreeOptions]. *)
Record ModuleTreeOptions : Type := { RootPath : string }.

(** [ModuleTreeNode].  The Go tree links nodes by pointers and has no
    parent pointers, so a node owns its children. *)
Inductive ModuleTreeNode : Type :=
  Node { absPath : string;
         relPath : string;
         subModules : list ModuleTreeNode;
         attributes : list string }.

(** [ModuleTree]; [treeSubModules] is the field [subModules] of the Go
    struct. *)
Record ModuleTree : Type :=
  { options : ModuleTreeOptions;
    treeSubModules : list ModuleTreeNode }.

(** [NewModuleTree], the option functions already applied. *)
Definition NewModuleTree (o : ModuleTreeOptions) : ModuleTree :=
  {| options := o; treeSubModules := [] |}.

(** The errors of [Insert]. *)
Inductive InsertError : Type :=
| NotNestedWithinRoot   (* "module %q is not nested within %q, %w" *)
| ModuleAlreadyExists.  (* "module already exists with relative path, %v, %v" *)

(** [ModuleTreeNode.Path]. *)
Definition Path (n : ModuleTreeNode) : string := relPath n.

(** [ModuleTreeNode.AbsPath]. *)
Definition AbsPath (n : ModuleTreeNode) : string := absPath n.

(** [ModuleTreeNode.HasAttribute]. *)
Definition HasAttribute (n : ModuleTreeNode) (attribute : string) : bool :=
  existsb (String.eqb attribute) (attributes n).

(** [ModuleTreeNode.AncestorOf]. *)
Definition AncestorOf (n : ModuleTreeNode) (path : string) : bool :=
  if String.eqb (Path n) "." || String.eqb (Path n) path then true
  else
    let modulePath := Path n +:+ "/" in
    HasPrefix path modulePath.

(** [sort.Sort(sortableModuleTreeNodes(ns))]: ascending by [relPath].
    [sort.Sort] is not stable; the nodes of one layer of a tree built by
    [Insert] have pairwise different paths (see [Reachable_invariant]), and
    on such a list every sorting algorithm computes this function. *)
Definition nodeLe (a b : ModuleTreeNode) : Prop := String.le (relPath a) (relPath b).

#[global] Instance nodeLe_dec : RelDecision nodeLe.
Proof. intros a b. unfold nodeLe. apply _. Defined.

Definition sortNodes (ns : list ModuleTreeNode) : list ModuleTreeNode :=
  merge_sort nodeLe ns.

(** *** Search *)

Section Search.
Variable path : string.

Section Layer.
(** [deepest m] is the result of the search once the loop has
    stepped into the ancestor [m]. *)
Variable deepest : ModuleTreeNode -> ModuleTreeNode.

(** The inner [for _, m := range nodes] of [searchModuleTreeNodes]:
    the first node of the layer that is an ancestor of [path]. *)
Fixpoint searchLayer (nodes : list ModuleTreeNode) : option ModuleTreeNode :=
  match nodes with
  | [] => None
  | m :: rest => if AncestorOf m path then Some (deepest m) else searchLayer rest
  end.
End Layer.

(** The outer loop of [searchModuleTreeNodes] from the point where
    [parent = m]: it goes on in [m.subModules] and returns [parent]
    when no node of the layer is an ancestor. *)
Fixpoint searchFrom (m : ModuleTreeNode) : ModuleTreeNode :=
  match m with
  | Node _ _ subs _ =>
      match searchLayer searchFrom subs with
      | Some found => found
      | None => m
      end
  end.

(** [searchModuleTreeNodes(path, nodes)]; Go's [nil] is [None]. *)
Definition searchModuleTreeNodes (nodes : list ModuleTreeNode) : option ModuleTreeNode :=
  searchLayer searchFrom nodes.
End Search.

(** [ModuleTree.Search]. *)
Definition Search (t : ModuleTree) (path : string) : option ModuleTreeNode :=
  searchModuleTreeNodes path (treeSubModules t).

(** [ModuleTree.Get]. *)
Definition Get (t : ModuleTree) (path : string) : option ModuleTreeNode :=
  match searchModuleTreeNodes path (treeSubModules t) with
  | Some node => if String.eqb (Path node) path then Some node else None
  | None => None
  end.

(** [ModuleTreeNode.Search]. *)
Definition NodeSearch (n : ModuleTreeNode) (path : string) : option ModuleTreeNode :=
  searchModuleTreeNodes path (subModules n).

(** [ModuleTreeNode.Get]. *)
Definition NodeGet (n : ModuleTreeNode) (path : string) : option ModuleTreeNode :=
  if String.eqb (Path n) path then Some n
  else match searchModuleTreeNodes path (subModules n) with
       | Some node => if String.eqb (Path node) path then Some node else None
       | None => None
       end.

(** [ModuleTreeNode.ParentOf]. *)
Definition ParentOf (n : ModuleTreeNode) (path : string) : bool :=
  if negb (AncestorOf n path) then false
  else match NodeSearch n path with None => true | Some _ => false end.

(** *** Insert *)

Section Insert.
Variables (modulePath moduleRelPath : string) (attrs : list string).

(** The loop of [Insert] that moves the nodes of the layer the new node
    is an ancestor of below the new node: [append], [sort.Sort],
    [cutSubModule].  It returns the new node and what is left of the
    layer. *)
Fixpoint reparent (newNode : ModuleTreeNode) (nodes : list ModuleTreeNode)
  : ModuleTreeNode * list ModuleTreeNode :=
  match nodes with
  | [] => (newNode, [])
  | n :: rest =>
      if negb (AncestorOf newNode (Path n)) then
        let (newNode', kept) := reparent newNode rest in
        (newNode', n :: kept)
      else
        reparent
          {| absPath := absPath newNode;
             relPath := relPath newNode;
             subModules := sortNodes (subModules newNode ++ [n]);
             attributes := attributes newNode |}
          rest
  end.

(** The branch [nextNodes == nil] of [Insert]: the new node is made,
    takes over its descendants of this layer and is added to it. *)
Definition insertHere (nodes : list ModuleTreeNode)
  : ModuleTreeNode * list ModuleTreeNode :=
  let newNode :=
    {| absPath := modulePath;
       relPath := moduleRelPath;
       subModules := [];
       attributes := attrs |} in
  let (newNode', kept) := reparent newNode nodes in
  (newNode', sortNodes (kept ++ [newNode'])).

Section Layer.
(** [below m] inserts in the layer [m.subModules] and returns the new
    node and the updated [m]. *)
Variable below : ModuleTreeNode -> ModuleTreeNode * ModuleTreeNode.

(** The [for _, m := range *nodes] of [Insert]: the walk goes down
    into the first node of the layer that is an ancestor of the new
    path; [None] when there is none. *)
Fixpoint descend (nodes : list ModuleTreeNode)
  : option (ModuleTreeNode * list ModuleTreeNode) :=
  match nodes with
  | [] => None
  | m :: rest =>
      if AncestorOf m moduleRelPath then
        let (newNode, m') := below m in Some (newNode, m' :: rest)
      else
        match descend rest with
        | Some (newNode, rest') => Some (newNode, m :: rest')
        | None => None
        end
  end.

(** One round of the outer [for] of [Insert] on the layer [nodes]. *)
Definition insertLayer (nodes : list ModuleTreeNode)
  : ModuleTreeNode * list ModuleTreeNode :=
  match descend nodes with
  | Some r => r
  | None => insertHere nodes
  end.
End Layer.

Fixpoint insertBelow (m : ModuleTreeNode) : ModuleTreeNode * ModuleTreeNode :=
  match m with
  | Node a r subs at' =>
      let (newNode, subs') := insertLayer insertBelow subs in
      (newNode, Node a r subs' at')
  end.

(** The outer [for] of [Insert], started at the top layer. *)
Definition insertNodes (nodes : list ModuleTreeNode)
  : ModuleTreeNode * list ModuleTreeNode :=
  insertLayer insertBelow nodes.
End Insert.

(** [ModuleTree.Insert].  The Go method updates the tree in place and
    returns the new node; here it returns the new node and the updated
    tree. *)
Definition Insert (t : ModuleTree) (modulePath : string) (attrs : list string)
  : result InsertError (ModuleTreeNode * ModuleTree) :=
  let rel :=
    if negb (String.eqb (RootPath (options t)) EmptyString) then
      match Filepath.Rel (RootPath (options t)) modulePath with
      | Ok r => Ok r
      | Err _ => Err NotNestedWithinRoot
      end
    else Ok modulePath in
  match rel with
  | Err e => Err e
  | Ok moduleRelPath =>
      match Get t moduleRelPath with
      | Some _ => Err ModuleAlreadyExists
      | None =>
          let (newNode, subs') :=
            insertNodes modulePath moduleRelPath attrs (treeSubModules t) in
          Ok (newNode, {| options := options t; treeSubModules := subs' |})
      end
  end.

(** [ModuleTree.InsertRel]. *)
Definition InsertRel (t : ModuleTree) (relModulePath : string) (attrs : list string)
  : result InsertError (ModuleTreeNode * ModuleTree) :=
  Insert t (Filepath.Join [RootPath (options t); relModulePath]) attrs.

(** Inserting a list of paths one after the other, without attributes,
    stopping at the first error. *)
Fixpoint InsertAll (t : ModuleTree) (paths : list string)
  : result InsertError ModuleTree :=
  match paths with
  | [] => Ok t
  | p :: paths' =>
      match Insert t p [] with
      | Ok (_, t') => InsertAll t' paths'
      | Err e => Err e
      end
  end.

(** *** Iteration *)

(** [moduleTreeNodeStack]: the Go slice, whose last element is the top. *)
Definition moduleTreeNodeStack : Type := list ModuleTreeNode.

(** [moduleTreeNodeStack.PushReverse]. *)
Definition PushReverse (s : moduleTreeNodeStack) (nodes : list ModuleTreeNode)
  : moduleTreeNodeStack := s ++ rev nodes.

(** [moduleTreeNodeStack.Pop]. *)
Definition Pop (s : moduleTreeNodeStack) : option ModuleTreeNode * moduleTreeNodeStack :=
  match rev s with
  | [] => (None, s)
  | n :: below => (Some n, rev below)
  end.

(** [ModuleTreeIterator]. *)
Record ModuleTreeIterator : Type := { stack : moduleTreeNodeStack }.

(** [newModuleTreeNodesIterator]. *)
Definition newModuleTreeNodesIterator (nodes : list ModuleTreeNode) : ModuleTreeIterator :=
  {| stack := PushReverse [] nodes |}.

(** [ModuleTree.Iterator]. *)
Definition Iterator (t : ModuleTree) : ModuleTreeIterator :=
  newModuleTreeNodesIterator (treeSubModules t).

(** [ModuleTreeNode.Iterator]. *)
Definition NodeIterator (n : ModuleTreeNode) : ModuleTreeIterator :=
  newModuleTreeNodesIterator (subModules n).

(** [ModuleTreeIterator.Next]: the node, and the iterator after the
    call. *)
Definition Next (it : ModuleTreeIterator) : option ModuleTreeNode * ModuleTreeIterator :=
  match Pop (stack it) with
  | (None, s) => (None, {| stack := s |})
  | (Some next, s) => (Some next, {| stack := PushReverse s (subModules next) |})
  end.

(** The number of nodes of a tree and of a list of trees. *)
Fixpoint nodeSize (n : ModuleTreeNode) : nat :=
  match n with
  | Node _ _ subs _ => S (list_sum (map nodeSize subs))
  end.

Definition nodesSize (ns : list ModuleTreeNode) : nat := list_sum (map nodeSize ns).

(** The loop [for it := ...; ; { node := it.Next(); if node == nil
    { break }; list = append(list, node) }] ([lst] is the Go variable
    [list]), run for at most [rounds]
    calls of [Next] that return a node. *)
Fixpoint drain (rounds : nat) (it : ModuleTreeIterator) (lst : list ModuleTreeNode)
  : list ModuleTreeNode * ModuleTreeIterator :=
  match rounds with
  | O => (lst, it)
  | S rounds' =>
      match Next it with
      | (None, it') => (lst, it')
      | (Some node, it') => drain rounds' it' (lst ++ [node])
      end
  end.

(** [ModuleTreeNode.List]: every call of [Next] that returns a node
    takes one node off the nodes still to visit, so as many rounds as
    there are nodes below [n] end the loop. *)
Definition NodeList (n : ModuleTreeNode) : list ModuleTreeNode :=
  fst (drain (nodesSize (subModules n)) (NodeIterator n) []).

(** [ModuleTreeNode.ListPaths]. *)
Definition NodeListPaths (n : ModuleTreeNode) : list string :=
  map Path (NodeList n).

(** [ModuleTree.List]. *)
Definition List (t : ModuleTree) : list ModuleTreeNode :=
  fold_left (fun lst n => (lst ++ [n]) ++ NodeList n) (treeSubModules t) [].

(** [ModuleTree.ListPaths]. *)
Definition ListPaths (t : ModuleTree) : list string :=
  fold_left (fun lst n => (lst ++ [Path n]) ++ NodeListPaths n) (treeSubModules t) [].

(** The nodes [Next] returns until it returns [nil], for an iterator
    over the whole tree. *)
Definition IteratorNodes (t : ModuleTree) : list ModuleTreeNode :=
  fst (drain (nodesSize (treeSubModules t)) (Iterator t) []).

(** *** The change filter, [gomod/diff.go] *)

(** [IsGoSource]. *)
Definition IsGoSource (name : string) : bool :=
  negb (HasPrefix name ".") && HasSuffix name ".go".

(** [IsGoMod]. *)
Definition IsGoMod (name : string) : bool := String.eqb name "go.mod".

(** The local type [modDir] of [FilterModuleFiles]. *)
Record modDir : Type := { filepaths : list string; relevant : bool }.

(** The body of the first loop of [FilterModuleFiles]. *)
Definition cacheFile (module : ModuleTreeNode) (dirCache : gmap string modDir)
    (filepathName : string) : gmap string modDir :=
  let (dir0, fileName) := Filepath.Split filepathName in
  let dir := Filepath.Clean dir0 in
  if negb (IsGoSource fileName || IsGoMod fileName) then dirCache
  else
    match dirCache !! dir with
    | Some v =>
        if negb (relevant v) then dirCache
        else <[dir := {| filepaths := filepaths v ++ [filepathName];
                         relevant := relevant v |}]> dirCache
    | None =>
        if negb (ParentOf module dir)
        then <[dir := {| filepaths := []; relevant := false |}]> dirCache
        else <[dir := {| filepaths := [filepathName]; relevant := true |}]> dirCache
    end.

(** The second loop of [FilterModuleFiles] over the directories in the
    order [dirs]. *)
Definition collectRelevant (dirs : list (string * modDir)) : list string :=
  fold_left
    (fun relevantFiles d =>
       if negb (relevant (snd d)) then relevantFiles
       else relevantFiles ++ filepaths (snd d))
    dirs [].

(** [FilterModuleFiles].  The second component is the error, [None] for
    [nil].  The second loop ranges over the map [dirCache]; the result is
    sorted afterwards, so the order of that loop does not show (see
    [SortStrings_Permutation]) and the order of [map_to_list] stands for
    it. *)
Definition FilterModuleFiles (module : ModuleTreeNode) (files : list string)
  : list string * option string :=
  let dirCache := fold_left (cacheFile module) files (∅ : gmap string modDir) in
  let relevantFiles := collectRelevant (map_to_list dirCache) in
  (SortStrings relevantFiles, None).

(** [IsModuleChanged]. *)
Definition IsModuleChanged (module : ModuleTreeNode) (changes : list string)
  : bool * option string :=
  let (changes', err) := FilterModuleFiles module changes in
  match err with
  | Some e => (false, Some e)
  | None => (negb (Nat.eqb (length changes') 0), None)
  end.

(** *** What the specification says about the tree *)

(** Depth-first order: a node, then the nodes below it, layer by layer in
    the order of the layer. *)
Fixpoint preorder (n : ModuleTreeNode) : list ModuleTreeNode :=
  match n with
  | Node _ _ subs _ => n :: flat_map preorder subs
  end.

Definition depthFirst (nodes : list ModuleTreeNode) : list ModuleTreeNode :=
  flat_map preorder nodes.

(** Neither of two nodes is a path-ancestor of the other. *)
Definition unrelated (a b : ModuleTreeNode) : Prop :=
  AncestorOf a (Path b) = false /\ AncestorOf b (Path a) = false.

(** A layer of siblings: pairwise unrelated, and ascending by relative
    path. *)
Definition layerOk (nodes : list ModuleTreeNode) : Prop :=
  ForallOrdPairs unrelated nodes /\ StronglySorted nodeLe nodes.

(** Every layer below a node is a layer of siblings. *)
Inductive nodeOk : ModuleTreeNode -> Prop :=
| nodeOk_intro (n : ModuleTreeNode) :
    layerOk (subModules n) -> Forall nodeOk (subModules n) -> nodeOk n.

(** Every layer of the tree is a layer of siblings. *)
Definition TreeInvariant (t : ModuleTree) : Prop :=
  layerOk (treeSubModules t) /\ Forall nodeOk (treeSubModules t).

(** The trees a sequence of successful calls of [Insert] builds from a
    new tree. *)
Inductive Reachable : ModuleTree -> Prop :=
| Reachable_new (o : ModuleTreeOptions) : Reachable (NewModuleTree o)
| Reachable_insert (t t' : ModuleTree) (modulePath : string) (attrs : list string)
    (newNode : ModuleTreeNode) :
    Reachable t -> Insert t modulePath attrs = Ok (newNode, t') -> Reachable t'.

(** *** Auxiliary notions of the proofs *)

(** What the walk of [Insert] down the tree needs of the step into a
    node: the node keeps its path, and its layers stay layers of
    siblings. *)
Definition keeps (below : ModuleTreeNode -> ModuleTreeNode * ModuleTreeNode)
    (m : ModuleTreeNode) : Prop :=
  relPath (snd (below m)) = relPath m /\ (nodeOk m -> nodeOk (snd (below m))).

(** The files one directory of the cache adds to the result. *)
Definition relevantFilesOf (d : string * modDir) : list string :=
  if negb (relevant (snd d)) then [] else filepaths (snd d).

(** [AncestorOf] as a relation between two paths. *)
Definition ancestorPath (p q : string) : bool :=
  if String.eqb p "." || String.eqb p q then true
  else HasPrefix q (p +:+ "/").

(** The node [c] lies below the node [n], and is not at the path of
    [n]. *)
Definition strictlyBelow (n c : ModuleTreeNode) : Prop :=
  AncestorOf n (Path c) = true /\ Path c <> Path n.

(** Every sub-module, at every depth, lies strictly below its parent. *)
Inductive nodeNested : ModuleTreeNode -> Prop :=
| nodeNested_intro (n : ModuleTreeNode) :
    Forall (strictlyBelow n) (subModules n) ->
    Forall nodeNested (subModules n) -> nodeNested n.

(** The value of [moduleRelPath] at the call of [Get] in [Insert]. *)
Definition moduleRelPathOf (t : ModuleTree) (modulePath : string)
  : result InsertError string :=
  if negb (String.eqb (RootPath (options t)) EmptyString) then
    match Filepath.Rel (RootPath (options t)) modulePath with
    | Ok r => Ok r
    | Err _ => Err NotNestedWithinRoot
    end
  else Ok modulePath.

(** What the proofs need of the step of [Insert] into the node [m]:
    the node keeps its path and stays nested, and the new node is the
    one node the step adds below it. *)
Definition insertsBelow (modulePath moduleRelPath : string) (attrs : list string)
    (m : ModuleTreeNode) : Prop :=
  let (newNode, m') := insertBelow modulePath moduleRelPath attrs m in
  relPath m' = relPath m /\
  (nodeNested m -> AncestorOf m moduleRelPath = true ->
   Path (searchFrom moduleRelPath m) <> moduleRelPath -> nodeNested m') /\
  map Path (preorder m') ≡ₚ moduleRelPath :: map Path (preorder m) /\
  newNode ∈ preorder m' /\
  absPath newNode = modulePath /\ relPath newNode = moduleRelPath /\
  attributes newNode = attrs.

(** The same of the insertion into a layer. *)
Definition insertsInto (modulePath moduleRelPath : string) (attrs : list string)
    (nodes : list ModuleTreeNode) : Prop :=
  let (newNode, nodes') :=
    insertLayer modulePath moduleRelPath attrs
      (insertBelow modulePath moduleRelPath attrs) nodes in
  (Forall nodeNested nodes ->
   match searchModuleTreeNodes moduleRelPath nodes with
   | Some found => Path found <> moduleRelPath
   | None => True
   end -> Forall nodeNested nodes') /\
  (forall c', c' ∈ nodes' ->
     (exists c, c ∈ nodes /\ Path c' = Path c) \/
     (c' = newNode /\ searchModuleTreeNodes moduleRelPath nodes = None)) /\
  map Path (depthFirst nodes') ≡ₚ moduleRelPath :: map Path (depthFirst nodes) /\
  newNode ∈ depthFirst nodes' /\
  absPath newNode = modulePath /\ relPath newNode = moduleRelPath /\
  attributes newNode = attrs.

End Gomod.

(** ** Packages the release calculator imports that are not part of the
    sources at hand *)

Module Semver.

(** Modelled from the spec: the declaration of the type [Parsed] of the
    package [internal/semver] is not among the sources.  It has the
    fields the release calculator reads and writes, and the major version
    and the build metadata that make up the rest of a semantic version.
    [Major], [Minor] and [Patch] hold decimal digits,
    [Prerelease] holds the pre-release tag with its leading ["-"] and
    [Build] the build metadata with its leading ["+"]; [ParsedErr] is the
    Go field [Err]. *)
Record Parsed : Type :=
  { Major : string;
    Minor : string;
    Patch : string;
    Prerelease : string;
    Build : string;
    ParsedErr : string }.

End Semver.

Module Changelog.

(** Modelled from the spec: the declaration of the type
    [SemVerIncrement] of the package [changelog] is not among the sources.
    The spec has a bump size be "one of {default(patch), patch, minor,
    release-promotion}", the four values the release calculator
    distinguishes. *)
Inductive SemVerIncrement : Type :=
| DefaultBump
| PatchBump
| MinorBump
| ReleaseBump.

#[global] Instance SemVerIncrement_eq_dec : EqDecision SemVerIncrement.
Proof. solve_decision. Defined.

(** Modelled from the spec: the declaration of the type [ChangeType] of
    the package [changelog] is not among the sources.  These are the kinds
    of changelog annotations the spec's version table and the tests of the
    release calculator use: release, feature and bug fix. *)
Inductive ChangeType : Type :=
| ReleaseChangeType
| FeatureChangeType
| BugFixChangeType.

(** Modelled from the spec: the declaration of the type [Annotation] of
    the package [changelog] is not among the sources.  The spec gives a
    changelog entry "an identifier, a semantic bump-size classification,
    and the set of module paths it applies to".  [Type'] is the Go field
    [Type]. *)
Record Annotation : Type :=
  { ID : string;
    Type' : ChangeType;
    Modules : list string }.

End Changelog.

(** The functions of the packages [internal/semver], [changelog], [git]
    and [golang.org/x/mod/module] that the release calculator calls.  The
    release calculator is defined and verified over any implementation of
    this interface; [GoPackages] below is the one the version table is
    computed with. *)
Class Packages : Type :=
  { (** [semver.Parse] *)
    semverParse : string -> Semver.Parsed * bool;
    (** [semver.Canonical] *)
    semverCanonical : string -> string;
    (** [semver.Compare], with a result of [-1], [0] or [+1] *)
    semverCompare : string -> string -> Z;
    (** [semver.Parsed.String] *)
    parsedString : Semver.Parsed -> string;
    (** [module.SplitPathVersion] *)
    moduleSplitPathVersion : string -> string * string * bool;
    (** [changelog.GetVersionIncrement] *)
    changelogGetVersionIncrement : list Changelog.Annotation -> Changelog.SemVerIncrement;
    (** [git.ToModuleTag] *)
    gitToModuleTag : string -> string -> result unit string }.

(** ** The repository's root package [repotools] *)

Module Repotools.

(** [ModuleConfig]. *)
Record ModuleConfig : Type :=
  { NoTag : bool;
    PreRelease : string;
    MetadataPackage : string }.

(** Modelled from the spec: the function [AppendIfNotPresent] of the
    root package is not among the sources.  The spec has the propagator
    "re-enqueue the dependent", and the name says the rest: the value is
    appended unless the slice holds it already. *)
Definition AppendIfNotPresent (slice : list string) (value : string) : list string :=
  if existsb (String.eqb value) slice then slice else slice ++ [value].

End Repotools.

(** ** Package [release] *)

Module Release.
Import GoStrings Strconv Semver Changelog Repotools.

(** The errors of the package.  [NilModule] stands for the run-time
    panic of dereferencing the nil pointer a map lookup returns for a
    missing key. *)
Inductive Error : Type :=
| InvalidModulePath          (* "invalid module path" *)
| FailedToParseSemver        (* "failed to parse semver: %v, %v" *)
| AtoiError                  (* the error of strconv.Atoi *)
| PrereleaseNumberError      (* "failed to parse pre-release version number: %v" *)
| NotAPreRelease             (* "changelog annotation requests release bump, but latest tag is not a pre-release" *)
| VersionNotIncreasing       (* "computed next version %s is not higher then %s" *)
| ModuleTagError             (* the error of git.ToModuleTag *)
| RootModuleNotFound         (* "root module metadata not found, %v, %v, %v" *)
| UntaggedModuleHasDependents (current : string) (dependents : nat)
                             (* "module %v is configured for no releases, but has %d dependents" *)
| NilModule.

(** [ModuleChange], a bit field in a [uint64]. *)
Definition ModuleChange : Type := N.

(** [1 << (64 - 1 - iota)] for [iota] = 0, 1, 2. *)
Definition SourceChange : ModuleChange := N.shiftl 1 (64 - 1 - 0).
Definition NewModule : ModuleChange := N.shiftl 1 (64 - 1 - 1).
Definition DependencyUpdate : ModuleChange := N.shiftl 1 (64 - 1 - 2).

(** [modfile.File], reduced to the module paths of its [require]
    directives: [Require] lists [require.Mod.Path] for every [require]
    of [File.Require]. *)
Record ModFile : Type := { Require : list string }.

(** [Module]. *)
Record Module : Type :=
  { File : ModFile;
    RelativeRepoPath : string;
    Latest : string;
    Next : string;
    Changes : ModuleChange;
    FileChanges : list string;
    ChangeAnnotations : list Annotation;
    ModuleConfig : Repotools.ModuleConfig }.

(** [ModuleManifest]. *)
Record ModuleManifest : Type :=
  { mmModulePath : string;
    mmFrom : string;
    mmTo : string;
    mmChanges : ModuleChange;
    mmFileChanges : list string;
    mmAnnotations : list string }.

(** [Manifest]. *)
Record Manifest : Type :=
  { manifestID : string;
    WithReleaseTag : bool;
    manifestModules : gmap string ModuleManifest;
    Tags : list string }.

(** The entries of a Go map in the order [order] of their keys: what a
    [range] loop that visits the keys in this order sees. *)
Definition rangeMap {V : Type} (order : list string) (m : gmap string V)
  : list (string * V) :=
  omap (fun k => match m !! k with Some v => Some (k, v) | None => None end) order.

(** [order] is an order in which a [range] loop may visit [m]: every key
    once. *)
Definition RangeOrder {V : Type} (order : list string) (m : gmap string V) : Prop :=
  NoDup order /\ forall k, k ∈ order <-> is_Some (m !! k).

(** [incrementStrInt]; the pointer is never nil. *)
Definition incrementStrInt (v : string) : result Error string :=
  match Atoi v with
  | None => Err AtoiError
  | Some i => Ok (Itoa (wrapInt (i + 1)))
  end.

(** [incrementPrerelease]. *)
Definition incrementPrerelease (prerelease identifier : string) : result Error string :=
  let identifier :=
    if negb (HasSuffix identifier "-") then "-" +:+ identifier else identifier in
  if (0 <? String.length identifier) && negb (HasPrefix prerelease identifier)
  then Ok identifier
  else
    match LastIndex prerelease "."%char with
    | None => Ok (prerelease +:+ ".1")
    | Some index =>
        match Atoi (String.substring (index + 1)
                      (String.length prerelease - (index + 1)) prerelease) with
        | None => Err PrereleaseNumberError
        | Some i =>
            Ok (String.substring 0 (index + 1) prerelease +:+ Itoa (wrapInt (i + 1)))
        end
    end.

(** [formatPreRelease]. *)
Definition formatPreRelease (identifier : string) : string :=
  if negb (HasPrefix identifier "-") then "-" +:+ identifier else identifier.

(** [getNewModuleVersion]. *)
Definition getNewModuleVersion (pathMajor : string) (increment : SemVerIncrement)
    (config : Repotools.ModuleConfig) (preReleaseIdentifier : string) : string :=
  let nextVersion :=
    if String.length pathMajor =? 0 then "v1.0.0" else pathMajor +:+ ".0.0" in
  let isPreRelease := 0 <? String.length preReleaseIdentifier in
  if bool_decide (increment = ReleaseBump) && negb isPreRelease then nextVersion
  else
    let identifier :=
      if 0 <? String.length preReleaseIdentifier then preReleaseIdentifier
      else PreRelease config in
    if 0 <? String.length identifier then nextVersion +:+ "-" +:+ identifier
    else nextVersion +:+ "-preview".

Definition setMinor (p : Parsed) (v : string) : Parsed :=
  {| Major := Major p; Minor := v; Patch := Patch p;
     Prerelease := Prerelease p; Build := Build p; ParsedErr := ParsedErr p |}.

Definition setPatch (p : Parsed) (v : string) : Parsed :=
  {| Major := Major p; Minor := Minor p; Patch := v;
     Prerelease := Prerelease p; Build := Build p; ParsedErr := ParsedErr p |}.

Definition setPrerelease (p : Parsed) (v : string) : Parsed :=
  {| Major := Major p; Minor := Minor p; Patch := Patch p;
     Prerelease := v; Build := Build p; ParsedErr := ParsedErr p |}.

Section WithPackages.
Context `{Packages}.

(** [calculatePreReleaseVersion]. *)
Definition calculatePreReleaseVersion (parsed : Parsed) (increment : SemVerIncrement)
    (config : Repotools.ModuleConfig) (preReleaseIdentifier : string)
  : result Error string :=
  if bool_decide (increment = ReleaseBump) || (0 <? String.length (Prerelease parsed))
  then Ok (parsedString (setPrerelease parsed (formatPreRelease preReleaseIdentifier)))
  else
    let bumped :=
      match increment with
      | MinorBump =>
          match incrementStrInt (Minor parsed) with
          | Err e => Err e
          | Ok minor => Ok (setPatch (setMinor parsed minor) "0")
          end
      | DefaultBump | PatchBump =>
          match incrementStrInt (Patch parsed) with
          | Err e => Err e
          | Ok patch => Ok (setPatch parsed patch)
          end
      | ReleaseBump => Ok parsed
      end in
    match bumped with
    | Err e => Err e
    | Ok parsed =>
        let identifier := preReleaseIdentifier in
        let identifier :=
          if negb (HasPrefix identifier "-") then "-" +:+ identifier else identifier in
        Ok (parsedString (setPrerelease parsed identifier))
    end.

(** [calculateNextVersion]. *)
Definition calculateNextVersion (parsed : Parsed) (increment : SemVerIncrement)
    (config : Repotools.ModuleConfig) : result Error string :=
  if bool_decide (increment = ReleaseBump) then
    if String.length (Prerelease parsed) =? 0 then Err NotAPreRelease
    else Ok (parsedString (setPrerelease parsed EmptyString))
  else if 0 <? String.length (Prerelease parsed) then
    match incrementPrerelease (Prerelease parsed) (PreRelease config) with
    | Err e => Err e
    | Ok prerelease => Ok (parsedString (setPrerelease parsed prerelease))
    end
  else if (String.length (Prerelease parsed) =? 0)
          && (0 <? String.length (PreRelease config)) then
    match incrementStrInt (Patch parsed) with
    | Err e => Err e
    | Ok patch =>
        let parsed := setPatch parsed patch in
        let identifier := PreRelease config in
        let identifier :=
          if negb (HasPrefix identifier "-") then "-" +:+ identifier else identifier in
        Ok (parsedString (setPrerelease parsed identifier))
    end
  else if bool_decide (increment = MinorBump) then
    match incrementStrInt (Minor parsed) with
    | Err e => Err e
    | Ok minor => Ok (parsedString (setPatch (setMinor parsed minor) "0"))
    end
  else
    match incrementStrInt (Patch parsed) with
    | Err e => Err e
    | Ok patch => Ok (parsedString (setPatch parsed patch))
    end.

(** [CalculateNextVersion]. *)
Definition CalculateNextVersion (modulePath latest : string)
    (config : Repotools.ModuleConfig) (annotations : list Annotation)
    (preReleaseIdentifier : string) : result Error string :=
  let '(_, pathMajor, ok) := moduleSplitPathVersion modulePath in
  if negb ok then Err InvalidModulePath
  else
    let pathMajor := TrimPrefix pathMajor "/" in
    let increment := changelogGetVersionIncrement annotations in
    let isPreRelease := 0 <? String.length preReleaseIdentifier in
    if String.length latest =? 0 then
      Ok (getNewModuleVersion pathMajor increment config preReleaseIdentifier)
    else
      let (parsed, ok) := semverParse (semverCanonical latest) in
      if negb ok then Err FailedToParseSemver
      else
        let computed :=
          if isPreRelease
          then calculatePreReleaseVersion parsed increment config preReleaseIdentifier
          else calculateNextVersion parsed increment config in
        match computed with
        | Err e => Err e
        | Ok next =>
            if (semverCompare next latest <=? 0)%Z then Err VersionNotIncreasing
            else Ok next
        end.

(** [annotationsToIDs]. *)
Definition annotationsToIDs (annotations : list Annotation) : list string :=
  map ID annotations.

(** [FindModuleViaRelativeRepoPath]; [order] is the order in which the
    [range] loop visits the map. *)
Definition FindModuleViaRelativeRepoPath (order : list string)
    (modules : gmap string Module) (relPath : string) : option Module :=
  snd <$> List.find (fun kv => String.eqb (RelativeRepoPath (snd kv)) relPath)
                    (rangeMap order modules).

(** The body of the loop [for modulePath, mod := range modules] of
    [BuildReleaseManifest]. *)
Definition addModule (verbose : bool) (preRelease : string) (rm : Manifest)
    (modulePath : string) (mod' : Module) : result Error Manifest :=
  if (Changes mod' =? 0)%N || NoTag (ModuleConfig mod') then Ok rm
  else
    match CalculateNextVersion modulePath (Latest mod') (ModuleConfig mod')
            (ChangeAnnotations mod') preRelease with
    | Err e => Err e
    | Ok nextVersion =>
        let fileChanges := if verbose then FileChanges mod' else [] in
        let mm :=
          {| mmModulePath := modulePath;
             mmFrom := Latest mod';
             mmTo := nextVersion;
             mmChanges := Changes mod';
             mmFileChanges := fileChanges;
             mmAnnotations := annotationsToIDs (ChangeAnnotations mod') |} in
        match gitToModuleTag (RelativeRepoPath mod') nextVersion with
        | Err _ => Err ModuleTagError
        | Ok moduleTag =>
            Ok {| manifestID := manifestID rm;
                  WithReleaseTag := WithReleaseTag rm;
                  manifestModules := <[RelativeRepoPath mod' := mm]> (manifestModules rm);
                  Tags := Tags rm ++ [moduleTag] |}
        end
    end.

(** The loop [for modulePath, mod := range modules], left at the first
    error. *)
Fixpoint addModules (verbose : bool) (preRelease : string) (rm : Manifest)
    (entries : list (string * Module)) : result Error Manifest :=
  match entries with
  | [] => Ok rm
  | (modulePath, mod') :: entries' =>
      match addModule verbose preRelease rm modulePath mod' with
      | Err e => Err e
      | Ok rm' => addModules verbose preRelease rm' entries'
      end
  end.

(** [BuildReleaseManifest].  [order] is the order in which its loop
    visits [modules], [order'] the order in which the loop of
    [FindModuleViaRelativeRepoPath] does. *)
Definition BuildReleaseManifest (order order' : list string)
    (moduleTree : Gomod.ModuleTree) (id : string) (modules : gmap string Module)
    (verbose : bool) (preRelease : string) : result Error Manifest :=
  let rm := {| manifestID := id; WithReleaseTag := true;
               manifestModules := ∅; Tags := [] |} in
  match addModules verbose preRelease rm (rangeMap order modules) with
  | Err e => Err e
  | Ok rm =>
      let single :=
        match Gomod.List moduleTree with
        | [root] =>
            match manifestModules rm !! Gomod.Path root with
            | Some rootChangeModule => Ok (Some (mmTo rootChangeModule))
            | None =>
                match FindModuleViaRelativeRepoPath order' modules (Gomod.Path root) with
                | None => Err RootModuleNotFound
                | Some rootRepoModule => Ok (Some (Latest rootRepoModule))
                end
            end
        | _ => Ok None
        end in
      match single with
      | Err e => Err e
      | Ok (Some singleModRepoID) =>
          Ok {| manifestID := singleModRepoID; WithReleaseTag := false;
                manifestModules := manifestModules rm;
                Tags := SortStrings (Tags rm) |}
      | Ok None =>
          Ok {| manifestID := manifestID rm; WithReleaseTag := WithReleaseTag rm;
                manifestModules := manifestModules rm;
                Tags := SortStrings (Tags rm) |}
      end
  end.

End WithPackages.

(** *** Dependency propagation *)

(** The inner loop of [buildInverseDependencyGraph] for the module
    [modulePath]. *)
Definition addRequires (modules : gmap string Module) (modulePath : string)
    (requires : list string) (reverseDepGraph : gmap string (list string))
  : gmap string (list string) :=
  fold_left
    (fun g requireModPath =>
       match modules !! requireModPath with
       | None => g
       | Some _ => <[requireModPath := default [] (g !! requireModPath) ++ [modulePath]]> g
       end)
    requires reverseDepGraph.

(** [buildInverseDependencyGraph]; [order] is the order in which the
    [range] loop visits [modules]. *)
Definition buildInverseDependencyGraph (order : list string)
    (modules : gmap string Module) : gmap string (list string) :=
  fold_left
    (fun g kv => addRequires modules (fst kv) (Require (File (snd kv))) g)
    (rangeMap order modules) ∅.

Definition setChanges (m : Module) (c : ModuleChange) : Module :=
  {| File := File m; RelativeRepoPath := RelativeRepoPath m; Latest := Latest m;
     Next := Next m; Changes := c; FileChanges := FileChanges m;
     ChangeAnnotations := ChangeAnnotations m; ModuleConfig := ModuleConfig m |}.

(** The state of the loops of [CalculateDependencyUpdates]: the work
    list and the modules, which the Go code updates through the pointers
    the map holds. *)
Record State : Type :=
  { toVisit : list string;
    mods : gmap string Module }.

(** The body of the loop [for _, dependent := range dependents]. *)
Definition markDependent (reverseDepGraph : gmap string (list string))
    (st : result Error State) (dependent : string) : result Error State :=
  match st with
  | Err e => Err e
  | Ok st =>
      match mods st !! dependent with
      | None => Err NilModule
      | Some dependentModule =>
          if negb (N.land (Changes dependentModule) DependencyUpdate =? 0)%N then Ok st
          else
            let modules :=
              <[dependent := setChanges dependentModule
                               (N.lor (Changes dependentModule) DependencyUpdate)]>
                (mods st) in
            match reverseDepGraph !! dependent with
            | Some _ =>
                Ok {| toVisit := AppendIfNotPresent (toVisit st) dependent;
                      mods := modules |}
            | None => Ok {| toVisit := toVisit st; mods := modules |}
            end
      end
  end.

(** The body of the loop [for len(toVisit) > 0] for the module [current]
    taken off the work list, [st] holding the rest of the list. *)
Definition visit (reverseDepGraph : gmap string (list string)) (current : string)
    (st : State) : result Error State :=
  match mods st !! current with
  | None => Err NilModule
  | Some m =>
      if (Changes m =? 0)%N then Ok st
      else
        let dependents := default [] (reverseDepGraph !! current) in
        if NoTag (ModuleConfig m) && (0 <? length dependents)
        then Err (UntaggedModuleHasDependents current (length dependents))
        else if NoTag (ModuleConfig m) then Ok st
        else fold_left (markDependent reverseDepGraph) dependents (Ok st)
  end.

(** The loop [for len(toVisit) > 0], run for at most [rounds] rounds.  It
    returns the state it stopped in and the error, if any. *)
Fixpoint visitAll (rounds : nat) (reverseDepGraph : gmap string (list string))
    (st : State) : State * option Error :=
  match toVisit st with
  | [] => (st, None)
  | current :: rest =>
      match rounds with
      | O => (st, None)
      | S rounds' =>
          match visit reverseDepGraph current {| toVisit := rest; mods := mods st |} with
          | Err e => ({| toVisit := rest; mods := mods st |}, Some e)
          | Ok st' => visitAll rounds' reverseDepGraph st'
          end
      end
  end.

(** [CalculateDependencyUpdates]: the modules after the call and the
    error, [None] for [nil].  [order] is the order in which the loop of
    [buildInverseDependencyGraph] visits [modules].  The loop over the keys
    of [reverseDepGraph] fills a list that is sorted afterwards, so its
    order does not show and the order of [map_to_list] stands for it.  A
    module enters the work list at the start or when its flag is set, which
    happens once, so two rounds for every module and one for every entry of
    the list at the start end the loop (see
    [CalculateDependencyUpdates_ends]). *)
Definition CalculateDependencyUpdates (order : list string)
    (modules : gmap string Module) : gmap string Module * option Error :=
  let reverseDepGraph := buildInverseDependencyGraph order modules in
  let toVisit := SortStrings (map fst (map_to_list reverseDepGraph)) in
  let (st, err) :=
    visitAll (2 * size modules + length toVisit) reverseDepGraph
             {| toVisit := toVisit; mods := modules |} in
  (mods st, err).

(** *** What the specification says about the propagation, and
    auxiliary notions of the proofs *)

(** The dependents the graph records for a module. *)
Definition dependentsOf (g : gmap string (list string)) (k : string) : list string :=
  default [] (g !! k).

(** The module carries the dependency-updated flag. *)
Definition flagged (ms : gmap string Module) (k : string) : Prop :=
  exists m, ms !! k = Some m /\ N.land (Changes m) DependencyUpdate <> 0%N.

(** What the propagation may do to a module: nothing, or set the flag. *)
Definition marked (m m' : Module) : Prop :=
  m' = m \/ m' = setChanges m (N.lor (Changes m) DependencyUpdate).

Definition evolves (ms ms' : gmap string Module) : Prop :=
  forall k, option_Forall2 marked (ms !! k) (ms' !! k).

Definition unflagged (kv : string * Module) : Prop :=
  N.land (Changes (snd kv)) DependencyUpdate = 0%N.

#[global] Instance unflagged_dec kv : Decision (unflagged kv).
Proof. unfold unflagged. apply _. Defined.

(** [x] depends on [r] through requirements among the modules of the
    map. *)
Inductive dependsOn (modules : gmap string Module) : string -> string -> Prop :=
| dependsOn_direct (x r : string) (m : Module) :
    modules !! x = Some m -> r ∈ Require (File m) -> is_Some (modules !! r) ->
    dependsOn modules x r
| dependsOn_trans (x y r : string) :
    dependsOn modules x y -> dependsOn modules y r -> dependsOn modules x r.

(** The module has a change classification at the start. *)
Definition changedAtStart (modules : gmap string Module) (k : string) : Prop :=
  exists m, modules !! k = Some m /\ Changes m <> 0%N.

(** The module depends on a module that has a change at the start. *)
Definition dependsOnChange (modules : gmap string Module) (k : string) : Prop :=
  exists a, changedAtStart modules a /\ dependsOn modules k a.

(** The measure that decreases with every round of the loop. *)
Definition workLeft (st : State) : nat :=
  2 * size (filter unflagged (mods st)) + length (toVisit st).

(** Every key of the graph has a dependent. *)
Definition nonEmptyLists (g : gmap string (list string)) : Prop :=
  forall k ds, g !! k = Some ds -> ds <> [].

(** Every module with a change and with dependents, [skip] apart, is
    still to visit or may be tagged and has passed the flag on to all its
    dependents. *)
Definition closed (g : gmap string (list string)) (skip : option string)
    (st : State) : Prop :=
  forall k m ds,
    skip <> Some k -> mods st !! k = Some m -> Changes m <> 0%N ->
    g !! k = Some ds ->
    k ∈ toVisit st \/
    (NoTag (ModuleConfig m) = false /\ forall d, d ∈ ds -> flagged (mods st) d).

(** The invariant of the loop of [CalculateDependencyUpdates] over the
    graph [g], started with the modules [modules0]. *)
Definition Inv (g : gmap string (list string)) (modules0 : gmap string Module)
    (skip : option string) (st : State) : Prop :=
  evolves modules0 (mods st) /\
  (forall k, k ∈ toVisit st -> is_Some (g !! k)) /\
  closed g skip st /\
  (forall k, flagged (mods st) k ->
             flagged modules0 k \/ dependsOnChange modules0 k).

(** The module gets an entry in the manifest: it has a change and may be
    tagged. *)
Definition released (mod' : Module) : bool :=
  negb ((Changes mod' =? 0)%N || NoTag (ModuleConfig mod')).

End Release.

(** ** An implementation of the imported packages *)

Module GoPackages.
Import GoStrings Semver Changelog.

Definition isDigit (c : ascii) : bool :=
  let n := nat_of_ascii c in (48 <=? n) && (n <=? 57).

Definition isIdentChar (c : ascii) : bool :=
  let n := nat_of_ascii c in
  ((65 <=? n) && (n <=? 90)) || ((97 <=? n) && (n <=? 122)) || isDigit c
  || Ascii.eqb c "-"%char.

Fixpoint allChars (p : ascii -> bool) (s : string) : bool :=
  match s with
  | EmptyString => true
  | String c s' => p c && allChars p s'
  end.

(** The longest prefix of [s] whose bytes satisfy [p], and the rest. *)
Fixpoint span (p : ascii -> bool) (s : string) : string * string :=
  match s with
  | EmptyString => (EmptyString, EmptyString)
  | String c s' =>
      if p c then let (t, rest) := span p s' in (String c t, rest)
      else (EmptyString, s)
  end.

Definition isNum (v : string) : bool := allChars isDigit v.

(** A numeric identifier with a leading zero. *)
Definition isBadNum (v : string) : bool :=
  isNum v && (1 <? String.length v) && HasPrefix v "0".

(** A run of decimal digits without a leading zero at the start of [v],
    and the rest. *)
Definition parseInt (v : string) : option (string * string) :=
  let (t, rest) := span isDigit v in
  if String.eqb t EmptyString then None
  else if HasPrefix t "0" && negb (String.length t =? 1) then None
  else Some (t, rest).

(** A ["-"] followed by dot separated identifiers, up to the end of [v]
    or a ["+"], and the rest. *)
Definition parsePrerelease (v : string) : option (string * string) :=
  match v with
  | String "-"%char v' =>
      let (body, rest) := span (fun c => negb (Ascii.eqb c "+"%char)) v' in
      if forallb (fun ident => negb (String.eqb ident EmptyString) && allChars isIdentChar ident
                               && negb (isBadNum ident))
                 (GoStrings.Split "."%char body)
      then Some (String "-"%char body, rest) else None
  | _ => None
  end.

(** A ["+"] followed by dot separated identifiers up to the end of [v]. *)
Definition parseBuild (v : string) : option (string * string) :=
  match v with
  | String "+"%char v' =>
      if forallb (fun ident => negb (String.eqb ident EmptyString) && allChars isIdentChar ident)
                 (GoStrings.Split "."%char v')
      then Some (v, EmptyString) else None
  | _ => None
  end.

Definition failed (err : string) : Parsed * string * bool :=
  ({| Major := EmptyString; Minor := EmptyString; Patch := EmptyString; Prerelease := EmptyString; Build := EmptyString;
      ParsedErr := err |}, EmptyString, false).

(** The parser: the parsed version, the suffix [".0.0"] or [".0"] a
    shortened version lacks, and whether [v] is a valid version. *)
Definition parse (v : string) : Parsed * string * bool :=
  match v with
  | String "v"%char v1 =>
      match parseInt v1 with
      | None => failed "bad major version"
      | Some (major, v2) =>
          let mk minor patch pre build :=
            {| Major := major; Minor := minor; Patch := patch;
               Prerelease := pre; Build := build; ParsedErr := EmptyString |} in
          match v2 with
          | EmptyString => (mk "0" "0" EmptyString EmptyString, ".0.0", true)
          | String "."%char v3 =>
              match parseInt v3 with
              | None => failed "bad minor version"
              | Some (minor, v4) =>
                  match v4 with
                  | EmptyString => (mk minor "0" EmptyString EmptyString, ".0", true)
                  | String "."%char v5 =>
                      match parseInt v5 with
                      | None => failed "bad patch version"
                      | Some (patch, v6) =>
                          let pre :=
                            if HasPrefix v6 "-" then
                              match parsePrerelease v6 with
                              | Some (p, r) => Some (p, r)
                              | None => None
                              end
                            else Some (EmptyString, v6) in
                          match pre with
                          | None => failed "bad prerelease"
                          | Some (prerelease, v7) =>
                              let bld :=
                                if HasPrefix v7 "+" then parseBuild v7
                                else Some (EmptyString, v7) in
                              match bld with
                              | None => failed "bad build"
                              | Some (build, v8) =>
                                  if String.eqb v8 EmptyString
                                  then (mk minor patch prerelease build, EmptyString, true)
                                  else failed "junk on end"
                              end
                          end
                      end
                  | _ => failed "bad patch prefix"
                  end
              end
          | _ => failed "bad minor prefix"
          end
      end
  | _ => failed "missing v prefix"
  end.

(** Modelled from the spec: the function [Parse] of the package
    [internal/semver] is not among the sources.  The spec has versions of
    the form "v{semver}", calls a prior tag without the leading "v"
    invalid and has a version carry a pre-release tag; the grammar is that
    of Semantic Versioning 2.0.0 with the leading "v" and the shortened
    forms "vMAJOR" and "vMAJOR.MINOR" of Go module versions. *)
Definition Parse (v : string) : Parsed * bool :=
  let '(p, _, ok) := parse v in (p, ok).

(** Modelled from the spec: the function [Canonical] of the package
    [internal/semver] is not among the sources.  The canonical form of a
    valid version is the version without its build metadata and with the
    missing ".MINOR" and ".PATCH" filled in with zeros; that of an invalid
    version is the empty string. *)
Definition Canonical (v : string) : string :=
  let '(p, short, ok) := parse v in
  if negb ok then EmptyString
  else if negb (String.eqb (Build p) EmptyString)
  then String.substring 0 (String.length v - String.length (Build p)) v
  else if negb (String.eqb short EmptyString) then v +:+ short
  else v.

(** Modelled from the spec: the method [String] of [semver.Parsed] is not
    among the sources.  It writes the version in the form "v{semver}" the
    spec gives for tags. *)
Definition String' (p : Parsed) : string :=
  "v" +:+ Major p +:+ "." +:+ Minor p +:+ "." +:+ Patch p +:+ Prerelease p +:+ Build p.

Definition cmp (c : comparison) : Z :=
  match c with Lt => (-1)%Z | Eq => 0%Z | Gt => 1%Z end.

(** Decimal numbers without leading zeros: the longer is the greater. *)
Definition compareInt (x y : string) : Z :=
  if String.eqb x y then 0%Z
  else if String.length x <? String.length y then (-1)%Z
  else if String.length y <? String.length x then 1%Z
  else cmp (String.compare x y).

(** Precedence of two different pre-release identifiers: a numeric one
    is lower than an alphanumeric one, numeric ones compare as numbers,
    alphanumeric ones byte-wise. *)
Definition compareIdent (dx dy : string) : Z :=
  if negb (Bool.eqb (isNum dx) (isNum dy)) then (if isNum dx then (-1)%Z else 1%Z)
  else if isNum dx && (String.length dx <? String.length dy) then (-1)%Z
  else if isNum dx && (String.length dy <? String.length dx) then 1%Z
  else if String.ltb dx dy then (-1)%Z else 1%Z.

Fixpoint compareIdents (xs ys : list string) : Z :=
  match xs, ys with
  | [], [] => 0%Z
  | [], _ :: _ => (-1)%Z
  | _ :: _, [] => 1%Z
  | dx :: xs', dy :: ys' =>
      if String.eqb dx dy then compareIdents xs' ys' else compareIdent dx dy
  end.

(** Precedence of pre-release tags: a version without one is the
    greater; otherwise the first different identifier decides, and a tag
    that is a prefix of the other is the lower. *)
Definition comparePrerelease (x y : string) : Z :=
  if String.eqb x y then 0%Z
  else if String.eqb x EmptyString then 1%Z
  else if String.eqb y EmptyString then (-1)%Z
  else compareIdents (GoStrings.Split "."%char (String.substring 1 (String.length x - 1) x))
                     (GoStrings.Split "."%char (String.substring 1 (String.length y - 1) y)).

(** Modelled from the spec: the function [Compare] of the package
    [internal/semver] is not among the sources.  The spec asks for
    "semantic-version ordering": the precedence of Semantic Versioning
    2.0.0, which compares major, minor and patch as numbers, then the
    pre-release tags, and ignores build metadata.  An invalid version is
    lower than every valid one and equal to every invalid one. *)
Definition Compare (v w : string) : Z :=
  let (pv, ok1) := Parse v in
  let (pw, ok2) := Parse w in
  if negb ok1 && negb ok2 then 0%Z
  else if negb ok1 then (-1)%Z
  else if negb ok2 then 1%Z
  else
    let c := compareInt (Major pv) (Major pw) in
    if negb (c =? 0)%Z then c
    else
      let c := compareInt (Minor pv) (Minor pw) in
      if negb (c =? 0)%Z then c
      else
        let c := compareInt (Patch pv) (Patch pw) in
        if negb (c =? 0)%Z then c
        else comparePrerelease (Prerelease pv) (Prerelease pw).

(** The increment a kind of change asks for. *)
Definition VersionIncrement (t : ChangeType) : SemVerIncrement :=
  match t with
  | ReleaseChangeType => ReleaseBump
  | FeatureChangeType => MinorBump
  | BugFixChangeType => PatchBump
  end.

Definition rank (i : SemVerIncrement) : nat :=
  match i with
  | DefaultBump => 0
  | PatchBump => 1
  | MinorBump => 2
  | ReleaseBump => 3
  end.

(** Modelled from the spec: the function [GetVersionIncrement] of the
    package [changelog] is not among the sources.  The spec derives "a
    bump size from the aggregated annotations: one of {default(patch),
    patch, minor, release-promotion}", where "release-promotion outranks
    minor, which outranks patch/default"; a release annotation asks for
    release-promotion, a feature annotation for minor, a bug fix for
    patch. *)
Definition GetVersionIncrement (annotations : list Annotation) : SemVerIncrement :=
  fold_left
    (fun increment annotation =>
       if rank increment <? rank (VersionIncrement (Type' annotation))
       then VersionIncrement (Type' annotation) else increment)
    annotations DefaultBump.

(** The suffix of [s] after its last byte that does not satisfy [p],
    and what comes before it. *)
Definition spanEnd (p : ascii -> bool) (s : string) : string * string :=
  let (t, rest) := span p (String.rev s) in (String.rev rest, String.rev t).

(** Modelled from the spec: [SplitPathVersion] belongs to the library
    [golang.org/x/mod/module], which is not among the sources.  The spec
    has the calculator "derive the module's major-version path suffix
    (e.g. a "/v2" path element) if present": a path ending in "/vN" with
    N at least 2 and without a leading zero has the suffix "/vN"; a path
    ending in "/v1", "/v0..." or "/vN.M" is invalid; every other path has no
    suffix.  Paths of gopkg.in, whose suffix is ".vN", are left out: they
    count as paths without a suffix. *)
Definition SplitPathVersion (path : string) : string * string * bool :=
  let (front, tail) := spanEnd (fun c => isDigit c || Ascii.eqb c "."%char) path in
  if String.eqb tail EmptyString || negb (HasSuffix front "/v") then (path, EmptyString, true)
  else
    let pathMajor := "/v" +:+ tail in
    if negb (allChars isDigit tail) || HasPrefix tail "0" || String.eqb pathMajor "/v1"
    then (path, EmptyString, false)
    else (String.substring 0 (String.length front - 2) front, pathMajor, true).

(** Modelled from the spec: the function [ToModuleTag] of the package
    [git] is not among the sources.  The spec formats "a tag string as
    {relative-path}/{version} or bare {version} for the repository
    root". *)
Definition ToModuleTag (relPath version : string) : result unit string :=
  if String.eqb relPath "." then Ok version else Ok (relPath +:+ "/" +:+ version).

#[global] Instance packages : Packages :=
  {| semverParse := Parse;
     semverCanonical := Canonical;
     semverCompare := Compare;
     parsedString := String';
     moduleSplitPathVersion := SplitPathVersion;
     changelogGetVersionIncrement := GetVersionIncrement;
     gitToModuleTag := ToModuleTag |}.

End GoPackages.

(** ** The inputs of the examples *)

Module Examples.
Import Gomod Changelog Repotools Release.

Definition leaf (path : string) : ModuleTreeNode := Node path path [] [].

(** The module "." with the sub-module "sub1", without sub-modules, and
    with the sub-modules "sub1" and "sub2", and the changed files of the
    test of the change filter. *)
Definition rootWithSub1 : ModuleTreeNode := Node "." "." [leaf "sub1"] [].
Definition rootAlone : ModuleTreeNode := Node "." "." [] [].
Definition rootWithSub1Sub2 : ModuleTreeNode :=
  Node "." "." [leaf "sub1"; leaf "sub2"] [].
Definition changedFiles : list string :=
  ["sub3/foo.go"; "sub2/bar.go"; "sub1/baz.go"; "foo.go"].

(** The five paths of the insertion test and the tree they make. *)
Definition fivePaths : list string := ["a/f/g"; "a"; "a/b"; "c"; "e/f/g"].

Definition fivePathsTree : ModuleTree :=
  {| options := {| RootPath := EmptyString |};
     treeSubModules :=
       [Node "a" "a" [leaf "a/b"; leaf "a/f/g"] []; leaf "c"; leaf "e/f/g"] |}.

(** The tree of the test "nested reorder". *)
Definition nestedTree : ModuleTree :=
  {| options := {| RootPath := EmptyString |};
     treeSubModules :=
       [Node "." "."
          [Node "service/s3" "service/s3"
             [leaf "service/s3/internal/configtest"] []] []] |}.

Definition annotation (t : ChangeType) (id : string) (modules : list string)
  : Annotation :=
  {| ID := id; Type' := t; Modules := modules |}.

Definition configWith (noTag : bool) (track metadataPackage : string)
  : Repotools.ModuleConfig :=
  {| NoTag := noTag; PreRelease := track; MetadataPackage := metadataPackage |}.

(** A repository with the single module "." and its module record, as
    in the test "single-module"; with [noTag] the module is exempt from
    tagging. *)
Definition singleModuleTree : ModuleTree :=
  {| options := {| RootPath := EmptyString |};
     treeSubModules := [Node "." "." [] []] |}.

Definition smithy (noTag : bool) : Module :=
  {| File := {| Require := ["github.com/google/go-cmp"] |};
     RelativeRepoPath := ".";
     Latest := "v1.2.3";
     Next := EmptyString;
     Changes := SourceChange;
     FileChanges := ["config/foo.go"];
     ChangeAnnotations := [];
     ModuleConfig := configWith noTag EmptyString EmptyString |}.

Definition smithyModules (noTag : bool) : gmap string Module :=
  {[ "github.com/aws/smithy-go" := smithy noTag ]}.

(** Three modules "A", "B" and "C", of which "B" requires "A" and "C"
    requires "B"; "A" requires [requiresOfA], has a source change and is
    exempt from tagging when [noTag] is set. *)
Definition moduleOf (requires : list string) (changes : ModuleChange)
    (noTag : bool) : Module :=
  {| File := {| Require := requires |};
     RelativeRepoPath := EmptyString;
     Latest := "v1.0.0";
     Next := EmptyString;
     Changes := changes;
     FileChanges := [];
     ChangeAnnotations := [];
     ModuleConfig := configWith noTag EmptyString EmptyString |}.

Definition threeModules (requiresOfA : list string) (noTag : bool)
  : gmap string Module :=
  <["A" := moduleOf requiresOfA SourceChange noTag]>
    (<["B" := moduleOf ["A"; "github.com/google/go-cmp"] 0%N false]>
       (<["C" := moduleOf ["B"] 0%N false]> ∅)).

Definition chainModules : gmap string Module := threeModules [] false.
Definition cycleModules : gmap string Module := threeModules ["C"] false.
Definition untaggedModules : gmap string Module := threeModules [] true.

(** An order in which a loop may visit the map. *)
Definition orderOf (modules : gmap string Module) : list string :=
  map fst (map_to_list modules).

End Examples.

Module StrconvDefs.
Import Strconv.

(** The bytes [Itoa] writes after the sign are digits. *)
Definition isDigitByte (c : ascii) : Prop := exists d, (0 <= d <= 9)%Z /\ c = digitChar d.

Fixpoint allDigits (s : string) : Prop :=
  match s with
  | EmptyString => True
  | String c s' => isDigitByte c /\ allDigits s'
  end.

End StrconvDefs.

Module DiffDefs.
Import GoStrings Gomod.

(** The loop of [isModuleCarvedOut] over the filtered files, from the
    values [hasGoSource] and [hasGoMod] on; it is left when both are set.
    [path.Split] splits as [filepath.Split] does where the separator is
    ['/']. *)
Fixpoint carvedOutLoop (hasGoSource hasGoMod : bool) (files : list string)
  : bool * bool :=
  match files with
  | [] => (hasGoSource, hasGoMod)
  | file :: rest =>
      let (_, fileName) := Filepath.Split file in
      let hasGoMod := if IsGoMod fileName then true else hasGoMod in
      let hasGoSource := if IsGoSource fileName then true else hasGoSource in
      if hasGoMod && hasGoSource then (hasGoSource, hasGoMod)
      else carvedOutLoop hasGoSource hasGoMod rest
  end.

(** [isModuleCarvedOut], of [release/calculate.go]: whether the module
    was carved out, and the error, [None] for [nil]. *)
Definition isModuleCarvedOut (module : ModuleTreeNode) (files : list string)
  : bool * option string :=
  let (files', err) := FilterModuleFiles module files in
  match err with
  | Some e => (false, Some ("failed to filter tree files, " +:+ e))
  | None =>
      let (hasGoSource, hasGoMod) := carvedOutLoop false false files' in
      (negb hasGoMod && hasGoSource, None)
  end.

(** The directory and the name [FilterModuleFiles] takes a file path
    apart into. *)
Definition fileDir (filepathName : string) : string :=
  Filepath.Clean (fst (Filepath.Split filepathName)).

Definition fileName (filepathName : string) : string :=
  snd (Filepath.Split filepathName).

(** The file is a Go source file or a [go.mod] file. *)
Definition isModuleFile (filepathName : string) : bool :=
  IsGoSource (fileName filepathName) || IsGoMod (fileName filepathName).

(** The file is a Go source file or a [go.mod] file in a directory the
    module is the parent of. *)
Definition ownsFile (module : ModuleTreeNode) (filepathName : string) : bool :=
  isModuleFile filepathName && ParentOf module (fileDir filepathName).

(** What the first loop of [FilterModuleFiles] keeps in its cache after
    the files [done]: a directory is marked relevant exactly when the
    module is its parent, and the files of the relevant directories are
    the files of [done] the module owns. *)
Definition cacheOk (module : ModuleTreeNode) (dirCache : gmap string modDir)
    (done : list string) : Prop :=
  (forall dir v, dirCache !! dir = Some v -> relevant v = ParentOf module dir) /\
  flat_map relevantFilesOf (map_to_list dirCache)
  ≡ₚ List.filter (ownsFile module) done.
End DiffDefs.

Module ChangeDefs.
Import GoStrings Release.

(** [moduleChangeJSON]. *)
Record moduleChangeJSON : Type :=
  { jsonSourceChange : bool;
    jsonNewModule : bool;
    jsonDependencyUpdate : bool }.

(** [ModuleChange.MarshalJSON] up to the call of [json.Marshal]: the
    value [j] the method hands to the encoder. *)
Definition MarshalJSON (m : ModuleChange) : moduleChangeJSON :=
  {| jsonSourceChange := negb (N.land m SourceChange =? 0)%N;
     jsonNewModule := negb (N.land m NewModule =? 0)%N;
     jsonDependencyUpdate := negb (N.land m DependencyUpdate =? 0)%N |}.

(** [ModuleChange.UnmarshalJSON] from the value [j] that
    [json.Unmarshal] has filled on: the receiver [m] after the call. *)
Definition UnmarshalJSON (m : ModuleChange) (j : moduleChangeJSON) : ModuleChange :=
  let m := if jsonSourceChange j then N.lor m SourceChange else m in
  let m := if jsonNewModule j then N.lor m NewModule else m in
  if jsonDependencyUpdate j then N.lor m DependencyUpdate else m.

(** [ModuleChange.String]. *)
Definition ModuleChangeString (m : ModuleChange) : string :=
  let changes := [] in
  let changes :=
    if negb (N.land m SourceChange =? 0)%N then changes ++ ["SourceChange"]
    else changes in
  let changes :=
    if negb (N.land m NewModule =? 0)%N then changes ++ ["NewModule"]
    else changes in
  let changes :=
    if negb (N.land m DependencyUpdate =? 0)%N then changes ++ ["DependencyUpdate"]
    else changes in
  Join changes ", ".

(** The three bits of a [ModuleChange] that have a name. *)
Definition knownChanges : ModuleChange :=
  N.lor (N.lor SourceChange NewModule) DependencyUpdate.
End ChangeDefs.

Module ManifestDefs.
Import Changelog Repotools Release.

(** The entry [mm] the loop of [BuildReleaseManifest] makes for a
    module and its next version. *)
Definition manifestEntry (verbose : bool) (modulePath : string) (mod' : Module)
    (nextVersion : string) : ModuleManifest :=
  {| mmModulePath := modulePath;
     mmFrom := Latest mod';
     mmTo := nextVersion;
     mmChanges := Changes mod';
     mmFileChanges := if verbose then FileChanges mod' else [];
     mmAnnotations := annotationsToIDs (ChangeAnnotations mod') |}.
End ManifestDefs.

Module Time.
Import Strconv.

(** A [time.Time] at midnight UTC, by its year, month and day. *)
Record Date : Type := { year : Z; month : Z; day : Z }.

(** [t.Equal(u)] for two times at midnight UTC of days of the calendar:
    they are the same instant when they are the same day. *)
Definition Equal (t u : Date) : bool :=
  (year t =? year u)%Z && (month t =? month u)%Z && (day t =? day u)%Z.

(** [isLeap]; Go's [%] is [Z.rem]. *)
Definition isLeap (y : Z) : bool :=
  (Z.rem y 4 =? 0)%Z && (negb (Z.rem y 100 =? 0)%Z || (Z.rem y 400 =? 0)%Z).

(** The table [daysBefore]. *)
Definition daysBefore : list Z :=
  [0; 31; 59; 90; 120; 151; 181; 212; 243; 273; 304; 334; 365]%Z.

(** [daysIn(m, year)] for a month from 1 to 12. *)
Definition daysIn (m y : Z) : Z :=
  if (m =? 2)%Z && isLeap y then 29%Z
  else (nth (Z.to_nat m) daysBefore 0 - nth (Z.to_nat (m - 1)) daysBefore 0)%Z.

(** [getnum(s, true)]: a number of exactly two digits. *)
Definition getnum2 (s : string) : option (Z * string) :=
  match s with
  | String a (String b rest) =>
      match digitOf a, digitOf b with
      | Some x, Some y => Some (x * 10 + y, rest)%Z
      | _, _ => None
      end
  | _ => None
  end.

(** [skip(value, "-")]. *)
Definition skipDash (value : string) : option string :=
  match value with
  | String "-"%char rest => Some rest
  | _ => None
  end.

(** [time.Parse("2006-01-02", value)]; an error is [None].  The year is
    four digits, the month and the day are two digits each, the month is
    from 1 to 12 and the day is a day of the month. *)
Definition Parse (value : string) : option Date :=
  match value with
  | String y1 (String y2 (String y3 (String y4 value))) =>
      match digitOf y1,
            digits 0 (String y1 (String y2 (String y3 (String y4 EmptyString)))) with
      | Some _, Some y =>
          match skipDash value with
          | None => None
          | Some value =>
              match getnum2 value with
              | None => None
              | Some (m, value) =>
                  if (m <=? 0)%Z || (12 <? m)%Z then None
                  else
                    match skipDash value with
                    | None => None
                    | Some value =>
                        match getnum2 value with
                        | None => None
                        | Some (d, value) =>
                            if negb (String.eqb value EmptyString) then None
                            else if (d <? 1)%Z || (daysIn m y <? d)%Z then None
                            else Some {| year := y; month := m; day := d |}
                        end
                    end
              end
          end
      | _, _ => None
      end
  | _ => None
  end.

Fixpoint zeros (n : nat) : string :=
  match n with
  | O => EmptyString
  | S n' => String "0"%char (zeros n')
  end.

(** [appendInt(b, x, width)], the bytes appended: the sign, zeros up to
    the width, and the digits. *)
Definition appendInt (x : Z) (width : nat) : string :=
  let buf := itoaPos 20 (Z.abs x) EmptyString in
  (if (x <? 0)%Z then "-" else EmptyString)
    +:+ zeros (width - String.length buf) +:+ buf.

(** [t.Format("2006-01-02")]. *)
Definition Format (t : Date) : string :=
  appendInt (year t) 4 +:+ "-" +:+ appendInt (month t) 2 +:+ "-" +:+ appendInt (day t) 2.

(** A day of the calendar with a year of four digits. *)
Definition validDate (t : Date) : Prop :=
  (0 <= year t <= 9999)%Z /\ (1 <= month t <= 12)%Z /\
  (1 <= day t <= daysIn (month t) (year t))%Z.
End Time.

Module TimeDefs.
Import Strconv.

(** The digits [appendInt] writes for a year of four digits and for a
    number of two digits. *)
Definition fourDigits (y : Z) : string :=
  String (digitChar (y / 1000))
    (String (digitChar (y / 100 mod 10))
       (String (digitChar (y / 10 mod 10))
          (String (digitChar (y mod 10)) EmptyString))).

Definition twoDigits (x : Z) : string :=
  String (digitChar (x / 10)) (String (digitChar (x mod 10)) EmptyString).

End TimeDefs.

Module ReleaseIDDefs.
Import GoStrings Strconv Time.

(** [strings.Cut(s, sep)] for a one-byte separator: the parts before and
    after its first occurrence. *)
Fixpoint Cut (s : string) (sep : ascii) : option (string * string) :=
  match s with
  | EmptyString => None
  | String a s' =>
      if Ascii.eqb a sep then Some (EmptyString, s')
      else match Cut s' sep with
           | Some (before, after) => Some (String a before, after)
           | None => None
           end
  end.

(** [strings.SplitN(s, sep, 2)] for a one-byte separator. *)
Definition SplitN2 (s : string) (sep : ascii) : list string :=
  match Cut s sep with
  | Some (before, after) => [before; after]
  | None => [s]
  end.

(** The body of the loop of [NextReleaseID]: [latestNum] after the
    tag. *)
Definition releaseStep (nextTime : Date) (latestNum : Z) (tag : string) : Z :=
  if negb (HasPrefix tag "release-") then latestNum
  else
    let tag := TrimPrefix tag "release-" in
    let split := SplitN2 tag "."%char in
    match Time.Parse (nth 0 split EmptyString) with
    | None => latestNum
    | Some t =>
        if negb (Time.Equal t nextTime) then latestNum
        else if negb (length split =? 2) then
          if (latestNum =? 0)%Z then 1%Z else latestNum
        else
          match Atoi (nth 1 split EmptyString) with
          | None => latestNum
          | Some i => if (latestNum <? i)%Z then i else latestNum
          end
    end.

(** [NextReleaseID]; [nextTime] is the day of [nowTime().UTC()]. *)
Definition NextReleaseID (nextTime : Date) (tags : list string) : string :=
  let latestNum := fold_left (releaseStep nextTime) tags 0%Z in
  if (latestNum =? 0)%Z then Time.Format nextTime
  else Time.Format nextTime +:+ "." +:+ Itoa (wrapInt (latestNum + 1)).

(** What a tag is to the loop of [NextReleaseID]: no release of the day,
    the release of the day without a number, or one with a number. *)
Inductive releaseOfDay : Type :=
| OtherTag
| FirstRelease
| NumberedRelease (i : Z).

Definition classify (nextTime : Date) (tag : string) : releaseOfDay :=
  if negb (HasPrefix tag "release-") then OtherTag
  else
    let split := SplitN2 (TrimPrefix tag "release-") "."%char in
    match Time.Parse (nth 0 split EmptyString) with
    | None => OtherTag
    | Some t =>
        if negb (Time.Equal t nextTime) then OtherTag
        else if negb (length split =? 2) then FirstRelease
        else match Atoi (nth 1 split EmptyString) with
             | None => OtherTag
             | Some i => NumberedRelease i
             end
    end.
End ReleaseIDDefs.

(** * Properties *)

Module GomodFacts.
Import GoStrings Gomod.

(** Induction over a tree whose children hang in a list. *)
Lemma ModuleTreeNode_nested_ind (P : ModuleTreeNode -> Prop) :
  (forall a r subs at', Forall P subs -> P (Node a r subs at')) ->
  forall n, P n.
Proof.
  intros step. fix IH 1. intros [a r subs at'].
  apply step. induction subs as [|m subs IHsubs]; constructor.
  - apply IH.
  - exact IHsubs.
Qed.

Lemma nodeSize_pos n : 0 < nodeSize n.
Proof. destruct n; simpl; lia. Qed.

Lemma nodesSize_app l1 l2 : nodesSize (l1 ++ l2) = nodesSize l1 + nodesSize l2.
Proof.
  unfold nodesSize. rewrite map_app.
  induction (map nodeSize l1) as [|x xs IH]; simpl; lia.
Qed.

Lemma nodesSize_rev l : nodesSize (rev l) = nodesSize l.
Proof.
  induction l as [|x l IH]; simpl; [reflexivity|].
  rewrite nodesSize_app, IH. unfold nodesSize. simpl. lia.
Qed.

Lemma nodesSize_nil_inv l : nodesSize l = 0 -> l = [].
Proof.
  destruct l as [|n l]; [reflexivity|].
  unfold nodesSize. simpl. pose proof (nodeSize_pos n). lia.
Qed.

Lemma preorder_unfold n : preorder n = n :: depthFirst (subModules n).
Proof. destruct n; reflexivity. Qed.

Lemma depthFirst_cons n l : depthFirst (n :: l) = n :: depthFirst (subModules n ++ l).
Proof.
  unfold depthFirst. simpl. rewrite preorder_unfold. unfold depthFirst.
  rewrite flat_map_app. reflexivity.
Qed.

Lemma Pop_nil : Pop [] = (None, []).
Proof. reflexivity. Qed.

Lemma Pop_rev_cons n l : Pop (rev (n :: l)) = (Some n, rev l).
Proof. unfold Pop. rewrite rev_involutive. reflexivity. Qed.

(** The loop over an iterator visits what is on the stack in depth-first
    order, top first, and leaves the stack empty. *)
Lemma drain_depthFirst rounds : forall pending acc,
  nodesSize pending <= rounds ->
  drain rounds {| stack := rev pending |} acc
  = (acc ++ depthFirst pending, {| stack := [] |}).
Proof.
  induction rounds as [|rounds IH]; intros pending acc Hsize.
  - assert (pending = []) as -> by (apply nodesSize_nil_inv; lia).
    simpl. rewrite app_nil_r. reflexivity.
  - destruct pending as [|n pending].
    + simpl. rewrite app_nil_r. reflexivity.
    + cbn [drain]. unfold Next. cbn [stack]. rewrite Pop_rev_cons.
      unfold PushReverse. rewrite <- rev_app_distr.
      rewrite IH.
      * rewrite depthFirst_cons, <- app_assoc. reflexivity.
      * rewrite nodesSize_app.
        change (nodesSize (n :: pending)) with (nodeSize n + nodesSize pending) in Hsize.
        destruct n as [a r subs at']. simpl in *.
        fold (nodesSize subs) in Hsize. lia.
Qed.

Lemma newIterator_stack nodes :
  newModuleTreeNodesIterator nodes = {| stack := rev nodes |}.
Proof. reflexivity. Qed.

Lemma NodeList_depthFirst n : NodeList n = depthFirst (subModules n).
Proof.
  unfold NodeList, NodeIterator. rewrite newIterator_stack.
  rewrite drain_depthFirst by lia. reflexivity.
Qed.

Lemma List_fold nodes acc :
  fold_left (fun lst n => (lst ++ [n]) ++ NodeList n) nodes acc
  = acc ++ depthFirst nodes.
Proof.
  revert acc. induction nodes as [|n nodes IH]; intros acc; simpl.
  - rewrite app_nil_r. reflexivity.
  - rewrite IH, NodeList_depthFirst. unfold depthFirst. simpl.
    rewrite preorder_unfold. unfold depthFirst.
    rewrite <- !app_assoc. reflexivity.
Qed.

Lemma List_depthFirst t : List t = depthFirst (treeSubModules t).
Proof. unfold List. rewrite List_fold. reflexivity. Qed.

Lemma IteratorNodes_depthFirst t :
  drain (nodesSize (treeSubModules t)) (Iterator t) []
  = (depthFirst (treeSubModules t), {| stack := [] |}).
Proof.
  unfold Iterator. rewrite newIterator_stack.
  rewrite drain_depthFirst by lia. reflexivity.
Qed.
End GomodFacts.

Module GomodInsert.
Import GoStrings Gomod GomodFacts.

#[local] Instance nodeLe_trans : Transitive nodeLe.
Proof. intros a b c. unfold nodeLe. apply transitivity. Qed.

#[local] Instance nodeLe_total : Total nodeLe.
Proof. intros a b. unfold nodeLe. apply total, _. Qed.

#[local] Instance unrelated_sym : Symmetric unrelated.
Proof. intros a b [? ?]. split; assumption. Qed.

Section Pairs.
Context {A : Type} (R : relation A).

Lemma Forall_sublist (P : A -> Prop) l1 l2 :
  l1 `sublist_of` l2 -> Forall P l2 -> Forall P l1.
Proof.
  intros Hsub Hall. apply Forall_forall. intros x Hx.
  rewrite Forall_forall in Hall. apply Hall.
  eapply elem_of_sublist; eassumption.
Qed.

Lemma ForallOrdPairs_sublist l1 l2 :
  l1 `sublist_of` l2 -> ForallOrdPairs R l2 -> ForallOrdPairs R l1.
Proof.
  induction 1 as [|x l1 l2 Hsub IH|x l1 l2 Hsub IH]; intros Hp.
  - constructor.
  - inversion Hp; subst. constructor; [|auto].
    eapply Forall_sublist; eassumption.
  - inversion Hp; subst. auto.
Qed.

Lemma ForallOrdPairs_perm `{!Symmetric R} l1 l2 :
  l1 ≡ₚ l2 -> ForallOrdPairs R l1 -> ForallOrdPairs R l2.
Proof.
  induction 1 as [|x l1 l2 Hperm IH|x y l|l1 l2 l3 _ IH1 _ IH2]; intros Hp.
  - constructor.
  - inversion Hp; subst. constructor; [|auto].
    rewrite <- Hperm. assumption.
  - inversion Hp as [|? ? Hy Hp']; subst.
    inversion Hp' as [|? ? Hx Hp'']; subst.
    inversion Hy; subst.
    constructor; [constructor; [symmetry|]; assumption|].
    constructor; assumption.
  - auto.
Qed.
End Pairs.

Lemma AncestorOf_relPath n n' q :
  relPath n = relPath n' -> AncestorOf n q = AncestorOf n' q.
Proof. unfold AncestorOf, Path. intros ->. reflexivity. Qed.

Lemma Forall_unrelated_ext a a' l l' :
  relPath a = relPath a' ->
  Forall2 (fun x y => relPath x = relPath y) l l' ->
  Forall (unrelated a) l -> Forall (unrelated a') l'.
Proof.
  intros Ha. induction 1 as [|x y l l' Hxy _ IH]; intros Hall.
  - constructor.
  - inversion Hall as [|? ? [H1 H2] Hall']; subst. constructor; [|auto].
    unfold unrelated, Path in *.
    rewrite <- Hxy, <- Ha.
    rewrite <- (AncestorOf_relPath a a' _ Ha), <- (AncestorOf_relPath x y _ Hxy).
    split; assumption.
Qed.

Lemma Forall_nodeLe_ext a a' l l' :
  relPath a = relPath a' ->
  Forall2 (fun x y => relPath x = relPath y) l l' ->
  Forall (nodeLe a) l -> Forall (nodeLe a') l'.
Proof.
  intros Ha. induction 1 as [|x y l l' Hxy _ IH]; intros Hall.
  - constructor.
  - inversion Hall; subst. constructor; [|auto].
    unfold nodeLe in *. rewrite <- Hxy, <- Ha. assumption.
Qed.

(** Whether a list of nodes is a layer of siblings depends on the paths
    of the nodes only. *)
Lemma layerOk_ext l l' :
  Forall2 (fun x y => relPath x = relPath y) l l' -> layerOk l -> layerOk l'.
Proof.
  intros H2 [Hpairs Hsorted]. split.
  - clear Hsorted. induction H2 as [|x y l l' Hxy H2 IH]; [constructor|].
    inversion Hpairs; subst. constructor; [|auto].
    eapply Forall_unrelated_ext; eassumption.
  - clear Hpairs. induction H2 as [|x y l l' Hxy H2 IH]; [constructor|].
    inversion Hsorted; subst. constructor; [auto|].
    eapply Forall_nodeLe_ext; eassumption.
Qed.

Lemma sortNodes_perm l : sortNodes l ≡ₚ l.
Proof. apply merge_sort_Permutation. Qed.

Lemma sortNodes_sorted l : StronglySorted nodeLe (sortNodes l).
Proof. apply StronglySorted_merge_sort; apply _. Qed.

Lemma reparent_spec nodes : forall newNode newNode' kept,
  reparent newNode nodes = (newNode', kept) ->
  relPath newNode' = relPath newNode /\
  kept `sublist_of` nodes /\
  Forall (fun k => AncestorOf newNode (Path k) = false) kept /\
  (StronglySorted nodeLe (subModules newNode) ->
   StronglySorted nodeLe (subModules newNode')) /\
  exists moved, moved `sublist_of` nodes /\
                subModules newNode' ≡ₚ subModules newNode ++ moved.
Proof.
  induction nodes as [|n rest IH]; intros newNode newNode' kept Heq; simpl in Heq.
  - inversion Heq; subst. split; [reflexivity|].
    split; [apply sublist_nil|]. split; [constructor|]. split; [auto|].
    exists []. rewrite app_nil_r. split; [apply sublist_nil|reflexivity].
  - destruct (AncestorOf newNode (Path n)) eqn:Hanc; simpl in Heq.
    + apply IH in Heq as (Hrel & Hsub & Hkept & Hsorted & moved & Hmoved & Hperm).
      simpl in *. repeat split.
      * assumption.
      * apply sublist_cons. assumption.
      * eapply Forall_impl; [exact Hkept|]. simpl. intros k Hk.
        rewrite <- Hk. apply AncestorOf_relPath. reflexivity.
      * intros _. apply Hsorted, sortNodes_sorted.
      * exists (n :: moved). split; [apply sublist_skip; assumption|].
        rewrite Hperm, sortNodes_perm, <- app_assoc. reflexivity.
    + destruct (reparent newNode rest) as [nn k] eqn:Hrest.
      inversion Heq; subst.
      apply IH in Hrest as (Hrel & Hsub & Hkept & Hsorted & moved & Hmoved & Hperm).
      repeat split; auto.
      * apply sublist_skip. assumption.
      * exists moved. split; [apply sublist_cons; assumption|assumption].
Qed.

Section Inserting.
Variables (modulePath moduleRelPath : string) (attrs : list string).

Lemma insertHere_ok nodes newNode nodes' :
  insertHere modulePath moduleRelPath attrs nodes = (newNode, nodes') ->
  layerOk nodes -> Forall nodeOk nodes ->
  Forall (fun m => AncestorOf m moduleRelPath = false) nodes ->
  layerOk nodes' /\ Forall nodeOk nodes'.
Proof.
  unfold insertHere. intros Heq [Hpairs _] Hok Hnone.
  destruct (reparent _ nodes) as [nn kept] eqn:Hrep.
  inversion Heq; subst. clear Heq.
  apply reparent_spec in Hrep
    as (Hrel & Hsub & Hkept & Hsorted & moved & Hmoved & Hperm).
  simpl in *.
  assert (nodeOk newNode) as HnewOk.
  { constructor.
    - split.
      + eapply ForallOrdPairs_perm; [apply _|symmetry; exact Hperm|].
        eapply ForallOrdPairs_sublist; eassumption.
      + apply Hsorted. constructor.
    - rewrite Hperm. eapply Forall_sublist; eassumption. }
  split.
  - split; [|apply sortNodes_sorted].
    eapply ForallOrdPairs_perm; [apply _|symmetry; apply sortNodes_perm|].
    eapply ForallOrdPairs_perm;
      [apply _|apply (Permutation_cons_append kept newNode)|].
    constructor.
    + apply Forall_forall. intros k Hk. split.
      * rewrite Forall_forall in Hkept.
        rewrite <- (Hkept k Hk). apply AncestorOf_relPath. assumption.
      * rewrite Forall_forall in Hnone. unfold Path. rewrite Hrel.
        apply Hnone. eapply elem_of_sublist; eassumption.
    + eapply ForallOrdPairs_sublist; eassumption.
  - rewrite sortNodes_perm. apply Forall_app. split.
    + eapply Forall_sublist; eassumption.
    + constructor; [assumption|constructor].
Qed.

Lemma descend_spec below nodes :
  Forall (keeps below) nodes -> Forall nodeOk nodes ->
  match descend moduleRelPath below nodes with
  | Some (_, nodes') =>
      Forall2 (fun x y => relPath x = relPath y) nodes nodes' /\ Forall nodeOk nodes'
  | None => Forall (fun m => AncestorOf m moduleRelPath = false) nodes
  end.
Proof.
  induction nodes as [|m rest IH]; intros Hkeeps Hok; simpl.
  - constructor.
  - inversion Hkeeps as [|? ? [Hrel Hm] Hkeeps']; subst.
    inversion Hok as [|? ? Hmok Hrestok]; subst.
    destruct (AncestorOf m moduleRelPath) eqn:Hanc.
    + destruct (below m) as [nn m'] eqn:Hbelow. simpl in *. split.
      * constructor; [symmetry; assumption|].
        apply Forall_Forall2_diag, Forall_forall. reflexivity.
      * constructor; auto.
    + specialize (IH Hkeeps' Hrestok).
      destruct (descend moduleRelPath below rest) as [[nn rest']|].
      * destruct IH as [Hsame Hall]. split; constructor; auto.
      * constructor; assumption.
Qed.

Lemma insertLayer_ok below nodes :
  Forall (keeps below) nodes -> layerOk nodes -> Forall nodeOk nodes ->
  layerOk (snd (insertLayer modulePath moduleRelPath attrs below nodes)) /\
  Forall nodeOk (snd (insertLayer modulePath moduleRelPath attrs below nodes)).
Proof.
  intros Hkeeps Hlayer Hok. unfold insertLayer.
  pose proof (descend_spec below nodes Hkeeps Hok) as Hd.
  destruct (descend moduleRelPath below nodes) as [[nn nodes']|].
  - destruct Hd as [H2 Hall]. simpl. split; [|assumption].
    eapply layerOk_ext; eassumption.
  - destruct (insertHere modulePath moduleRelPath attrs nodes) as [nn nodes'] eqn:Hhere.
    simpl. eapply insertHere_ok; eassumption.
Qed.

Lemma insertBelow_keeps m : keeps (insertBelow modulePath moduleRelPath attrs) m.
Proof.
  induction m as [a r subs at' IH] using ModuleTreeNode_nested_ind.
  unfold keeps. simpl.
  destruct (insertLayer modulePath moduleRelPath attrs
              (insertBelow modulePath moduleRelPath attrs) subs)
    as [nn subs'] eqn:Hlayer.
  simpl. split; [reflexivity|].
  intros Hm. inversion Hm as [? Hl Hall]; subst. simpl in *.
  pose proof (insertLayer_ok _ subs IH Hl Hall) as Hres.
  rewrite Hlayer in Hres. simpl in Hres. destruct Hres.
  constructor; assumption.
Qed.

Lemma insertNodes_ok nodes :
  layerOk nodes -> Forall nodeOk nodes ->
  layerOk (snd (insertNodes modulePath moduleRelPath attrs nodes)) /\
  Forall nodeOk (snd (insertNodes modulePath moduleRelPath attrs nodes)).
Proof.
  intros. apply insertLayer_ok; try assumption.
  apply Forall_forall. intros m _. apply insertBelow_keeps.
Qed.
End Inserting.

Lemma Insert_invariant t modulePath attrs newNode t' :
  Insert t modulePath attrs = Ok (newNode, t') ->
  TreeInvariant t -> TreeInvariant t'.
Proof.
  unfold Insert, TreeInvariant. intros Heq [Hl Hall].
  destruct (if negb _ then _ else _) as [rel|]; [|discriminate].
  destruct (Get t rel); [discriminate|].
  pose proof (insertNodes_ok modulePath rel attrs _ Hl Hall) as Hres.
  destruct (insertNodes modulePath rel attrs (treeSubModules t)) as [nn subs'].
  inversion Heq; subst. exact Hres.
Qed.

Lemma Reachable_invariant t : Reachable t -> TreeInvariant t.
Proof.
  induction 1 as [o|t t' p attrs nn _ IH Hins].
  - split; [split|]; constructor.
  - eapply Insert_invariant; eassumption.
Qed.

End GomodInsert.

Module PathFacts.
Import GoStrings Gomod.

Lemma append_nil_l s : EmptyString +:+ s = s.
Proof. reflexivity. Qed.

Lemma append_cons c s t : String c s +:+ t = String c (s +:+ t).
Proof. reflexivity. Qed.

Lemma append_nil_r s : s +:+ EmptyString = s.
Proof.
  induction s as [|c s IH]; [reflexivity|]. rewrite append_cons, IH. reflexivity.
Qed.

Lemma append_assoc s1 s2 s3 : (s1 +:+ s2) +:+ s3 = s1 +:+ (s2 +:+ s3).
Proof.
  induction s1 as [|c s1 IH]; [reflexivity|]. rewrite !append_cons, IH. reflexivity.
Qed.

Lemma length_append s1 s2 :
  String.length (s1 +:+ s2) = String.length s1 + String.length s2.
Proof.
  induction s1 as [|c s1 IH]; [reflexivity|]. rewrite append_cons. simpl.
  rewrite IH. reflexivity.
Qed.

Lemma HasPrefix_iff s pre : HasPrefix s pre = true <-> exists t, s = pre +:+ t.
Proof.
  unfold HasPrefix. revert s. induction pre as [|c pre IH]; intros s.
  - destruct s; simpl; split; eauto.
  - destruct s as [|c' s]; simpl.
    + split; [discriminate|]. intros [t Ht]. rewrite append_cons in Ht. discriminate.
    + destruct (ascii_dec c c') as [-> | Hne].
      * rewrite IH. split; intros [t Ht]; exists t; rewrite append_cons in *; congruence.
      * split; [discriminate|]. intros [t Ht]. rewrite append_cons in Ht. congruence.
Qed.

(** Of two fronts of one string the shorter is a front of the longer. *)
Lemma append_split a : forall b x y,
  a +:+ x = b +:+ y -> String.length a <= String.length b ->
  exists t, b = a +:+ t /\ x = t +:+ y.
Proof.
  induction a as [|c a IH]; intros b x y Heq Hlen.
  - exists b. auto.
  - destruct b as [|c' b]; simpl in Hlen; [lia|].
    rewrite !append_cons in Heq. inversion Heq; subst c'.
    destruct (IH b x y) as (t & -> & ->); [assumption|lia|].
    exists t. auto.
Qed.

Lemma AncestorOf_ancestorPath n q : AncestorOf n q = ancestorPath (Path n) q.
Proof. reflexivity. Qed.

Lemma ancestorPath_cases p q :
  ancestorPath p q = true <->
  p = "." \/ p = q \/ exists t, q = p +:+ "/" +:+ t.
Proof.
  unfold ancestorPath.
  destruct (String.eqb_spec p ".") as [-> | Hdot]; simpl; [tauto|].
  destruct (String.eqb_spec p q) as [-> | Hne]; simpl; [tauto|].
  rewrite HasPrefix_iff. split.
  - intros [t Ht]. right. right. exists t. rewrite Ht, append_assoc. reflexivity.
  - intros [? | [? | [t Ht]]]; try contradiction. exists t.
    rewrite Ht, append_assoc. reflexivity.
Qed.

Lemma ancestorPath_refl p : ancestorPath p p = true.
Proof. apply ancestorPath_cases. auto. Qed.

Lemma dot_not_nested p t : "." <> p +:+ "/" +:+ t.
Proof.
  destruct p as [|c p]; [discriminate|].
  rewrite append_cons. intros Heq. inversion Heq as [[Hc Hp]].
  destruct p; discriminate.
Qed.

Lemma nested_not_self p t : p <> p +:+ "/" +:+ t.
Proof.
  intros Heq. apply (f_equal String.length) in Heq.
  rewrite !length_append in Heq. simpl in Heq. lia.
Qed.

Lemma ancestorPath_trans p q r :
  ancestorPath p q = true -> ancestorPath q r = true -> ancestorPath p r = true.
Proof.
  rewrite !ancestorPath_cases.
  intros [-> | [-> | [t ->]]]; [auto|auto|].
  intros [Hdot | [<- | [u ->]]].
  - exfalso. symmetry in Hdot. eapply dot_not_nested, Hdot.
  - right. right. eauto.
  - right. right. exists (t +:+ "/" +:+ u).
    rewrite !append_assoc. reflexivity.
Qed.

Lemma ancestorPath_antisym p q :
  ancestorPath p q = true -> ancestorPath q p = true -> p = q.
Proof.
  rewrite !ancestorPath_cases.
  intros [-> | [-> | [t ->]]]; [|reflexivity|].
  - intros [-> | [-> | [t Ht]]]; [reflexivity|reflexivity|].
    exfalso. eapply dot_not_nested, Ht.
  - intros [Hdot | [Heq | [u Hu]]].
    + exfalso. symmetry in Hdot. eapply dot_not_nested, Hdot.
    + symmetry. assumption.
    + exfalso. apply (f_equal String.length) in Hu.
      rewrite !length_append in Hu. simpl in Hu. lia.
Qed.

(** Two ancestors of one path: one is an ancestor of the other. *)
Lemma ancestorPath_chain p q r :
  ancestorPath p r = true -> ancestorPath q r = true ->
  ancestorPath p q = true \/ ancestorPath q p = true.
Proof.
  intros Hp Hq.
  destruct (ancestorPath_cases p r) as [Hp' _]. specialize (Hp' Hp).
  destruct (ancestorPath_cases q r) as [Hq' _]. specialize (Hq' Hq).
  destruct Hp' as [-> | [-> | [t Ht]]];
    [left; apply ancestorPath_cases; auto | right; assumption |].
  destruct Hq' as [-> | [-> | [u Hu]]];
    [right; apply ancestorPath_cases; auto | left; assumption |].
  assert (forall a b x y, a +:+ "/" +:+ x = b +:+ "/" +:+ y ->
            String.length a <= String.length b -> ancestorPath a b = true)
    as Hshort.
  { intros a b x y Heq Hlen.
    destruct (append_split a b _ _ Heq Hlen) as (s & -> & Hs).
    apply ancestorPath_cases. destruct s as [|c s].
    - right. left. symmetry. apply append_nil_r.
    - rewrite !append_cons in Hs. inversion Hs; subst. right. right. eauto. }
  destruct (le_ge_dec (String.length p) (String.length q)).
  - left. eapply Hshort; [|eassumption]. rewrite <- Ht, <- Hu. reflexivity.
  - right. eapply Hshort; [|eassumption]. rewrite <- Ht, <- Hu. reflexivity.
Qed.
End PathFacts.

Module GomodGet.
Import GoStrings Gomod GomodFacts GomodInsert PathFacts.

(** The inner loop of the search stops at the first ancestor of the
    path in the layer. *)
Lemma searchLayer_first path deepest nodes :
  match searchLayer path deepest nodes with
  | Some found =>
      exists l1 m l2, nodes = l1 ++ m :: l2 /\
        Forall (fun k => AncestorOf k path = false) l1 /\
        AncestorOf m path = true /\ found = deepest m
  | None => Forall (fun k => AncestorOf k path = false) nodes
  end.
Proof.
  induction nodes as [|m rest IH]; simpl; [constructor|].
  destruct (AncestorOf m path) eqn:Hanc.
  - exists [], m, rest. repeat split; auto.
  - destruct (searchLayer path deepest rest) as [found|].
    + destruct IH as (l1 & m1 & l2 & -> & Hl1 & Hm1 & ->).
      exists (m :: l1), m1, l2. repeat split; auto.
    + constructor; assumption.
Qed.

Lemma searchLayer_at path deepest l1 m l2 :
  Forall (fun k => AncestorOf k path = false) l1 ->
  AncestorOf m path = true ->
  searchLayer path deepest (l1 ++ m :: l2) = Some (deepest m).
Proof.
  induction 1 as [|k l1 Hk _ IH]; intros Hm; simpl.
  - rewrite Hm. reflexivity.
  - rewrite Hk. auto.
Qed.

Lemma searchLayer_none path deepest nodes :
  Forall (fun k => AncestorOf k path = false) nodes ->
  searchLayer path deepest nodes = None.
Proof.
  induction 1 as [|k l Hk _ IH]; simpl; [reflexivity|]. rewrite Hk. exact IH.
Qed.

Lemma searchFrom_unfold path m :
  searchFrom path m =
  match searchLayer path (searchFrom path) (subModules m) with
  | Some found => found
  | None => m
  end.
Proof. destruct m; reflexivity. Qed.

Lemma elem_of_depthFirst x nodes :
  x ∈ depthFirst nodes <-> exists m, m ∈ nodes /\ x ∈ preorder m.
Proof.
  unfold depthFirst. rewrite list_elem_of_In, in_flat_map.
  split; intros (m & Hm & Hx); exists m; rewrite ?list_elem_of_In in *; auto.
Qed.

Lemma elem_of_preorder x m :
  x ∈ preorder m <-> x = m \/ x ∈ depthFirst (subModules m).
Proof. rewrite preorder_unfold, elem_of_cons. reflexivity. Qed.

(** What the search returns is a node of the tree below the node the
    search is in. *)
Lemma searchFrom_preorder path m : searchFrom path m ∈ preorder m.
Proof.
  induction m as [a r subs at' IH] using ModuleTreeNode_nested_ind.
  rewrite searchFrom_unfold. cbn [subModules].
  pose proof (searchLayer_first path (searchFrom path) subs) as Hs.
  destruct (searchLayer path (searchFrom path) subs) as [found|].
  - destruct Hs as (l1 & m1 & l2 & -> & _ & _ & ->).
    apply elem_of_preorder. right. apply elem_of_depthFirst.
    exists m1. split; [set_solver|].
    rewrite Forall_forall in IH. apply IH. set_solver.
  - apply elem_of_preorder. left. reflexivity.
Qed.

Lemma searchModuleTreeNodes_depthFirst path nodes found :
  searchModuleTreeNodes path nodes = Some found -> found ∈ depthFirst nodes.
Proof.
  unfold searchModuleTreeNodes. intros Heq.
  pose proof (searchLayer_first path (searchFrom path) nodes) as Hs.
  rewrite Heq in Hs. destruct Hs as (l1 & m1 & l2 & -> & _ & _ & ->).
  apply elem_of_depthFirst. exists m1. split; [set_solver|].
  apply searchFrom_preorder.
Qed.

(** [Get] returns a node of the tree that has the path asked for. *)
Lemma Get_sound t path node :
  Get t path = Some node -> node ∈ List t /\ Path node = path.
Proof.
  unfold Get. intros Heq.
  destruct (searchModuleTreeNodes path (treeSubModules t)) as [found|] eqn:Hs;
    [|discriminate].
  destruct (String.eqb_spec (Path found) path) as [Hp | Hp]; [|discriminate].
  inversion Heq; subst. split; [|reflexivity].
  rewrite List_depthFirst. eapply searchModuleTreeNodes_depthFirst, Hs.
Qed.

(** Every node below a node of a nested tree has the node as an
    ancestor. *)
Lemma preorder_AncestorOf m :
  nodeNested m -> forall x, x ∈ preorder m -> AncestorOf m (Path x) = true.
Proof.
  induction m as [a r subs at' IH] using ModuleTreeNode_nested_ind.
  intros Hnested x Hx. inversion Hnested as [? Hbelow Hsubs]; subst.
  cbn [subModules] in *.
  apply elem_of_preorder in Hx as [-> | Hx].
  - rewrite AncestorOf_ancestorPath. apply ancestorPath_refl.
  - apply elem_of_depthFirst in Hx as (c & Hc & Hx).
    rewrite Forall_forall in IH, Hbelow, Hsubs.
    rewrite AncestorOf_ancestorPath.
    eapply ancestorPath_trans.
    + rewrite <- AncestorOf_ancestorPath. apply (Hbelow c Hc).
    + rewrite <- AncestorOf_ancestorPath. apply IH; auto.
Qed.

Lemma unrelated_chain a b path :
  unrelated a b -> AncestorOf a path = true -> AncestorOf b path = true -> False.
Proof.
  intros [Hab Hba] Ha Hb. rewrite !AncestorOf_ancestorPath in *.
  destruct (ancestorPath_chain _ _ _ Ha Hb); congruence.
Qed.

(** In a layer of siblings the node a path lies below is the one the
    search steps into. *)
Lemma searchLayer_sibling path deepest nodes m :
  ForallOrdPairs unrelated nodes -> m ∈ nodes -> AncestorOf m path = true ->
  searchLayer path deepest nodes = Some (deepest m).
Proof.
  induction 1 as [|k rest Hk Hrest IH]; intros Hm Hanc; [set_solver|].
  simpl. apply elem_of_cons in Hm as [<- | Hm].
  - rewrite Hanc. reflexivity.
  - destruct (AncestorOf k path) eqn:Hkp; [|auto].
    exfalso. rewrite Forall_forall in Hk.
    eapply unrelated_chain; [apply (Hk m Hm)|eassumption|eassumption].
Qed.

(** The search for the path of a node of the tree ends at the node. *)
Lemma searchFrom_complete m :
  nodeOk m -> nodeNested m ->
  forall x, x ∈ preorder m -> searchFrom (Path x) m = x.
Proof.
  induction m as [a r subs at' IH] using ModuleTreeNode_nested_ind.
  intros Hok Hnested x Hx.
  inversion Hok as [? [Hpairs _] Hoks]; subst.
  inversion Hnested as [? Hbelow Hsubs]; subst.
  cbn [subModules] in *.
  rewrite Forall_forall in IH, Hbelow, Hsubs, Hoks.
  rewrite searchFrom_unfold. cbn [subModules].
  apply elem_of_preorder in Hx as [-> | Hx].
  - rewrite searchLayer_none; [reflexivity|].
    apply Forall_forall. intros c Hc.
    destruct (Hbelow c Hc) as [Hanc Hne].
    destruct (AncestorOf c (Path (Node a r subs at'))) eqn:Hback; [|reflexivity].
    exfalso. apply Hne. symmetry.
    rewrite !AncestorOf_ancestorPath in *.
    apply ancestorPath_antisym; assumption.
  - cbn [subModules] in Hx.
    apply elem_of_depthFirst in Hx as (c & Hc & Hx).
    rewrite (searchLayer_sibling _ _ subs c); auto.
    apply preorder_AncestorOf; auto.
Qed.

Lemma searchModuleTreeNodes_complete nodes x :
  layerOk nodes -> Forall nodeOk nodes -> Forall nodeNested nodes ->
  x ∈ depthFirst nodes -> searchModuleTreeNodes (Path x) nodes = Some x.
Proof.
  intros [Hpairs _] Hoks Hnested Hx.
  rewrite Forall_forall in Hoks, Hnested.
  apply elem_of_depthFirst in Hx as (m & Hm & Hx).
  unfold searchModuleTreeNodes.
  rewrite (searchLayer_sibling _ _ nodes m); auto.
  - rewrite searchFrom_complete; auto.
  - apply preorder_AncestorOf; auto.
Qed.


Lemma depthFirst_app l1 l2 : depthFirst (l1 ++ l2) = depthFirst l1 ++ depthFirst l2.
Proof. apply flat_map_app. Qed.

Lemma depthFirst_preorder m l : depthFirst (m :: l) = preorder m ++ depthFirst l.
Proof. reflexivity. Qed.

Lemma depthFirst_perm l1 l2 : l1 ≡ₚ l2 -> depthFirst l1 ≡ₚ depthFirst l2.
Proof.
  unfold depthFirst.
  induction 1 as [|x l1 l2 _ IH|x y l|l1 l2 l3 _ IH1 _ IH2]; simpl.
  - reflexivity.
  - rewrite IH. reflexivity.
  - rewrite !app_assoc. f_equiv. apply Permutation_app_comm.
  - etransitivity; eassumption.
Qed.

Lemma nodeNested_inv m :
  nodeNested m ->
  Forall (strictlyBelow m) (subModules m) /\ Forall nodeNested (subModules m).
Proof. destruct 1; auto. Qed.

Lemma strictlyBelow_ext n n' c c' :
  relPath n = relPath n' -> relPath c = relPath c' ->
  strictlyBelow n c -> strictlyBelow n' c'.
Proof.
  unfold strictlyBelow, Path. intros Hn Hc [Hanc Hne].
  rewrite <- Hc, <- Hn, <- (AncestorOf_relPath n n' _ Hn). auto.
Qed.

(** The loop that moves nodes below the new node splits the layer in
    the nodes below the new node and the others, and leaves the rest of
    the new node as it is. *)
Lemma reparent_split nodes : forall newNode newNode' kept,
  reparent newNode nodes = (newNode', kept) ->
  absPath newNode' = absPath newNode /\
  relPath newNode' = relPath newNode /\
  attributes newNode' = attributes newNode /\
  exists moved,
    subModules newNode' ≡ₚ subModules newNode ++ moved /\
    nodes ≡ₚ kept ++ moved /\
    Forall (fun c => AncestorOf newNode (Path c) = true) moved.
Proof.
  induction nodes as [|n rest IH]; intros newNode newNode' kept Heq; simpl in Heq.
  - inversion Heq; subst. repeat split. exists [].
    rewrite app_nil_r. repeat split; first [reflexivity | constructor].
  - destruct (AncestorOf newNode (Path n)) eqn:Hanc; simpl in Heq.
    + apply IH in Heq as (Habs & Hrel & Hattrs & moved & Hsubs & Hperm & Hmoved).
      simpl in *. repeat split; try assumption.
      exists (n :: moved). repeat split.
      * rewrite Hsubs, sortNodes_perm, <- app_assoc. reflexivity.
      * rewrite Hperm. apply Permutation_middle.
      * constructor; [assumption|].
        eapply Forall_impl; [exact Hmoved|]. simpl. intros c Hc.
        rewrite <- Hc. apply AncestorOf_relPath. reflexivity.
    + destruct (reparent newNode rest) as [nn k] eqn:Hrest.
      inversion Heq; subst.
      apply IH in Hrest as (Habs & Hrel & Hattrs & moved & Hsubs & Hperm & Hmoved).
      repeat split; try assumption.
      exists moved. repeat split; try assumption.
      rewrite Hperm. reflexivity.
Qed.

Section Inserting.
Variables (modulePath moduleRelPath : string) (attrs : list string).

Lemma insertHere_split nodes newNode nodes' :
  insertHere modulePath moduleRelPath attrs nodes = (newNode, nodes') ->
  absPath newNode = modulePath /\ relPath newNode = moduleRelPath /\
  attributes newNode = attrs /\
  exists kept,
    nodes' ≡ₚ kept ++ [newNode] /\
    nodes ≡ₚ kept ++ subModules newNode /\
    Forall (fun c => AncestorOf newNode (Path c) = true) (subModules newNode).
Proof.
  unfold insertHere. intros Heq.
  destruct (reparent _ nodes) as [nn kept] eqn:Hrep.
  inversion Heq; subst. clear Heq.
  apply reparent_split in Hrep
    as (Habs & Hrel & Hattrs & moved & Hsubs & Hperm & Hmoved).
  simpl in *. repeat split; try assumption.
  exists kept. repeat split.
  - apply sortNodes_perm.
  - rewrite Hsubs. assumption.
  - rewrite Hsubs. eapply Forall_impl; [exact Hmoved|]. simpl. intros c Hc.
    rewrite <- Hc. apply AncestorOf_relPath. assumption.
Qed.

(** The walk of [Insert] takes the step of the search. *)
Lemma descend_first below nodes :
  match descend moduleRelPath below nodes with
  | Some (newNode, nodes') =>
      exists l1 m l2, nodes = l1 ++ m :: l2 /\
        Forall (fun k => AncestorOf k moduleRelPath = false) l1 /\
        AncestorOf m moduleRelPath = true /\
        newNode = fst (below m) /\ nodes' = l1 ++ snd (below m) :: l2
  | None => Forall (fun k => AncestorOf k moduleRelPath = false) nodes
  end.
Proof.
  induction nodes as [|m rest IH]; simpl; [constructor|].
  destruct (AncestorOf m moduleRelPath) eqn:Hanc.
  - destruct (below m) as [nn m'] eqn:Hbelow.
    exists [], m, rest. rewrite Hbelow. repeat split; auto.
  - destruct (descend moduleRelPath below rest) as [[nn rest']|].
    + destruct IH as (l1 & m1 & l2 & -> & Hl1 & Hm1 & -> & ->).
      exists (m :: l1), m1, l2. repeat split; auto.
    + constructor; assumption.
Qed.

Lemma insertLayer_inserts nodes :
  Forall (insertsBelow modulePath moduleRelPath attrs) nodes ->
  insertsInto modulePath moduleRelPath attrs nodes.
Proof.
  intros IH. unfold insertsInto, insertLayer, searchModuleTreeNodes.
  pose proof (descend_first (insertBelow modulePath moduleRelPath attrs) nodes)
    as Hd.
  destruct (descend moduleRelPath _ nodes) as [[nn nodes']|].
  - destruct Hd as (l1 & m & l2 & -> & Hl1 & Hm & -> & ->).
    rewrite (searchLayer_at _ _ l1 m l2 Hl1 Hm).
    apply Forall_app in IH as [_ IH].
    apply List.Forall_cons_iff in IH as [IHm _].
    unfold insertsBelow in IHm.
    destruct (insertBelow modulePath moduleRelPath attrs m) as [nn m'].
    destruct IHm as (Hrel & Hnest & Hpaths & Hin & Habs & Hnrel & Hattrs).
    cbn [fst snd]. repeat split; try assumption.
    + intros Hall Hfound.
      apply Forall_app in Hall as [Hall1 Hall2].
      apply List.Forall_cons_iff in Hall2 as [Hm1 Hall2].
      apply Forall_app. split; [assumption|]. constructor; auto.
    + intros c' Hc'. left.
      apply elem_of_app in Hc' as [Hc' | Hc'].
      * exists c'. split; [set_solver|reflexivity].
      * apply elem_of_cons in Hc' as [-> | Hc'].
        -- exists m. split; [set_solver|assumption].
        -- exists c'. split; [set_solver|reflexivity].
    + rewrite !depthFirst_app, !depthFirst_preorder, !map_app, Hpaths.
      simpl. rewrite <- Permutation_middle. reflexivity.
    + apply elem_of_depthFirst. exists m'. split; [set_solver|assumption].
  - rewrite (searchLayer_none _ _ nodes Hd).
    destruct (insertHere modulePath moduleRelPath attrs nodes)
      as [nn nodes'] eqn:Hhere.
    apply insertHere_split in Hhere
      as (Habs & Hrel & Hattrs & kept & Hnodes' & Hnodes & Hmoved).
    repeat split; try assumption.
    + intros Hall _. rewrite Hnodes in Hall.
      apply Forall_app in Hall as [Hkept Hsubs].
      rewrite Hnodes'. apply Forall_app. split; [assumption|].
      constructor; [|constructor]. constructor; [|assumption].
      apply Forall_forall. intros c Hc. split.
      * rewrite Forall_forall in Hmoved. auto.
      * intros Heq. rewrite Forall_forall in Hd.
        assert (c ∈ nodes) as Hcn by (rewrite Hnodes; set_solver).
        specialize (Hd c Hcn). rewrite AncestorOf_ancestorPath in Hd.
        unfold Path in Heq. rewrite Hrel in Heq. unfold Path in Hd.
        rewrite Heq, ancestorPath_refl in Hd. discriminate.
    + intros c' Hc'. rewrite Hnodes' in Hc'.
      apply elem_of_app in Hc' as [Hc' | Hc'].
      * left. exists c'. split; [rewrite Hnodes; set_solver|reflexivity].
      * right. apply list_elem_of_singleton in Hc'. auto.
    + rewrite (depthFirst_perm _ _ Hnodes'), (depthFirst_perm _ _ Hnodes).
      rewrite !depthFirst_app, depthFirst_preorder. simpl.
      rewrite app_nil_r, preorder_unfold, !map_app. simpl.
      rewrite <- Permutation_middle. change (Path nn) with (relPath nn).
      rewrite Hrel. reflexivity.
    + apply elem_of_depthFirst. exists nn. split.
      * rewrite Hnodes'. set_solver.
      * apply elem_of_preorder. auto.
Qed.

Lemma insertBelow_inserts m : insertsBelow modulePath moduleRelPath attrs m.
Proof.
  induction m as [a r subs at' IH] using ModuleTreeNode_nested_ind.
  apply insertLayer_inserts in IH.
  unfold insertsBelow, insertsInto in *. simpl.
  destruct (insertLayer modulePath moduleRelPath attrs
              (insertBelow modulePath moduleRelPath attrs) subs)
    as [nn subs'] eqn:Hlayer.
  destruct IH as (Hnest & Hfrom & Hpaths & Hin & Habs & Hrel & Hattrs).
  split; [reflexivity|]. split; [|repeat split; try assumption].
  - intros Hm Hanc Hfound.
    apply nodeNested_inv in Hm as [Hbelow Hsubs]. cbn [subModules] in *.
    fold (searchModuleTreeNodes moduleRelPath subs) in Hfound.
    constructor; cbn [subModules].
    + apply Forall_forall. intros c' Hc'.
      destruct (Hfrom c' Hc') as [(c & Hc & Hpath) | [-> Hnone]].
      * rewrite Forall_forall in Hbelow.
        eapply strictlyBelow_ext; [reflexivity| |apply (Hbelow c Hc)].
        symmetry. exact Hpath.
      * rewrite Hnone in Hfound. split.
        -- unfold Path. rewrite Hrel. exact Hanc.
        -- unfold Path in *. rewrite Hrel. simpl in *. congruence.
    + apply Hnest; [assumption|].
      destruct (searchModuleTreeNodes moduleRelPath subs); auto.
  - rewrite preorder_unfold. cbn [subModules map].
    fold (depthFirst subs). rewrite Hpaths. apply perm_swap.
  - rewrite preorder_unfold. apply elem_of_cons. auto.
Qed.

Lemma insertNodes_inserts nodes :
  insertsInto modulePath moduleRelPath attrs nodes.
Proof.
  apply insertLayer_inserts, Forall_forall. intros m _.
  apply insertBelow_inserts.
Qed.
End Inserting.

Lemma Insert_unfold t modulePath attrs :
  Insert t modulePath attrs =
  match moduleRelPathOf t modulePath with
  | Err e => Err e
  | Ok moduleRelPath =>
      match Get t moduleRelPath with
      | Some _ => Err ModuleAlreadyExists
      | None =>
          let (newNode, subs') :=
            insertNodes modulePath moduleRelPath attrs (treeSubModules t) in
          Ok (newNode, {| options := options t; treeSubModules := subs' |})
      end
  end.
Proof. reflexivity. Qed.

Lemma Get_None_search t path :
  Get t path = None ->
  match searchModuleTreeNodes path (treeSubModules t) with
  | Some found => Path found <> path
  | None => True
  end.
Proof.
  unfold Get. destruct (searchModuleTreeNodes path (treeSubModules t)) as [found|];
    [|trivial].
  destruct (String.eqb_spec (Path found) path); [discriminate|auto].
Qed.

(** In a tree built by [Insert] every node lies strictly below its
    parent. *)
Lemma Reachable_nested t : Reachable t -> Forall nodeNested (treeSubModules t).
Proof.
  induction 1 as [o|t t' p attrs nn _ IH Hins]; [constructor|].
  rewrite Insert_unfold in Hins.
  destruct (moduleRelPathOf t p) as [rel|]; [|discriminate].
  destruct (Get t rel) eqn:Hget; [discriminate|].
  pose proof (insertNodes_inserts p rel attrs (treeSubModules t)) as Hi.
  unfold insertsInto, insertNodes in *.
  destruct (insertLayer p rel attrs (insertBelow p rel attrs) (treeSubModules t))
    as [nn' subs'].
  inversion Hins; subst. simpl.
  destruct Hi as (Hnest & _). apply Hnest; [assumption|].
  apply Get_None_search. assumption.
Qed.

Lemma NodeListPaths_fold nodes acc :
  fold_left (fun lst n => (lst ++ [Path n]) ++ NodeListPaths n) nodes acc
  = acc ++ map Path (depthFirst nodes).
Proof.
  revert acc. induction nodes as [|n nodes IH]; intros acc; cbn [fold_left].
  - simpl. rewrite app_nil_r. reflexivity.
  - rewrite IH. unfold NodeListPaths. rewrite NodeList_depthFirst.
    rewrite depthFirst_preorder, preorder_unfold, !map_app. simpl.
    rewrite <- !app_assoc. reflexivity.
Qed.

Lemma ListPaths_List t : ListPaths t = map Path (List t).
Proof.
  unfold ListPaths. rewrite NodeListPaths_fold, List_depthFirst. reflexivity.
Qed.

(** [Get] finds every node of a tree built by [Insert]. *)
Theorem Get_complete t x :
  Reachable t -> x ∈ List t -> Get t (Path x) = Some x.
Proof.
  intros Hreach Hx. rewrite List_depthFirst in Hx.
  destruct (Reachable_invariant t Hreach) as [Hlayer Hok].
  unfold Get.
  rewrite (searchModuleTreeNodes_complete _ x Hlayer Hok
             (Reachable_nested t Hreach) Hx).
  rewrite String.eqb_refl. reflexivity.
Qed.

(** [Get] finds a node exactly for the paths [ListPaths] lists. *)
Theorem Get_is_Some t path :
  Reachable t -> (is_Some (Get t path) <-> path ∈ ListPaths t).
Proof.
  intros Hreach. rewrite ListPaths_List, list_elem_of_fmap. split.
  - intros [node Hget]. apply Get_sound in Hget as [Hin Hpath]. eauto.
  - intros (x & -> & Hx). rewrite (Get_complete t x Hreach Hx). eauto.
Qed.

(** What [Insert] returns on a tree built by [Insert]: the error of
    [filepath.Rel] when there is a root path and [Rel] fails; the
    error that the module exists exactly when the relative path is one
    of the paths of the tree; else the new node, which holds the path,
    the relative path and the attributes, is the node [Get] finds at
    the relative path in the new tree, and is the one path the tree
    gains. *)
Theorem Insert_spec t modulePath attrs :
  Reachable t ->
  match Insert t modulePath attrs with
  | Err NotNestedWithinRoot =>
      RootPath (options t) <> EmptyString /\
      exists e, Filepath.Rel (RootPath (options t)) modulePath = Err e
  | Err ModuleAlreadyExists =>
      exists moduleRelPath,
        moduleRelPathOf t modulePath = Ok moduleRelPath /\
        moduleRelPath ∈ ListPaths t
  | Ok (newNode, t') =>
      exists moduleRelPath,
        moduleRelPathOf t modulePath = Ok moduleRelPath /\
        (moduleRelPath ∉ ListPaths t) /\
        AbsPath newNode = modulePath /\ Path newNode = moduleRelPath /\
        attributes newNode = attrs /\
        options t' = options t /\
        Get t' moduleRelPath = Some newNode /\
        ListPaths t' ≡ₚ moduleRelPath :: ListPaths t
  end.
Proof.
  intros Hreach.
  destruct (Insert t modulePath attrs) as [[nn t']|e] eqn:Hins.
  - assert (Reachable t') as Hreach' by (econstructor; eassumption).
    rewrite Insert_unfold in Hins.
    destruct (moduleRelPathOf t modulePath) as [rel|]; [|discriminate].
    destruct (Get t rel) eqn:Hget; [discriminate|].
    pose proof (insertNodes_inserts modulePath rel attrs (treeSubModules t)) as Hi.
    unfold insertsInto, insertNodes in *.
    destruct (insertLayer modulePath rel attrs (insertBelow modulePath rel attrs)
                (treeSubModules t)) as [nn' subs'].
    inversion Hins; subst nn' t'. clear Hins.
    destruct Hi as (_ & _ & Hpaths & Hin & Habs & Hrel & Hattrs).
    exists rel. split; [reflexivity|]. split.
    { intros Hmem. apply (Get_is_Some t rel Hreach) in Hmem as [? Hsome].
      congruence. }
    split; [assumption|]. split; [assumption|]. split; [assumption|].
    split; [reflexivity|]. split.
    + rewrite <- Hrel. apply (Get_complete _ nn Hreach').
      rewrite List_depthFirst. assumption.
    + rewrite !ListPaths_List, !List_depthFirst. assumption.
  - rewrite Insert_unfold in Hins. unfold moduleRelPathOf in *.
    destruct (String.eqb_spec (RootPath (options t)) EmptyString) as [Hroot | Hroot];
      simpl in *.
    + destruct (Get t modulePath) eqn:Hget.
      * inversion Hins; subst. exists modulePath. split; [reflexivity|].
        apply (Get_is_Some t modulePath Hreach). eauto.
      * destruct (insertNodes _ _ _ _); discriminate.
    + destruct (Filepath.Rel (RootPath (options t)) modulePath) as [rel|e'] eqn:Hrel.
      * destruct (Get t rel) eqn:Hget.
        -- inversion Hins; subst. exists rel. split; [reflexivity|].
           apply (Get_is_Some t rel Hreach). eauto.
        -- destruct (insertNodes _ _ _ _); discriminate.
      * inversion Hins; subst. split; [assumption|eauto].
Qed.

(** A second [Insert] of a path returns the error that the module
    exists. *)
Corollary Insert_twice t modulePath attrs attrs' newNode t' :
  Reachable t -> Insert t modulePath attrs = Ok (newNode, t') ->
  Insert t' modulePath attrs' = Err ModuleAlreadyExists.
Proof.
  intros Hreach Hins. pose proof (Insert_spec t modulePath attrs Hreach) as Hs.
  rewrite Hins in Hs.
  destruct Hs as (rel & Hrel & _ & _ & _ & _ & Hopts & Hget & _).
  rewrite Insert_unfold.
  assert (moduleRelPathOf t' modulePath = Ok rel) as ->.
  { unfold moduleRelPathOf in *. rewrite Hopts. assumption. }
  rewrite Hget. reflexivity.
Qed.
End GomodGet.

Module GomodClaims.
Import GoStrings Gomod GomodFacts GomodInsert Examples.

Lemma InsertAll_Reachable paths : forall t t',
  Reachable t -> InsertAll t paths = Ok t' -> Reachable t'.
Proof.
  induction paths as [|p paths IH]; intros t t' Hreach Heq; simpl in Heq.
  - inversion Heq; subst. assumption.
  - destruct (Insert t p []) as [[nn t1]|] eqn:Hins; [|discriminate].
    eapply IH; [|eassumption]. eapply Reachable_insert; eassumption.
Qed.

(** Sorting hides the order of what is sorted. *)
Lemma SortStrings_Permutation l1 l2 : l1 ≡ₚ l2 -> SortStrings l1 = SortStrings l2.
Proof.
  intros Hperm. unfold SortStrings.
  apply (StronglySorted_unique String.le).
  - apply StronglySorted_merge_sort; apply _.
  - apply StronglySorted_merge_sort; apply _.
  - rewrite !merge_sort_Permutation. assumption.
Qed.

Lemma collectRelevant_flat_map dirs :
  collectRelevant dirs = flat_map relevantFilesOf dirs.
Proof.
  unfold collectRelevant.
  enough (forall acc,
            fold_left (fun relevantFiles d =>
                         if negb (relevant (snd d)) then relevantFiles
                         else relevantFiles ++ filepaths (snd d)) dirs acc
            = acc ++ flat_map relevantFilesOf dirs) as Hacc by apply Hacc.
  induction dirs as [|d dirs IH]; intros acc; simpl.
  - rewrite app_nil_r. reflexivity.
  - rewrite IH. unfold relevantFilesOf at 2.
    destruct (negb (relevant (snd d))); simpl; [reflexivity|].
    rewrite <- app_assoc. reflexivity.
Qed.

(** The result of [FilterModuleFiles] is the same for every order in
    which its second loop visits the directories. *)
Lemma collectRelevant_order dirs dirs' :
  dirs ≡ₚ dirs' ->
  SortStrings (collectRelevant dirs) = SortStrings (collectRelevant dirs').
Proof.
  intros Hperm. apply SortStrings_Permutation.
  rewrite !collectRelevant_flat_map.
  induction Hperm as [|d l l' _ IH|d d' l|l1 l2 l3 _ IH1 _ IH2]; simpl.
  - reflexivity.
  - rewrite IH. reflexivity.
  - rewrite !app_assoc. apply Permutation_app_tail, Permutation_app_comm.
  - etransitivity; eassumption.
Qed.

(** C3, as stated, fails: with "sub1" as the only registered sub-module of
    ".", the file of "sub2" belongs to "." as well, so the result is not
    the two files the claim gives. *)
Lemma filter_rootWithSub1_not_two_files :
  fst (FilterModuleFiles rootWithSub1 changedFiles) <> ["foo.go"; "sub3/foo.go"].
Proof. vm_compute. discriminate. Qed.

(** C3, amended: for the module "." with the single sub-module "sub1" and
    the four changed files, [FilterModuleFiles] returns "foo.go",
    "sub2/bar.go" and "sub3/foo.go"; it returns "foo.go" and "sub3/foo.go"
    when "sub1" and "sub2" are both registered; and without sub-modules it
    returns all four files in ascending order. *)
Theorem filter_root_module :
  FilterModuleFiles rootWithSub1 changedFiles
  = (["foo.go"; "sub2/bar.go"; "sub3/foo.go"], None) /\
  FilterModuleFiles rootWithSub1Sub2 changedFiles
  = (["foo.go"; "sub3/foo.go"], None) /\
  FilterModuleFiles rootAlone changedFiles
  = (["foo.go"; "sub1/baz.go"; "sub2/bar.go"; "sub3/foo.go"], None).
Proof. repeat split; vm_compute; reflexivity. Qed.

(** C10: for every module tree node and every list of files,
    [FilterModuleFiles] returns a nil error, and [IsModuleChanged] returns
    a nil error together with whether the filtered list is non-empty. *)
Theorem filter_never_fails module files :
  snd (FilterModuleFiles module files) = None /\
  IsModuleChanged module files
  = (negb (Nat.eqb (length (fst (FilterModuleFiles module files))) 0), None).
Proof. split; reflexivity. Qed.

(** C4: inserting the five paths "a/f/g", "a", "a/b", "c", "e/f/g" into
    an empty tree in any order succeeds and gives the same tree: the
    top-level siblings "a", "c" and "e/f/g", with "a/b" and "a/f/g" the
    children of "a". *)
Theorem insertion_order_independence paths :
  paths ≡ₚ fivePaths ->
  InsertAll (NewModuleTree {| RootPath := EmptyString |}) paths = Ok fivePathsTree.
Proof.
  intros Hperm. symmetry in Hperm. apply permutations_Permutation in Hperm.
  revert paths Hperm. apply Forall_forall.
  let ps := eval vm_compute in (permutations fivePaths) in
  change (permutations fivePaths) with ps.
  repeat (apply List.Forall_cons; [vm_compute; reflexivity|]).
  apply List.Forall_nil.
Qed.

Lemma insertion_order_independence_witness :
  ["e/f/g"; "a/b"; "c"; "a/f/g"; "a"] ≡ₚ fivePaths /\
  InsertAll (NewModuleTree {| RootPath := EmptyString |}) ["e/f/g"; "a/b"; "c"; "a/f/g"; "a"]
  = Ok fivePathsTree.
Proof.
  assert (["e/f/g"; "a/b"; "c"; "a/f/g"; "a"] ≡ₚ fivePaths) as Hperm.
  { apply permutations_Permutation. vm_compute. 
    repeat first [apply list_elem_of_here | apply list_elem_of_further]. }
  split; [exact Hperm|]. apply (insertion_order_independence _ Hperm).
Defined.

(** C5, the code at the failing input: with the root "/foo/bar", [Insert]
    of "/foo/baz", which is not nested under the root, returns no error
    but a node with the relative path "../baz". *)
Theorem Insert_outside_root_succeeds :
  Insert (NewModuleTree {| RootPath := "/foo/bar" |}) "/foo/baz" []
  = Ok (Node "/foo/baz" "../baz" [] [],
        {| options := {| RootPath := "/foo/bar" |};
           treeSubModules := [Node "/foo/baz" "../baz" [] []] |}).
Proof. vm_compute. reflexivity. Qed.

(** C7: in a tree built by successful calls of [Insert], at every layer
    no sibling is a path-ancestor of another sibling and the siblings are
    in ascending order of their relative paths; [List] returns the nodes
    in depth-first order, each layer in the order of its list, and so does
    the loop over [Iterator], which leaves the iterator empty. *)
Theorem tree_invariant t :
  Reachable t ->
  TreeInvariant t /\
  List t = depthFirst (treeSubModules t) /\
  drain (nodesSize (treeSubModules t)) (Iterator t) []
  = (depthFirst (treeSubModules t), {| stack := [] |}).
Proof.
  intros Hreach. split; [apply Reachable_invariant; assumption|].
  split; [apply List_depthFirst|apply IteratorNodes_depthFirst].
Qed.

Lemma tree_invariant_witness :
  Reachable nestedTree /\
  (TreeInvariant nestedTree /\
   List nestedTree = depthFirst (treeSubModules nestedTree) /\
   drain (nodesSize (treeSubModules nestedTree)) (Iterator nestedTree) []
   = (depthFirst (treeSubModules nestedTree), {| stack := [] |})).
Proof.
  assert (Reachable nestedTree) as Hreach.
  { apply (InsertAll_Reachable
             ["."; "service/s3/internal/configtest"; "service/s3"]
             (NewModuleTree {| RootPath := EmptyString |}));
      [apply Reachable_new|vm_compute; reflexivity]. }
  split; [exact Hreach|exact (tree_invariant nestedTree Hreach)].
Defined.

End GomodClaims.

Module GraphFacts.
Import Repotools Release.

Lemma elem_of_rangeMap {V} (order : list string) (m : gmap string V) k v :
  (k, v) ∈ rangeMap order m <-> k ∈ order /\ m !! k = Some v.
Proof.
  unfold rangeMap. rewrite list_elem_of_omap. split.
  - intros (x & Hx & Heq). destruct (m !! x) eqn:Hm; inversion Heq; subst. auto.
  - intros [Hk Hm]. exists k. rewrite Hm. auto.
Qed.

Lemma dependentsOf_is_Some g k :
  nonEmptyLists g -> (is_Some (g !! k) <-> dependentsOf g k <> []).
Proof.
  unfold dependentsOf. intros Hne. split.
  - intros [ds Hds]. rewrite Hds. simpl. eauto.
  - destruct (g !! k); [eauto|]. simpl. congruence.
Qed.

Section AddRequires.
Variables (modules : gmap string Module) (d : string).

Lemma addRequires_spec reqs : forall g,
  nonEmptyLists g ->
  nonEmptyLists (addRequires modules d reqs g) /\
  forall r x, x ∈ dependentsOf (addRequires modules d reqs g) r <->
              x ∈ dependentsOf g r \/
              (x = d /\ r ∈ reqs /\ is_Some (modules !! r)).
Proof.
  induction reqs as [|q reqs IH]; intros g Hne; simpl.
  - split; [assumption|]. intros r x. split; [auto|].
    intros [? | (_ & Hr & _)]; [assumption|]. inversion Hr.
  - destruct (modules !! q) as [mq|] eqn:Hq.
    + destruct (IH (<[q:=default [] (g !! q) ++ [d]]> g)) as [Hne' Hmem].
      { intros k ds. rewrite lookup_insert. case_decide.
        - intros [= <-]. destruct (default [] (g !! q)); discriminate.
        - apply Hne. }
      split; [assumption|]. intros r x. rewrite Hmem. unfold dependentsOf.
      assert (is_Some (modules !! q)) as Hsome by eauto.
      rewrite lookup_insert. case_decide; subst; simpl.
      * rewrite elem_of_app, list_elem_of_singleton, elem_of_cons.
        intuition (subst; auto).
      * rewrite elem_of_cons. intuition (subst; auto; congruence).
    + destruct (IH g Hne) as [Hne' Hmem]. split; [assumption|].
      intros r x. rewrite Hmem, elem_of_cons.
      assert (~ is_Some (modules !! q)) as Hnone
        by (rewrite Hq; intros [? ?]; discriminate).
      intuition (subst; auto; contradiction).
Qed.
End AddRequires.

Lemma buildInverse_fold modules entries : forall g,
  nonEmptyLists g ->
  let g' := fold_left
              (fun g kv => addRequires modules (fst kv) (Require (File (snd kv))) g)
              entries g in
  nonEmptyLists g' /\
  forall r x, x ∈ dependentsOf g' r <->
              x ∈ dependentsOf g r \/
              exists m, (x, m) ∈ entries /\ r ∈ Require (File m) /\ is_Some (modules !! r).
Proof.
  induction entries as [|[k mk] entries IH]; intros g Hne; simpl.
  - split; [assumption|]. intros r x. split; [auto|].
    intros [? | (m & Hm & _)]; [assumption|]. inversion Hm.
  - destruct (addRequires_spec modules k (Require (File mk)) g Hne) as [Hne1 Hmem1].
    destruct (IH _ Hne1) as [Hne2 Hmem2]. split; [assumption|].
    intros r x. rewrite Hmem2, Hmem1. split.
    + intros [[? | (-> & Hr & Hs)] | (m & Hm & Hr & Hs)]; [auto| |].
      * right. exists mk. split; [left|]; auto.
      * right. exists m. split; [right|]; auto.
    + intros [? | (m & Hm & Hr & Hs)]; [auto|].
      apply elem_of_cons in Hm as [[= -> ->] | Hm]; [auto|].
      right. exists m. auto.
Qed.

(** The inverse dependency graph: [x] is a dependent of [r] exactly when
    the loop visits [x], [x] requires [r] and [r] is a module of the
    map. *)
Lemma buildInverseDependencyGraph_spec order modules :
  nonEmptyLists (buildInverseDependencyGraph order modules) /\
  forall r x,
    x ∈ dependentsOf (buildInverseDependencyGraph order modules) r <->
    exists m, x ∈ order /\ modules !! x = Some m /\
              r ∈ Require (File m) /\ is_Some (modules !! r).
Proof.
  unfold buildInverseDependencyGraph.
  destruct (buildInverse_fold modules (rangeMap order modules) ∅) as [Hne Hmem].
  { intros k ds. rewrite lookup_empty. discriminate. }
  split; [assumption|]. intros r x. rewrite Hmem. split.
  - intros [Hx|(m & Hm & Hr & Hs)].
    + unfold dependentsOf in Hx. rewrite lookup_empty in Hx. inversion Hx.
    + apply elem_of_rangeMap in Hm as [? ?]. eauto 10.
  - intros (m & Hx & Hm & Hr & Hs). right. exists m.
    rewrite elem_of_rangeMap. auto.
Qed.
End GraphFacts.

Module Propagation.
Import Repotools Release GraphFacts.

Lemma DependencyUpdate_nonzero : DependencyUpdate <> 0%N.
Proof. vm_compute. discriminate. Qed.

Lemma land_lor_same c d : N.land (N.lor c d) d = d.
Proof.
  apply N.bits_inj. intros i. rewrite N.land_spec, N.lor_spec.
  destruct (N.testbit c i), (N.testbit d i); reflexivity.
Qed.

Lemma land_lor_keeps c d : N.land c (N.lor c d) = c.
Proof.
  apply N.bits_inj. intros i. rewrite N.land_spec, N.lor_spec.
  destruct (N.testbit c i), (N.testbit d i); reflexivity.
Qed.

Lemma setChanges_same m : setChanges m (Changes m) = m.
Proof. destruct m; reflexivity. Qed.

Lemma marked_refl m : marked m m.
Proof. left. reflexivity. Qed.

Lemma marked_fields m m' :
  marked m m' ->
  File m' = File m /\ ModuleConfig m' = ModuleConfig m /\
  N.land (Changes m) (Changes m') = Changes m.
Proof.
  intros [-> | ->]; simpl.
  - rewrite N.land_diag. auto.
  - rewrite land_lor_keeps. auto.
Qed.

Lemma marked_unflagged m m' :
  marked m m' -> N.land (Changes m') DependencyUpdate = 0%N -> m' = m.
Proof.
  intros [-> | ->]; [reflexivity|]. simpl. rewrite land_lor_same.
  intros Hz. destruct (DependencyUpdate_nonzero Hz).
Qed.

Lemma marked_nonzero m m' : marked m m' -> Changes m <> 0%N -> Changes m' <> 0%N.
Proof.
  intros Hm Hc Hz. apply marked_fields in Hm as (_ & _ & Hland).
  rewrite Hz, N.land_0_r in Hland. congruence.
Qed.

Lemma evolves_refl ms : evolves ms ms.
Proof.
  intros k. destruct (ms !! k); constructor. apply marked_refl.
Qed.

Lemma evolves_lookup ms ms' k m :
  evolves ms ms' -> ms !! k = Some m -> exists m', ms' !! k = Some m' /\ marked m m'.
Proof.
  intros Hev Hk. specialize (Hev k). rewrite Hk in Hev.
  inversion Hev; subst. eauto.
Qed.

Lemma evolves_lookup_inv ms ms' k m' :
  evolves ms ms' -> ms' !! k = Some m' -> exists m, ms !! k = Some m /\ marked m m'.
Proof.
  intros Hev Hk. specialize (Hev k). rewrite Hk in Hev.
  inversion Hev; subst. eauto.
Qed.

Lemma evolves_mark ms0 ms d md :
  evolves ms0 ms -> ms !! d = Some md ->
  N.land (Changes md) DependencyUpdate = 0%N ->
  evolves ms0 (<[d := setChanges md (N.lor (Changes md) DependencyUpdate)]> ms).
Proof.
  intros Hev Hd Hun k. rewrite lookup_insert. case_decide; [subst k|apply Hev].
  destruct (evolves_lookup_inv _ _ _ _ Hev Hd) as (m0 & Hm0 & Hmark).
  rewrite Hm0. constructor.
  rewrite (marked_unflagged _ _ Hmark Hun). right. reflexivity.
Qed.

Lemma flagged_mark ms d md k :
  ms !! d = Some md -> flagged ms k ->
  flagged (<[d := setChanges md (N.lor (Changes md) DependencyUpdate)]> ms) k.
Proof.
  intros Hd (m & Hk & Hflag). unfold flagged. rewrite lookup_insert.
  case_decide; [subst k|eauto].
  eexists. split; [reflexivity|]. simpl. rewrite land_lor_same.
  apply DependencyUpdate_nonzero.
Qed.

Lemma flagged_mark_self ms d md :
  flagged (<[d := setChanges md (N.lor (Changes md) DependencyUpdate)]> ms) d.
Proof.
  unfold flagged. rewrite lookup_insert_eq. eexists. split; [reflexivity|].
  simpl. rewrite land_lor_same. apply DependencyUpdate_nonzero.
Qed.

Lemma unflagged_size_mark (ms : gmap string Module) d md :
  ms !! d = Some md -> N.land (Changes md) DependencyUpdate = 0%N ->
  S (size (filter unflagged
             (<[d := setChanges md (N.lor (Changes md) DependencyUpdate)]> ms)))
  = size (filter unflagged ms).
Proof.
  intros Hd Hun. rewrite map_filter_insert_False.
  - rewrite map_filter_delete, map_size_delete.
    assert (filter unflagged ms !! d = Some md) as ->
      by (apply map_lookup_filter_Some; split; assumption).
    assert (size (filter unflagged ms) <> 0).
    { apply map_size_ne_0_lookup. exists d. exists md.
      apply map_lookup_filter_Some. split; assumption. }
    lia.
  - unfold unflagged. simpl. rewrite land_lor_same. apply DependencyUpdate_nonzero.
Qed.

Lemma AppendIfNotPresent_elem slice value x :
  x ∈ AppendIfNotPresent slice value <-> x ∈ slice \/ x = value.
Proof.
  unfold AppendIfNotPresent. destruct (existsb _ slice) eqn:Hex.
  - apply existsb_exists in Hex as (y & Hy & Heq).
    apply String.eqb_eq in Heq. subst y. apply list_elem_of_In in Hy.
    split; [auto|]. intros [? | ->]; assumption.
  - rewrite elem_of_app, list_elem_of_singleton. reflexivity.
Qed.

Lemma AppendIfNotPresent_length slice value :
  length (AppendIfNotPresent slice value) <= S (length slice).
Proof.
  unfold AppendIfNotPresent. destruct (existsb _ slice); [lia|].
  rewrite length_app. simpl. lia.
Qed.

Section Loop.
Variables (g : gmap string (list string)) (modules0 : gmap string Module).
Hypothesis g_edges :
  forall r d, d ∈ dependentsOf g r ->
              exists m, modules0 !! d = Some m /\ r ∈ Require (File m) /\
                        is_Some (modules0 !! r).
Hypothesis g_nonEmpty : nonEmptyLists g.

Local Abbreviation closed := (Release.closed g).
Local Abbreviation Inv := (Release.Inv g modules0).

Lemma g_keys k : is_Some (g !! k) -> is_Some (modules0 !! k).
Proof.
  intros Hk. apply (dependentsOf_is_Some _ _ g_nonEmpty) in Hk.
  destruct (dependentsOf g k) as [|d ds] eqn:Hdeps; [congruence|].
  destruct (g_edges k d) as (m & _ & _ & Hs); [|assumption].
  rewrite Hdeps. left.
Qed.

Lemma g_dependents r d : d ∈ dependentsOf g r -> is_Some (modules0 !! d).
Proof. intros Hd. destruct (g_edges r d Hd) as (m & Hm & _). eauto. Qed.

Lemma dependent_dependsOn current d :
  d ∈ dependentsOf g current ->
  changedAtStart modules0 current \/ dependsOnChange modules0 current ->
  dependsOnChange modules0 d.
Proof.
  intros Hd Hcur. destruct (g_edges current d Hd) as (m & Hm & Hreq & Hs).
  assert (dependsOn modules0 d current) as Hdep
    by (eapply dependsOn_direct; eassumption).
  destruct Hcur as [Hc | (a & Ha & Hdep')].
  - exists current. auto.
  - exists a. split; [assumption|]. eapply dependsOn_trans; eassumption.
Qed.

Lemma Inv_changed skip st k m :
  Inv skip st -> mods st !! k = Some m -> Changes m <> 0%N ->
  changedAtStart modules0 k \/ dependsOnChange modules0 k.
Proof.
  intros (Hev & _ & _ & Hprov) Hk Hc.
  destruct (evolves_lookup_inv _ _ _ _ Hev Hk) as (m0 & Hm0 & [-> | ->]).
  - left. exists m0. auto.
  - destruct (N.eq_dec (Changes m0) 0%N) as [Hz | Hnz].
    + destruct (Hprov k) as [(m1 & Hm1 & Hf) | ?]; [| |auto].
      * exists (setChanges m0 (N.lor (Changes m0) DependencyUpdate)).
        split; [assumption|]. simpl. rewrite land_lor_same.
        apply DependencyUpdate_nonzero.
      * rewrite Hm0 in Hm1. inversion Hm1; subst m1.
        rewrite Hz in Hf. exfalso. apply Hf. reflexivity.
    + left. exists m0. auto.
Qed.

Lemma markDependent_spec current st d :
  Inv (Some current) st -> d ∈ dependentsOf g current ->
  changedAtStart modules0 current \/ dependsOnChange modules0 current ->
  exists st',
    markDependent g (Ok st) d = Ok st' /\
    Inv (Some current) st' /\
    flagged (mods st') d /\
    workLeft st' <= workLeft st /\
    (forall k, flagged (mods st) k -> flagged (mods st') k).
Proof.
  intros (Hev & Hvisit & Hclosed & Hprov) Hd Hcur.
  destruct (g_dependents _ _ Hd) as [m0 Hm0].
  destruct (evolves_lookup _ _ _ _ Hev Hm0) as (md & Hmd & Hmark).
  unfold markDependent. rewrite Hmd.
  destruct (N.land (Changes md) DependencyUpdate =? 0)%N eqn:Hflag; simpl.
  - apply N.eqb_eq in Hflag.
    set (ms' := <[d := setChanges md (N.lor (Changes md) DependencyUpdate)]> (mods st)).
    set (tv' := match g !! d with
                | Some _ => AppendIfNotPresent (toVisit st) d
                | None => toVisit st
                end).
    exists {| toVisit := tv'; mods := ms' |}.
    assert (forall k, k ∈ toVisit st -> k ∈ tv') as Htv.
    { intros k Hk. unfold tv'. destruct (g !! d); [|assumption].
      apply AppendIfNotPresent_elem. auto. }
    split; [unfold tv', ms'; destruct (g !! d); reflexivity|].
    split; [|split; [|split]].
    + split; [|split; [|split]]; simpl.
      * apply evolves_mark; assumption.
      * intros k. unfold tv'. destruct (g !! d) eqn:Hgd; [|apply Hvisit].
        rewrite AppendIfNotPresent_elem. intros [? | ->]; [auto|eauto].
      * intros k m ds Hskip Hk Hc Hg. simpl in *. unfold ms' in Hk.
        rewrite lookup_insert in Hk. case_decide.
        -- subst k. left. unfold tv'. rewrite Hg.
           apply AppendIfNotPresent_elem. auto.
        -- destruct (Hclosed k m ds Hskip Hk Hc Hg) as [? | [Hnt Hall]]; [auto|].
           right. split; [assumption|]. intros x Hx.
           apply flagged_mark; auto.
      * intros k Hk. unfold ms' in Hk. destruct (decide (k = d)) as [-> | Hne].
        -- right. eapply dependent_dependsOn; eassumption.
        -- apply Hprov. destruct Hk as (m & Hm & Hf).
           rewrite lookup_insert_ne in Hm by congruence. exists m. auto.
    + apply flagged_mark_self.
    + unfold workLeft. simpl.
      pose proof (unflagged_size_mark (mods st) d md Hmd Hflag) as Hsize.
      fold ms' in Hsize.
      assert (length tv' <= S (length (toVisit st))).
      { unfold tv'. destruct (g !! d); [apply AppendIfNotPresent_length|lia]. }
      lia.
    + intros k. apply flagged_mark. assumption.
  - apply N.eqb_neq in Hflag. exists st.
    split; [reflexivity|]. split; [repeat split; assumption|].
    split; [exists md; auto|]. split; [lia|auto].
Qed.

Lemma markDependents_spec current ds : forall st,
  Inv (Some current) st -> (forall d, d ∈ ds -> d ∈ dependentsOf g current) ->
  changedAtStart modules0 current \/ dependsOnChange modules0 current ->
  exists st',
    fold_left (markDependent g) ds (Ok st) = Ok st' /\
    Inv (Some current) st' /\
    (forall d, d ∈ ds -> flagged (mods st') d) /\
    workLeft st' <= workLeft st /\
    (forall k, flagged (mods st) k -> flagged (mods st') k).
Proof.
  induction ds as [|d ds IH]; intros st Hinv Hds Hcur; cbn [fold_left].
  - exists st. split; [reflexivity|]. split; [assumption|].
    split; [intros d Hd; inversion Hd|]. split; [lia|auto].
  - destruct (markDependent_spec current st d Hinv) as (st1 & Heq & Hinv1 & Hd1 & Hw1 & Hm1).
    { apply Hds. left. }
    { assumption. }
    rewrite Heq.
    destruct (IH st1 Hinv1) as (st2 & Heq2 & Hinv2 & Hall2 & Hw2 & Hm2).
    { intros x Hx. apply Hds. right. assumption. }
    { assumption. }
    exists st2. split; [assumption|]. split; [assumption|].
    split; [|split; [lia|auto]].
    intros x Hx. apply elem_of_cons in Hx as [-> | Hx]; auto.
Qed.

(** One round of the loop: an untagged module with a change and with
    dependents is the only error; otherwise the invariant holds again
    and there is no more work left than before. *)
Lemma visit_spec current rest ms :
  Inv None {| toVisit := current :: rest; mods := ms |} ->
  match visit g current {| toVisit := rest; mods := ms |} with
  | Err e =>
      exists m, ms !! current = Some m /\ Changes m <> 0%N /\
                NoTag (ModuleConfig m) = true /\
                dependentsOf g current <> [] /\
                e = UntaggedModuleHasDependents current
                      (length (dependentsOf g current))
  | Ok st' =>
      Inv None st' /\ workLeft st' <= workLeft {| toVisit := rest; mods := ms |}
  end.
Proof.
  intros Hinv. pose proof Hinv as (Hev & Hvisit & Hclosed & Hprov). simpl in *.
  destruct (Hvisit current) as [ds Hds]; [left|].
  destruct (g_keys current) as [m0 Hm0]; [eauto|].
  destruct (evolves_lookup _ _ _ _ Hev Hm0) as (m & Hm & Hmark).
  assert (forall skip, closed skip {| toVisit := current :: rest; mods := ms |} ->
                       closed (Some current) {| toVisit := rest; mods := ms |})
    as Hskip.
  { intros skip Hc k mk dk Hne Hk Hch Hg. simpl in *.
    destruct (Hclosed k mk dk) as [Hin | ?]; try assumption; [discriminate| |auto].
    apply elem_of_cons in Hin as [-> | ?]; [congruence|auto]. }
  assert (dependentsOf g current = ds) as Hdeps
    by (unfold dependentsOf; rewrite Hds; reflexivity).
  rewrite Hdeps.
  assert (ds <> []) as Hds_ne by (eapply g_nonEmpty; eassumption).
  unfold visit. cbn [mods]. rewrite Hm, Hds. cbn [default from_option id].
  destruct (Changes m =? 0)%N eqn:Hzero.
  - apply N.eqb_eq in Hzero. split; [|lia].
    split; [assumption|]. split; [intros k Hk; apply Hvisit; right; assumption|].
    split; [|assumption].
    intros k mk dk _ Hk Hch Hg. simpl in *.
    destruct (decide (k = current)) as [-> | Hne].
    + rewrite Hm in Hk. inversion Hk; subst. congruence.
    + apply (Hskip None Hclosed); simpl; auto. congruence.
  - apply N.eqb_neq in Hzero.
    destruct (NoTag (ModuleConfig m)) eqn:Hnotag; simpl.
    + destruct ds as [|d ds']; [congruence|]. simpl.
      exists m. repeat split; auto.
    + destruct (markDependents_spec current ds {| toVisit := rest; mods := ms |})
        as (st' & Heq & (Hev' & Hvisit' & Hclosed' & Hprov') & Hall & Hwork & Hmono).
      { split; [assumption|].
        split; [intros k Hk; apply Hvisit; right; assumption|].
        split; [apply (Hskip None Hclosed)|assumption]. }
      { intros d Hd. rewrite Hdeps. assumption. }
      { eapply (Inv_changed None); [exact Hinv|exact Hm|exact Hzero]. }
      rewrite Heq. split; [|assumption].
      split; [assumption|]. split; [assumption|]. split; [|assumption].
      intros k mk dk _ Hk Hch Hg.
      destruct (decide (k = current)) as [-> | Hne].
      * right. rewrite Hds in Hg. inversion Hg; subst dk.
        split; [|assumption].
        destruct (evolves_lookup _ _ _ _ Hev' Hm0) as (mk' & Hmk' & Hmark').
        rewrite Hk in Hmk'. inversion Hmk'; subst mk'.
        apply marked_fields in Hmark as (_ & Hcfg & _).
        apply marked_fields in Hmark' as (_ & Hcfg' & _).
        rewrite Hcfg', <- Hcfg. assumption.
      * apply Hclosed'; auto. congruence.
Qed.

(** The loop ends within the rounds it is given, in an error or with
    nothing left to visit. *)
Lemma visitAll_spec rounds : forall st,
  Inv None st -> workLeft st <= rounds ->
  evolves modules0 (mods (fst (visitAll rounds g st))) /\
  match snd (visitAll rounds g st) with
  | None =>
      toVisit (fst (visitAll rounds g st)) = [] /\
      Inv None (fst (visitAll rounds g st))
  | Some e =>
      exists current m,
        mods (fst (visitAll rounds g st)) !! current = Some m /\
        Changes m <> 0%N /\ NoTag (ModuleConfig m) = true /\
        dependentsOf g current <> [] /\
        e = UntaggedModuleHasDependents current (length (dependentsOf g current))
  end.
Proof.
  induction rounds as [|rounds IH]; intros [tv ms] Hinv Hwork.
  - destruct tv as [|current rest]; simpl.
    + split; [apply Hinv|]. split; [reflexivity|assumption].
    + unfold workLeft in Hwork. simpl in Hwork. lia.
  - destruct tv as [|current rest]; simpl.
    + split; [apply Hinv|]. split; [reflexivity|assumption].
    + pose proof (visit_spec current rest ms Hinv) as Hvisit.
      destruct (visit g current {| toVisit := rest; mods := ms |}) as [st'|e].
      * destruct Hvisit as [Hinv' Hwork']. apply IH; [assumption|].
        unfold workLeft in *. simpl in *. lia.
      * simpl. split; [apply Hinv|].
        destruct Hvisit as (m & ? & ? & ? & ? & ?). exists current, m. auto.
Qed.
End Loop.
End Propagation.

Module PropagationClaims.
Import Repotools Release GraphFacts Propagation GoStrings Examples.

Lemma RangeOrder_map_to_list {V} (m : gmap string V) :
  RangeOrder (map fst (map_to_list m)) m.
Proof.
  split; [apply NoDup_fst_map_to_list|].
  intros k. change (map fst (map_to_list m)) with ((map_to_list m).*1).
  rewrite list_elem_of_fmap. split.
  - intros ([k' v] & -> & Hin). apply elem_of_map_to_list in Hin. eauto.
  - intros [v Hv]. exists (k, v). split; [reflexivity|].
    apply elem_of_map_to_list. assumption.
Qed.

Lemma graph_edges order modules r d :
  d ∈ dependentsOf (buildInverseDependencyGraph order modules) r ->
  exists m, modules !! d = Some m /\ r ∈ Require (File m) /\ is_Some (modules !! r).
Proof.
  destruct (buildInverseDependencyGraph_spec order modules) as [_ Hmem].
  intros Hd. apply Hmem in Hd as (m & _ & Hm & Hreq & Hs). eauto.
Qed.

Lemma graph_edge order modules x mx r :
  RangeOrder order modules ->
  modules !! x = Some mx -> r ∈ Require (File mx) -> is_Some (modules !! r) ->
  exists ds, buildInverseDependencyGraph order modules !! r = Some ds /\ x ∈ ds.
Proof.
  intros [_ Horder] Hx Hr Hs.
  destruct (buildInverseDependencyGraph_spec order modules) as [Hne Hmem].
  assert (x ∈ dependentsOf (buildInverseDependencyGraph order modules) r) as Hin.
  { apply Hmem. exists mx. split; [apply Horder; eauto|]. auto. }
  unfold dependentsOf in Hin.
  destruct (buildInverseDependencyGraph order modules !! r) as [ds|]; [eauto|].
  inversion Hin.
Qed.

Lemma toVisit_keys (g : gmap string (list string)) k :
  k ∈ SortStrings (map fst (map_to_list g)) <-> is_Some (g !! k).
Proof.
  unfold SortStrings. rewrite merge_sort_Permutation.
  change (map fst (map_to_list g)) with ((map_to_list g).*1).
  rewrite list_elem_of_fmap. split.
  - intros ([k' v] & -> & Hin). apply elem_of_map_to_list in Hin. eauto.
  - intros [v Hv]. exists (k, v). split; [reflexivity|].
    apply elem_of_map_to_list. assumption.
Qed.

(** What [CalculateDependencyUpdates] returns: the modules with nothing
    changed but flags set; without an error every module with a change
    and with dependents may be tagged and all its dependents carry the
    flag, and every flag set is the flag of a dependent; the only error
    is that of a module with a change and with dependents that may not be
    tagged. *)
Lemma CalculateDependencyUpdates_spec order modules :
  let g := buildInverseDependencyGraph order modules in
  let modules' := fst (CalculateDependencyUpdates order modules) in
  evolves modules modules' /\
  match snd (CalculateDependencyUpdates order modules) with
  | None =>
      (forall k m ds, modules' !! k = Some m -> Changes m <> 0%N ->
                      g !! k = Some ds ->
                      NoTag (ModuleConfig m) = false /\
                      forall d, d ∈ ds -> flagged modules' d) /\
      (forall k, flagged modules' k ->
                 flagged modules k \/ dependsOnChange modules k)
  | Some e =>
      exists current m,
        modules' !! current = Some m /\ Changes m <> 0%N /\
        NoTag (ModuleConfig m) = true /\ dependentsOf g current <> [] /\
        e = UntaggedModuleHasDependents current (length (dependentsOf g current))
  end.
Proof.
  intros g modules'. subst modules'. unfold CalculateDependencyUpdates. fold g.
  set (tv := SortStrings (map fst (map_to_list g))).
  set (st0 := {| toVisit := tv; mods := modules |}).
  pose proof (visitAll_spec g modules (graph_edges order modules)
                (proj1 (buildInverseDependencyGraph_spec order modules))
                (2 * size modules + length tv) st0) as Hspec.
  destruct (visitAll (2 * size modules + length tv) g st0) as [st err].
  simpl in *. destruct Hspec as [Hev Hend].
  - split; [apply evolves_refl|]. split; [intros k; apply toVisit_keys|].
    split.
    + intros k m ds _ Hk Hc Hg. left. apply toVisit_keys. eauto.
    + intros k Hk. left. assumption.
  - unfold workLeft. simpl.
    pose proof (map_subseteq_size _ _ (map_filter_subseteq unflagged modules)).
    lia.
  - split; [assumption|]. destruct err as [e|].
    + assumption.
    + destruct Hend as [Hnil (_ & _ & Hclosed & Hprov)]. split; [|assumption].
      intros k m ds Hk Hc Hg.
      destruct (Hclosed k m ds) as [Hin | ?]; try assumption; [discriminate|].
      rewrite Hnil in Hin. inversion Hin.
Qed.

(** The rounds [CalculateDependencyUpdates] gives its loop are enough:
    it stops in an error or with an empty work list. *)
Lemma CalculateDependencyUpdates_ends order modules :
  let g := buildInverseDependencyGraph order modules in
  let tv := SortStrings (map fst (map_to_list g)) in
  let res := visitAll (2 * size modules + length tv) g
                      {| toVisit := tv; mods := modules |} in
  snd res <> None \/ toVisit (fst res) = [].
Proof.
  intros g tv res. subst res.
  pose proof (visitAll_spec g modules (graph_edges order modules)
                (proj1 (buildInverseDependencyGraph_spec order modules))
                (2 * size modules + length tv)
                {| toVisit := tv; mods := modules |}) as Hspec.
  destruct Hspec as [_ Hend].
  - split; [apply evolves_refl|]. split; [intros k; apply toVisit_keys|].
    split.
    + intros k m ds _ Hk Hc Hg. left. apply toVisit_keys. eauto.
    + intros k Hk. left. assumption.
  - unfold workLeft. simpl.
    pose proof (map_subseteq_size _ _ (map_filter_subseteq unflagged modules)).
    lia.
  - destruct (snd (visitAll _ g _)); [left; discriminate|right; apply Hend].
Qed.

Lemma flagged_changed ms k :
  flagged ms k -> exists m, ms !! k = Some m /\ Changes m <> 0%N.
Proof.
  intros (m & Hm & Hf). exists m. split; [assumption|].
  intros Hz. rewrite Hz in Hf. apply Hf. reflexivity.
Qed.

(** C6, as stated, fails: when "A" requires "C", so that the requirements
    run in a circle, the propagation ends without error and "A", the only
    module with a change at the start, carries the dependency-updated flag
    next to its source change. *)
Lemma propagation_cycle_flags_source :
  Changes <$> (cycleModules !! "A") = Some SourceChange /\
  Changes <$> (cycleModules !! "B") = Some 0%N /\
  Changes <$> (cycleModules !! "C") = Some 0%N /\
  snd (CalculateDependencyUpdates (orderOf cycleModules) cycleModules) = None /\
  Changes <$> (fst (CalculateDependencyUpdates (orderOf cycleModules) cycleModules)
                 !! "A")
  = Some (N.lor SourceChange DependencyUpdate).
Proof. repeat split; vm_compute; reflexivity. Qed.

(** C6, amended: let the map hold the modules A, B and C, let B require A
    and C require B, let A be the only module with a change
    classification, which is source-changed, and let A not depend on
    itself through requirements among the modules of the map.  Then the
    propagation clears no flag of any module, and when it returns without
    error, B and C carry the dependency-updated flag and the
    classification of A is source-changed and nothing else. *)
Theorem dependency_propagation order modules A B C mA mB mC modules' err :
  RangeOrder order modules ->
  modules !! A = Some mA -> modules !! B = Some mB -> modules !! C = Some mC ->
  A ∈ Require (File mB) -> B ∈ Require (File mC) ->
  Changes mA = SourceChange ->
  (forall k m, modules !! k = Some m -> k <> A -> Changes m = 0%N) ->
  ~ dependsOn modules A A ->
  CalculateDependencyUpdates order modules = (modules', err) ->
  (forall k m, modules !! k = Some m ->
               exists m', modules' !! k = Some m' /\
                          N.land (Changes m) (Changes m') = Changes m) /\
  (err = None ->
   flagged modules' B /\ flagged modules' C /\
   exists mA', modules' !! A = Some mA' /\ Changes mA' = SourceChange).
Proof.
  intros Horder HA HB HC HBA HCB Hsrc Honly Hacyclic Hrun.
  pose proof (CalculateDependencyUpdates_spec order modules) as Hspec.
  rewrite Hrun in Hspec. simpl in Hspec. destruct Hspec as [Hev Hend].
  split.
  - intros k m Hk. destruct (evolves_lookup _ _ _ _ Hev Hk) as (m' & Hm' & Hmark).
    exists m'. split; [assumption|]. apply marked_fields in Hmark. apply Hmark.
  - intros ->. destruct Hend as [Hclosed Hprov].
    destruct (evolves_lookup _ _ _ _ Hev HA) as (mA' & HA' & HmarkA).
    assert (Changes mA <> 0%N) as HAc by (rewrite Hsrc; vm_compute; discriminate).
    destruct (graph_edge order modules B mB A Horder HB HBA) as (dsA & HgA & HBin);
      [eauto|].
    destruct (Hclosed A mA' dsA HA' (marked_nonzero _ _ HmarkA HAc) HgA)
      as [_ HflagA].
    assert (flagged modules' B) as HflagB by auto.
    destruct (flagged_changed _ _ HflagB) as (mB' & HB' & HBc).
    destruct (graph_edge order modules C mC B Horder HC HCB) as (dsB & HgB & HCin);
      [eauto|].
    destruct (Hclosed B mB' dsB HB' HBc HgB) as [_ HflagBdeps].
    split; [assumption|]. split; [auto|].
    exists mA'. split; [assumption|].
    destruct HmarkA as [-> | ->]; [assumption|]. exfalso.
    destruct (Hprov A) as [(m & Hm & Hf) | (a & (ma & Hma & Hac) & Hdep)].
    + exists (setChanges mA (N.lor (Changes mA) DependencyUpdate)).
      split; [assumption|]. simpl. rewrite land_lor_same.
      apply DependencyUpdate_nonzero.
    + rewrite HA in Hm. inversion Hm; subst m. rewrite Hsrc in Hf.
      apply Hf. vm_compute. reflexivity.
    + destruct (decide (a = A)) as [-> | Hne]; [auto|].
      apply Hac. eapply Honly; eassumption.
Qed.

Lemma chainModules_lookup k m :
  chainModules !! k = Some m -> k <> "A" -> Changes m = 0%N.
Proof.
  unfold chainModules, threeModules. intros Hk Hne.
  rewrite lookup_insert_ne in Hk by congruence.
  rewrite lookup_insert in Hk. case_decide; [inversion Hk; reflexivity|].
  rewrite lookup_insert in Hk. case_decide; [inversion Hk; reflexivity|].
  rewrite lookup_empty in Hk. discriminate.
Qed.

Lemma chainModules_acyclic x r : dependsOn chainModules x r -> x <> "A".
Proof.
  induction 1 as [x r m Hx Hr _|x y r _ IH _ _]; [|assumption].
  intros ->. vm_compute in Hx. inversion Hx; subst m. inversion Hr.
Qed.

Lemma dependency_propagation_witness :
  RangeOrder (orderOf chainModules) chainModules /\
  flagged (fst (CalculateDependencyUpdates (orderOf chainModules) chainModules)) "B" /\
  flagged (fst (CalculateDependencyUpdates (orderOf chainModules) chainModules)) "C" /\
  exists mA',
    fst (CalculateDependencyUpdates (orderOf chainModules) chainModules) !! "A"
    = Some mA' /\
    Changes mA' = SourceChange.
Proof.
  pose proof (RangeOrder_map_to_list chainModules) as Horder.
  split; [exact Horder|].
  refine (proj2 (dependency_propagation (orderOf chainModules) chainModules
                   "A" "B" "C"
                   (moduleOf [] SourceChange false)
                   (moduleOf ["A"; "github.com/google/go-cmp"] 0%N false)
                   (moduleOf ["B"] 0%N false)
                   _ _ Horder _ _ _ _ _ _ chainModules_lookup _
                   (surjective_pairing _)) _).
  - vm_compute. reflexivity.
  - vm_compute. reflexivity.
  - vm_compute. reflexivity.
  - simpl. apply list_elem_of_here.
  - simpl. apply list_elem_of_here.
  - reflexivity.
  - intros Hdep. apply (chainModules_acyclic _ _ Hdep). reflexivity.
  - vm_compute. reflexivity.
Defined.

(** C8: a module that has a change classification, is configured no-tag
    and has a dependent among the modules of the map makes
    [CalculateDependencyUpdates] return the error of an untagged module
    with dependents; a round of the loop for a module with a change, with
    no-tag and with dependents returns that error; and a round for a
    no-tag module without change classification or without dependents
    returns no error and leaves the modules and the work list as they
    are. *)
Theorem untagged_module_rule :
  (forall order modules x mx d md,
     RangeOrder order modules ->
     modules !! x = Some mx -> Changes mx <> 0%N ->
     NoTag (ModuleConfig mx) = true ->
     modules !! d = Some md -> x ∈ Require (File md) ->
     exists current n,
       0 < n /\
       snd (CalculateDependencyUpdates order modules)
       = Some (UntaggedModuleHasDependents current n)) /\
  (forall g current st m,
     mods st !! current = Some m -> Changes m <> 0%N ->
     NoTag (ModuleConfig m) = true -> dependentsOf g current <> [] ->
     visit g current st
     = Err (UntaggedModuleHasDependents current (length (dependentsOf g current)))) /\
  (forall g current st m,
     mods st !! current = Some m -> NoTag (ModuleConfig m) = true ->
     Changes m = 0%N \/ dependentsOf g current = [] ->
     visit g current st = Ok st).
Proof.
  split; [|split].
  - intros order modules x mx d md Horder Hx Hc Hnt Hd Hreq.
    pose proof (CalculateDependencyUpdates_spec order modules) as [Hev Hend].
    destruct (snd (CalculateDependencyUpdates order modules)) as [e|].
    + destruct Hend as (current & m & _ & _ & _ & Hne & ->).
      exists current, (length (dependentsOf (buildInverseDependencyGraph order modules)
                                 current)).
      split; [|reflexivity].
      destruct (dependentsOf _ current); [congruence|simpl; lia].
    + exfalso. destruct Hend as [Hclosed _].
      destruct (evolves_lookup _ _ _ _ Hev Hx) as (mx' & Hx' & Hmark).
      destruct (graph_edge order modules d md x Horder Hd Hreq) as (ds & Hg & _);
        [eauto|].
      destruct (Hclosed x mx' ds Hx' (marked_nonzero _ _ Hmark Hc) Hg) as [Hnt' _].
      apply marked_fields in Hmark as (_ & Hcfg & _).
      rewrite Hcfg in Hnt'. congruence.
  - intros g current st m Hm Hc Hnt Hne. unfold visit. rewrite Hm.
    apply N.eqb_neq in Hc. rewrite Hc, Hnt. fold (dependentsOf g current).
    destruct (dependentsOf g current); [congruence|reflexivity].
  - intros g current st m Hm Hnt Hcase. unfold visit. rewrite Hm.
    destruct (Changes m =? 0)%N eqn:Hz; [reflexivity|].
    destruct Hcase as [Hc | Hd].
    + apply N.eqb_neq in Hz. congruence.
    + rewrite Hnt. fold (dependentsOf g current). rewrite Hd. reflexivity.
Qed.
Lemma untagged_module_rule_witness :
  RangeOrder (orderOf untaggedModules) untaggedModules /\
  (exists current n,
     0 < n /\
     snd (CalculateDependencyUpdates (orderOf untaggedModules) untaggedModules)
     = Some (UntaggedModuleHasDependents current n)) /\
  visit {[ "A" := ["B"] ]} "A" {| toVisit := ["B"]; mods := untaggedModules |}
  = Err (UntaggedModuleHasDependents "A"
           (length (dependentsOf {[ "A" := ["B"] ]} "A"))) /\
  visit ∅ "A" {| toVisit := ["B"]; mods := untaggedModules |}
  = Ok {| toVisit := ["B"]; mods := untaggedModules |}.
Proof.
  pose proof (RangeOrder_map_to_list untaggedModules) as Horder.
  split; [exact Horder|]. split; [|split].
  - apply (proj1 untagged_module_rule (orderOf untaggedModules) untaggedModules
             "A" (moduleOf [] SourceChange true)
             "B" (moduleOf ["A"; "github.com/google/go-cmp"] 0%N false) Horder).
    + vm_compute. reflexivity.
    + vm_compute. discriminate.
    + reflexivity.
    + vm_compute. reflexivity.
    + simpl. apply list_elem_of_here.
  - apply (proj1 (proj2 untagged_module_rule) {[ "A" := ["B"] ]} "A"
             {| toVisit := ["B"]; mods := untaggedModules |}
             (moduleOf [] SourceChange true)).
    + vm_compute. reflexivity.
    + vm_compute. discriminate.
    + reflexivity.
    + vm_compute. discriminate.
  - apply (proj2 (proj2 untagged_module_rule) ∅ "A"
             {| toVisit := ["B"]; mods := untaggedModules |}
             (moduleOf [] SourceChange true)).
    + vm_compute. reflexivity.
    + reflexivity.
    + right. vm_compute. reflexivity.
Defined.

End PropagationClaims.

Module VersionClaims.
Import Changelog Repotools Release GoStrings Examples.

(** C1: for a module path without major version suffix, a configuration
    without pre-release track and an empty preview identifier,
    [CalculateNextVersion] returns "v1.0.0-preview" without prior tag and
    annotations, "v1.0.0" without prior tag and with a release annotation,
    "v1.0.1" for the prior tag "v1.0.0" without annotations, "v1.1.0" for
    the prior tag "v1.0.1" with a feature annotation, "v1.1.0-preview.2"
    for the prior tag "v1.1.0-preview.1" with a feature annotation and the
    configured track "preview", "v1.1.0" for the prior tag "v1.1.0-rc.5"
    with a release annotation, and an error for the prior tag "1.1.0". *)
Theorem version_table modulePath prefix noTag metadataPackage id modules :
  GoPackages.SplitPathVersion modulePath = (prefix, EmptyString, true) ->
  let config := configWith noTag EmptyString metadataPackage in
  let preview := configWith noTag "preview" metadataPackage in
  let release := [annotation ReleaseChangeType id modules] in
  let feature := [annotation FeatureChangeType id modules] in
  CalculateNextVersion modulePath EmptyString config [] EmptyString = Ok "v1.0.0-preview" /\
  CalculateNextVersion modulePath EmptyString config release EmptyString = Ok "v1.0.0" /\
  CalculateNextVersion modulePath "v1.0.0" config [] EmptyString = Ok "v1.0.1" /\
  CalculateNextVersion modulePath "v1.0.1" config feature EmptyString = Ok "v1.1.0" /\
  CalculateNextVersion modulePath "v1.1.0-preview.1" preview feature EmptyString
  = Ok "v1.1.0-preview.2" /\
  CalculateNextVersion modulePath "v1.1.0-rc.5" config release EmptyString = Ok "v1.1.0" /\
  CalculateNextVersion modulePath "1.1.0" config [] EmptyString = Err FailedToParseSemver.
Proof.
  intros Hpath config preview release feature.
  unfold CalculateNextVersion.
  cbn [moduleSplitPathVersion GoPackages.packages]. rewrite Hpath.
  repeat split; vm_compute; reflexivity.
Qed.

Lemma version_table_witness :
  GoPackages.SplitPathVersion "github.com/aws/aws-sdk-go-v2/service/existing"
  = ("github.com/aws/aws-sdk-go-v2/service/existing", EmptyString, true) /\
  CalculateNextVersion "github.com/aws/aws-sdk-go-v2/service/existing"
    "v1.1.0-preview.1" (configWith false "preview" EmptyString)
    [annotation FeatureChangeType EmptyString []] EmptyString
  = Ok "v1.1.0-preview.2".
Proof.
  assert (GoPackages.SplitPathVersion "github.com/aws/aws-sdk-go-v2/service/existing"
          = ("github.com/aws/aws-sdk-go-v2/service/existing", EmptyString, true)) as Hpath
    by (vm_compute; reflexivity).
  split; [exact Hpath|].
  apply (version_table _ _ false EmptyString EmptyString [] Hpath).
Defined.

Section AnyPackages.
Context `{Packages}.

(** C2: for every module path, non-empty prior version, configuration,
    list of annotations and preview identifier, whatever the imported
    packages compute: a version [CalculateNextVersion] returns compares
    strictly greater than the prior version, and when the candidate it
    computed does not, it returns an error. *)
Theorem next_version_increases modulePath latest config annotations preReleaseIdentifier :
  latest <> EmptyString ->
  (forall next,
     CalculateNextVersion modulePath latest config annotations preReleaseIdentifier
     = Ok next ->
     (0 < semverCompare next latest)%Z) /\
  (forall prefix pathMajor parsed candidate,
     moduleSplitPathVersion modulePath = (prefix, pathMajor, true) ->
     semverParse (semverCanonical latest) = (parsed, true) ->
     (if 0 <? String.length preReleaseIdentifier
      then calculatePreReleaseVersion parsed
             (changelogGetVersionIncrement annotations) config preReleaseIdentifier
      else calculateNextVersion parsed
             (changelogGetVersionIncrement annotations) config)
     = Ok candidate ->
     (semverCompare candidate latest <= 0)%Z ->
     CalculateNextVersion modulePath latest config annotations preReleaseIdentifier
     = Err VersionNotIncreasing).
Proof.
  intros Hlatest.
  assert ((String.length latest =? 0) = false) as Hlen.
  { apply Nat.eqb_neq. destruct latest; [congruence|simpl; lia]. }
  unfold CalculateNextVersion. split.
  - intros next.
    destruct (moduleSplitPathVersion modulePath) as [[prefix pathMajor] [|]];
      simpl; [|discriminate].
    rewrite Hlen.
    destruct (semverParse (semverCanonical latest)) as [parsed [|]];
      simpl; [|discriminate].
    destruct (if 0 <? String.length preReleaseIdentifier then _ else _)
      as [candidate|e]; [|discriminate].
    destruct (semverCompare candidate latest <=? 0)%Z eqn:Hcmp; [discriminate|].
    intros [= <-]. apply Z.leb_gt in Hcmp. assumption.
  - intros prefix pathMajor parsed candidate -> Hparse Hcandidate Hcmp.
    simpl. rewrite Hlen, Hparse. simpl. rewrite Hcandidate.
    apply Z.leb_le in Hcmp. rewrite Hcmp. reflexivity.
Qed.
End AnyPackages.

Lemma next_version_increases_witness :
  "v1.1.0-rc.5" <> EmptyString /\
  (0 < GoPackages.Compare "v1.1.0" "v1.1.0-rc.5")%Z /\
  CalculateNextVersion "github.com/aws/aws-sdk-go-v2/service/existing"
    "v1.1.0-rc.5" (configWith false "alpha" EmptyString)
    [annotation FeatureChangeType EmptyString []] EmptyString
  = Err VersionNotIncreasing.
Proof.
  assert ("v1.1.0-rc.5" <> EmptyString) as Hlatest by discriminate.
  split; [exact Hlatest|]. split.
  - apply (proj1 (@next_version_increases GoPackages.packages
                    "github.com/aws/aws-sdk-go-v2/service/existing" "v1.1.0-rc.5"
                    (configWith false EmptyString EmptyString) [annotation ReleaseChangeType EmptyString []] EmptyString
                    Hlatest) "v1.1.0").
    vm_compute. reflexivity.
  - eapply (proj2 (@next_version_increases GoPackages.packages
                     _ "v1.1.0-rc.5" _ _ EmptyString Hlatest)).
    + vm_compute. reflexivity.
    + vm_compute. reflexivity.
    + vm_compute. reflexivity.
    + vm_compute. discriminate.
Defined.
End VersionClaims.

Module ManifestClaims.
Import Changelog Repotools Release GoStrings GraphFacts Examples.

Section AnyPackages.
Context `{Packages}.
Variables (verbose : bool) (preRelease : string).

Lemma addModule_spec rm modulePath mod' rm' :
  addModule verbose preRelease rm modulePath mod' = Ok rm' ->
  manifestID rm' = manifestID rm /\ WithReleaseTag rm' = WithReleaseTag rm /\
  ((released mod' = false /\ rm' = rm) \/
   (released mod' = true /\
    exists mm,
      manifestModules rm' = <[RelativeRepoPath mod' := mm]> (manifestModules rm) /\
      CalculateNextVersion modulePath (Latest mod') (ModuleConfig mod')
        (ChangeAnnotations mod') preRelease = Ok (mmTo mm))).
Proof.
  unfold addModule, released.
  destruct ((Changes mod' =? 0)%N || NoTag (ModuleConfig mod')); simpl.
  - intros [= <-]. auto.
  - destruct (CalculateNextVersion _ _ _ _ _) as [next|]; [|discriminate].
    destruct (gitToModuleTag _ _) as [tag|]; [|discriminate].
    intros [= <-]. simpl. split; [reflexivity|]. split; [reflexivity|].
    right. split; [reflexivity|]. eexists. split; reflexivity.
Qed.

Lemma addModules_spec entries : forall rm rm',
  addModules verbose preRelease rm entries = Ok rm' ->
  manifestID rm' = manifestID rm /\ WithReleaseTag rm' = WithReleaseTag rm /\
  (forall p mm,
     manifestModules rm' !! p = Some mm ->
     manifestModules rm !! p = Some mm \/
     exists modulePath mod',
       (modulePath, mod') ∈ entries /\ RelativeRepoPath mod' = p /\
       released mod' = true /\
       CalculateNextVersion modulePath (Latest mod') (ModuleConfig mod')
         (ChangeAnnotations mod') preRelease = Ok (mmTo mm)) /\
  (forall p, is_Some (manifestModules rm !! p) -> is_Some (manifestModules rm' !! p)) /\
  (forall modulePath mod',
     (modulePath, mod') ∈ entries -> released mod' = true ->
     is_Some (manifestModules rm' !! RelativeRepoPath mod')).
Proof.
  induction entries as [|[k mod'] entries IH]; intros rm rm' Heq; simpl in Heq.
  - inversion Heq; subst. repeat split; auto.
    intros ? ? Hin. inversion Hin.
  - destruct (addModule verbose preRelease rm k mod') as [rm1|] eqn:Hadd;
      [|discriminate].
    apply addModule_spec in Hadd as (Hid1 & Hflag1 & Hcase).
    apply IH in Heq as (Hid & Hflag & Hfrom & Hkeep & Hcover).
    split; [congruence|]. split; [congruence|].
    assert (forall p, is_Some (manifestModules rm !! p) ->
                      is_Some (manifestModules rm1 !! p)) as Hkeep1.
    { intros p Hp. destruct Hcase as [[_ ->] | (_ & mm & -> & _)]; [assumption|].
      rewrite lookup_insert. case_decide; eauto. }
    split; [|split].
    + intros p mm Hp. destruct (Hfrom p mm Hp) as [Hp1 | (k' & m' & Hin & ?)].
      * destruct Hcase as [[_ ->] | (Hrel & mm1 & Hmods & Hnext)]; [auto|].
        rewrite Hmods, lookup_insert in Hp1. case_decide.
        -- inversion Hp1; subst. right. exists k, mod'.
           split; [left|]. auto.
        -- auto.
      * right. exists k', m'. split; [right; assumption|assumption].
    + auto.
    + intros k' m' Hin Hrel. apply elem_of_cons in Hin as [[= -> ->] | Hin].
      * apply Hkeep. destruct Hcase as [[Hno _] | (_ & mm1 & -> & _)];
          [congruence|].
        rewrite lookup_insert_eq. eauto.
      * eapply Hcover; eassumption.
Qed.

Lemma FindModuleViaRelativeRepoPath_Some order modules relPath mod' :
  FindModuleViaRelativeRepoPath order modules relPath = Some mod' ->
  exists modulePath, modules !! modulePath = Some mod' /\
                     RelativeRepoPath mod' = relPath.
Proof.
  unfold FindModuleViaRelativeRepoPath.
  destruct (find _ _) as [[k m]|] eqn:Hfind; [|discriminate].
  simpl. intros [= ->]. apply find_some in Hfind as [Hin Heq].
  apply list_elem_of_In, elem_of_rangeMap in Hin as [_ Hk].
  apply String.eqb_eq in Heq. eauto.
Qed.

(** C9, amended: when [BuildReleaseManifest] returns a manifest for a
    tree of exactly one module, the release tag flag is false and the
    release identifier is the next version computed for the module
    record of that module if the module has a change and may be tagged,
    and its latest version if it has no change or is exempt from
    tagging; for a tree of two or more modules the flag is true and the
    identifier is the one supplied. *)
Theorem manifest_release_id order order' moduleTree id modules rm :
  RangeOrder order modules ->
  BuildReleaseManifest order order' moduleTree id modules verbose preRelease = Ok rm ->
  (forall root,
     Gomod.List moduleTree = [root] ->
     WithReleaseTag rm = false /\
     exists modulePath mod',
       modules !! modulePath = Some mod' /\
       RelativeRepoPath mod' = Gomod.Path root /\
       if released mod'
       then CalculateNextVersion modulePath (Latest mod') (ModuleConfig mod')
              (ChangeAnnotations mod') preRelease = Ok (manifestID rm)
       else manifestID rm = Latest mod') /\
  (2 <= length (Gomod.List moduleTree) ->
   WithReleaseTag rm = true /\ manifestID rm = id).
Proof.
  intros [_ Horder]. unfold BuildReleaseManifest.
  destruct (addModules _ _ _ _) as [rm1|] eqn:Hadd; [|discriminate].
  apply addModules_spec in Hadd as (Hid & Hflag & Hfrom & _ & Hcover).
  simpl in *. intros Hbuild. split.
  - intros root Hlist. rewrite Hlist in Hbuild.
    destruct (manifestModules rm1 !! Gomod.Path root) as [mm|] eqn:Hroot.
    + inversion Hbuild; subst rm. simpl. split; [reflexivity|].
      destruct (Hfrom _ _ Hroot) as [Hempty | (k & m & Hin & Hrel & Hreleased & Hnext)].
      { rewrite lookup_empty in Hempty. discriminate. }
      apply elem_of_rangeMap in Hin as [_ Hk].
      exists k, m. rewrite Hreleased. auto.
    + destruct (FindModuleViaRelativeRepoPath order' modules (Gomod.Path root))
        as [m|] eqn:Hfind; [|discriminate].
      inversion Hbuild; subst rm. simpl. split; [reflexivity|].
      apply FindModuleViaRelativeRepoPath_Some in Hfind as (k & Hk & Hrel).
      exists k, m. split; [assumption|]. split; [assumption|].
      destruct (released m) eqn:Hreleased; [|reflexivity]. exfalso.
      destruct (Hcover k m) as [mm Hmm]; [|assumption|].
      * apply elem_of_rangeMap. split; [apply Horder; eauto|assumption].
      * rewrite Hrel, Hroot in Hmm. discriminate.
  - intros Hlen.
    destruct (Gomod.List moduleTree) as [|n1 [|n2 l]]; simpl in Hlen; try lia.
    inversion Hbuild; subst rm. simpl. auto.
Qed.
End AnyPackages.

(** C9, as stated, fails: for the single module of a repository that has
    a source change but is exempt from tagging, the release identifier is
    the latest version "v1.2.3" of the module, not the next version
    "v1.2.4" computed for it; and without a module record for the single
    module of the tree there is an error instead of a manifest. *)
Lemma manifest_single_module_counterexample :
  Changes (smithy true) <> 0%N /\
  CalculateNextVersion "github.com/aws/smithy-go" (Latest (smithy true))
    (ModuleConfig (smithy true)) (ChangeAnnotations (smithy true)) EmptyString
  = Ok "v1.2.4" /\
  BuildReleaseManifest ["github.com/aws/smithy-go"] ["github.com/aws/smithy-go"]
    singleModuleTree "2021-10-27" (smithyModules true) false EmptyString
  = Ok {| manifestID := "v1.2.3"; WithReleaseTag := false;
          manifestModules := ∅; Tags := [] |} /\
  BuildReleaseManifest [] [] singleModuleTree "2021-10-27" ∅ false EmptyString
  = Err RootModuleNotFound.
Proof.
  split; [vm_compute; discriminate|].
  repeat split; vm_compute; reflexivity.
Qed.

Lemma manifest_release_id_witness :
  RangeOrder ["github.com/aws/smithy-go"] (smithyModules false) /\
  BuildReleaseManifest ["github.com/aws/smithy-go"] ["github.com/aws/smithy-go"]
    singleModuleTree "2021-10-27" (smithyModules false) false EmptyString
  = Ok {| manifestID := "v1.2.4"; WithReleaseTag := false;
          manifestModules :=
            {[ "." := {| mmModulePath := "github.com/aws/smithy-go";
                         mmFrom := "v1.2.3"; mmTo := "v1.2.4";
                         mmChanges := SourceChange; mmFileChanges := [];
                         mmAnnotations := [] |} ]};
          Tags := ["v1.2.4"] |} /\
  (false = false /\
   exists modulePath mod',
     smithyModules false !! modulePath = Some mod' /\
     RelativeRepoPath mod' = "." /\
     if released mod'
     then CalculateNextVersion modulePath (Latest mod') (ModuleConfig mod')
            (ChangeAnnotations mod') EmptyString = Ok "v1.2.4"
     else "v1.2.4" = Latest mod').
Proof.
  assert (RangeOrder ["github.com/aws/smithy-go"] (smithyModules false)) as Horder.
  { split; [repeat constructor; intros Hin; inversion Hin|].
    intros k. unfold smithyModules. rewrite list_elem_of_singleton.
    rewrite lookup_singleton_is_Some. split; congruence. }
  assert (BuildReleaseManifest ["github.com/aws/smithy-go"] ["github.com/aws/smithy-go"]
            singleModuleTree "2021-10-27" (smithyModules false) false EmptyString
          = Ok {| manifestID := "v1.2.4"; WithReleaseTag := false;
                  manifestModules :=
                    {[ "." := {| mmModulePath := "github.com/aws/smithy-go";
                                 mmFrom := "v1.2.3"; mmTo := "v1.2.4";
                                 mmChanges := SourceChange; mmFileChanges := [];
                                 mmAnnotations := [] |} ]};
                  Tags := ["v1.2.4"] |}) as Hbuild
    by (vm_compute; reflexivity).
  split; [exact Horder|]. split; [exact Hbuild|].
  exact (proj1 (manifest_release_id false EmptyString _ _ _ _ _ _ Horder Hbuild)
           (Gomod.Node "." "." [] []) eq_refl).
Defined.
End ManifestClaims.

Module TreeFacts.
Import GoStrings Gomod GomodFacts GomodInsert PathFacts GomodGet.

Lemma nodeOk_inv m :
  nodeOk m -> layerOk (subModules m) /\ Forall nodeOk (subModules m).
Proof. destruct 1; auto. Qed.

(** The nodes below a node of a tree are nodes of a tree themselves. *)
Lemma preorder_nodeOk m : nodeOk m -> forall x, x ∈ preorder m -> nodeOk x.
Proof.
  induction m as [a r subs at' IH] using ModuleTreeNode_nested_ind.
  intros Hok x Hx. apply elem_of_preorder in Hx as [-> | Hx]; [assumption|].
  apply nodeOk_inv in Hok as [_ Hoks]. cbn [subModules] in *.
  apply elem_of_depthFirst in Hx as (c & Hc & Hx).
  rewrite Forall_forall in IH, Hoks. eauto.
Qed.

Lemma preorder_nodeNested m :
  nodeNested m -> forall x, x ∈ preorder m -> nodeNested x.
Proof.
  induction m as [a r subs at' IH] using ModuleTreeNode_nested_ind.
  intros Hok x Hx. apply elem_of_preorder in Hx as [-> | Hx]; [assumption|].
  apply nodeNested_inv in Hok as [_ Hoks]. cbn [subModules] in *.
  apply elem_of_depthFirst in Hx as (c & Hc & Hx).
  rewrite Forall_forall in IH, Hoks. eauto.
Qed.

Lemma depthFirst_nodeOk nodes x :
  Forall nodeOk nodes -> x ∈ depthFirst nodes -> nodeOk x.
Proof.
  rewrite Forall_forall. intros Hall Hx.
  apply elem_of_depthFirst in Hx as (m & Hm & Hx).
  eapply preorder_nodeOk; eauto.
Qed.

Lemma depthFirst_nodeNested nodes x :
  Forall nodeNested nodes -> x ∈ depthFirst nodes -> nodeNested x.
Proof.
  rewrite Forall_forall. intros Hall Hx.
  apply elem_of_depthFirst in Hx as (m & Hm & Hx).
  eapply preorder_nodeNested; eauto.
Qed.

Lemma AncestorOf_trans a b path :
  AncestorOf a (Path b) = true -> AncestorOf b path = true ->
  AncestorOf a path = true.
Proof. rewrite !AncestorOf_ancestorPath. apply ancestorPath_trans. Qed.

(** The search ends at a node none of whose sub-modules is an ancestor
    of the path. *)
Lemma searchFrom_stops path m :
  Forall (fun c => AncestorOf c path = false) (subModules (searchFrom path m)).
Proof.
  induction m as [a r subs at' IH] using ModuleTreeNode_nested_ind.
  rewrite searchFrom_unfold. cbn [subModules].
  pose proof (searchLayer_first path (searchFrom path) subs) as Hs.
  destruct (searchLayer path (searchFrom path) subs) as [found|].
  - destruct Hs as (l1 & m1 & l2 & -> & _ & _ & ->).
    rewrite Forall_forall in IH. apply IH. set_solver.
  - exact Hs.
Qed.

(** The search stays among the ancestors of the path. *)
Lemma searchFrom_ancestor path m :
  AncestorOf m path = true -> AncestorOf (searchFrom path m) path = true.
Proof.
  induction m as [a r subs at' IH] using ModuleTreeNode_nested_ind.
  intros Hm. rewrite searchFrom_unfold. cbn [subModules].
  pose proof (searchLayer_first path (searchFrom path) subs) as Hs.
  destruct (searchLayer path (searchFrom path) subs) as [found|].
  - destruct Hs as (l1 & m1 & l2 & -> & _ & Hm1 & ->).
    rewrite Forall_forall in IH. apply IH; [set_solver|assumption].
  - assumption.
Qed.

(** The search passes every node of the tree that is an ancestor of the
    path: it ends at or below it. *)
Lemma searchFrom_below path m :
  nodeOk m -> nodeNested m ->
  forall x, x ∈ preorder m -> AncestorOf x path = true ->
            searchFrom path m ∈ preorder x.
Proof.
  induction m as [a r subs at' IH] using ModuleTreeNode_nested_ind.
  intros Hok Hnested x Hx Hanc.
  apply elem_of_preorder in Hx as [-> | Hx]; [apply searchFrom_preorder|].
  apply nodeOk_inv in Hok as [[Hpairs _] Hoks].
  apply nodeNested_inv in Hnested as [_ Hsubs].
  cbn [subModules] in *.
  apply elem_of_depthFirst in Hx as (c & Hc & Hx).
  rewrite Forall_forall in IH, Hoks, Hsubs.
  rewrite searchFrom_unfold. cbn [subModules].
  rewrite (searchLayer_sibling path _ subs c Hpairs Hc).
  - apply IH; auto.
  - eapply AncestorOf_trans; [|exact Hanc].
    apply preorder_AncestorOf; auto.
Qed.

Section Forest.
Variables (nodes : list ModuleTreeNode) (path : string).
Hypothesis nodes_layer : layerOk nodes.
Hypothesis nodes_ok : Forall nodeOk nodes.
Hypothesis nodes_nested : Forall nodeNested nodes.

(** The search in a forest: the node it returns is an ancestor of the
    path that lies at or below every other ancestor, and none of its
    sub-modules is an ancestor; it returns nothing when the forest has no
    ancestor of the path. *)
Lemma searchModuleTreeNodes_nearest :
  match searchModuleTreeNodes path nodes with
  | Some n =>
      n ∈ depthFirst nodes /\ AncestorOf n path = true /\
      Forall (fun c => AncestorOf c path = false) (subModules n) /\
      forall x, x ∈ depthFirst nodes -> AncestorOf x path = true -> n ∈ preorder x
  | None => forall x, x ∈ depthFirst nodes -> AncestorOf x path = false
  end.
Proof.
  pose proof nodes_layer as [Hpairs _].
  pose proof nodes_ok as Hoks. pose proof nodes_nested as Hnest.
  rewrite Forall_forall in Hoks, Hnest.
  destruct (searchModuleTreeNodes path nodes) as [n|] eqn:Hs.
  - pose proof (searchModuleTreeNodes_depthFirst _ _ _ Hs) as Hin.
    unfold searchModuleTreeNodes in Hs.
    pose proof (searchLayer_first path (searchFrom path) nodes) as Hf.
    rewrite Hs in Hf. destruct Hf as (l1 & m & l2 & Hnodes & _ & Hm & ->).
    split; [assumption|]. split; [apply searchFrom_ancestor; assumption|].
    split; [apply searchFrom_stops|].
    intros x Hx Hanc. apply elem_of_depthFirst in Hx as (m' & Hm' & Hx).
    assert (AncestorOf m' path = true) as Hm'anc.
    { eapply AncestorOf_trans; [|exact Hanc]. apply preorder_AncestorOf; auto. }
    rewrite (searchLayer_sibling path (searchFrom path) nodes m' Hpairs Hm' Hm'anc)
      in Hs.
    assert (searchFrom path m = searchFrom path m') as -> by congruence.
    apply searchFrom_below; auto.
  - intros x Hx. destruct (AncestorOf x path) eqn:Hanc; [|reflexivity].
    apply elem_of_depthFirst in Hx as (m' & Hm' & Hx).
    assert (AncestorOf m' path = true) as Hm'anc.
    { eapply AncestorOf_trans; [|exact Hanc]. apply preorder_AncestorOf; auto. }
    unfold searchModuleTreeNodes in Hs.
    rewrite (searchLayer_sibling path (searchFrom path) nodes m' Hpairs Hm' Hm'anc)
      in Hs.
    discriminate.
Qed.

(** A node of the forest is the parent of the path exactly when the
    search for the path ends at it. *)
Lemma ParentOf_search n :
  n ∈ depthFirst nodes ->
  (ParentOf n path = true <-> searchModuleTreeNodes path nodes = Some n).
Proof.
  intros Hn. pose proof searchModuleTreeNodes_nearest as Hnear.
  unfold ParentOf, NodeSearch. split.
  - destruct (AncestorOf n path) eqn:Hanc; simpl; [|discriminate].
    pose proof (searchLayer_first path (searchFrom path) (subModules n)) as Hf.
    unfold searchModuleTreeNodes at 1.
    destruct (searchLayer path (searchFrom path) (subModules n)); [discriminate|].
    intros _.
    destruct (searchModuleTreeNodes path nodes) as [r|].
    + destruct Hnear as (_ & Hr & _ & Hbelow).
      specialize (Hbelow n Hn Hanc).
      apply elem_of_preorder in Hbelow as [-> | Hbelow]; [reflexivity|].
      exfalso. apply elem_of_depthFirst in Hbelow as (c & Hc & Hrc).
      rewrite Forall_forall in Hf. specialize (Hf c Hc).
      assert (AncestorOf c path = true) as Hcp; [|congruence].
      eapply AncestorOf_trans; [|exact Hr].
      apply preorder_AncestorOf; [|assumption].
      pose proof (depthFirst_nodeNested nodes n nodes_nested Hn) as Hnn.
      apply nodeNested_inv in Hnn as [_ Hsubs].
      rewrite Forall_forall in Hsubs. auto.
    + rewrite (Hnear n Hn) in Hanc. discriminate.
  - intros Hs. rewrite Hs in Hnear. destruct Hnear as (_ & Hr & Hstop & _).
    rewrite Hr. simpl. unfold searchModuleTreeNodes.
    rewrite searchLayer_none; [reflexivity|assumption].
Qed.
End Forest.

Lemma NodeList_preorder n : preorder n = n :: NodeList n.
Proof. rewrite NodeList_depthFirst. apply preorder_unfold. Qed.

(** The paths of a tree built by [Insert] are pairwise different. *)
Lemma Reachable_NoDup t : Reachable t -> NoDup (ListPaths t).
Proof.
  induction 1 as [o|t t' p attrs nn Hreach IH Hins]; [constructor|].
  pose proof (Insert_spec t p attrs Hreach) as Hs. rewrite Hins in Hs.
  destruct Hs as (rel & _ & Hfresh & _ & _ & _ & _ & _ & Hperm).
  rewrite Hperm. constructor; assumption.
Qed.
Lemma nestedTree_Reachable : Reachable Examples.nestedTree.
Proof.
  apply (GomodClaims.InsertAll_Reachable
           ["."; "service/s3/internal/configtest"; "service/s3"]
           (NewModuleTree {| RootPath := EmptyString |}));
    [apply Reachable_new|vm_compute; reflexivity].
Qed.

Lemma fivePathsTree_Reachable : Reachable Examples.fivePathsTree.
Proof.
  apply (GomodClaims.InsertAll_Reachable Examples.fivePaths
           (NewModuleTree {| RootPath := EmptyString |}));
    [apply Reachable_new|vm_compute; reflexivity].
Qed.

End TreeFacts.

Module TreeProperties.
Import GoStrings Gomod GomodFacts GomodInsert PathFacts GomodGet TreeFacts Examples.

(** X1: in a tree built by [Insert], [Get] of the path of a node of the
    tree returns that node; a node [Get] returns is a node of the tree
    with the path asked for; and [Get] returns nothing exactly for the
    paths [ListPaths] does not list. *)
Theorem Get_lookup t :
  Reachable t ->
  (forall x, x ∈ List t -> Get t (Path x) = Some x) /\
  (forall path node, Get t path = Some node -> node ∈ List t /\ Path node = path) /\
  (forall path, Get t path = None <-> path ∉ ListPaths t).
Proof.
  intros Hreach. split; [|split].
  - intros x Hx. apply Get_complete; assumption.
  - intros path node. apply Get_sound.
  - intros path. rewrite <- (Get_is_Some t path Hreach).
    destruct (Get t path) as [node|]; split.
    + discriminate.
    + intros Hno. exfalso. apply Hno. eauto.
    + intros _ [node Hnode]. discriminate.
    + reflexivity.
Qed.

Lemma Get_lookup_witness :
  Reachable nestedTree /\
  ((forall x, x ∈ List nestedTree -> Get nestedTree (Path x) = Some x) /\
   (forall path node, Get nestedTree path = Some node ->
                      node ∈ List nestedTree /\ Path node = path) /\
   (forall path, Get nestedTree path = None <-> path ∉ ListPaths nestedTree)).
Proof.
  split; [exact nestedTree_Reachable|].
  exact (Get_lookup nestedTree nestedTree_Reachable).
Defined.

(** X2: the relative paths of the nodes of a tree built by [Insert] are
    pairwise different, and [ListPaths] lists the paths of the nodes
    [List] returns, in the same order. *)
Theorem ListPaths_distinct t :
  Reachable t ->
  NoDup (ListPaths t) /\ ListPaths t = map Path (List t) /\
  forall x y, x ∈ List t -> y ∈ List t -> Path x = Path y -> x = y.
Proof.
  intros Hreach. split; [apply Reachable_NoDup; assumption|].
  split; [apply ListPaths_List|].
  intros x y Hx Hy Hpath.
  pose proof (Get_complete t x Hreach Hx) as Hgx.
  pose proof (Get_complete t y Hreach Hy) as Hgy.
  rewrite Hpath in Hgx. congruence.
Qed.

Lemma ListPaths_distinct_witness :
  Reachable fivePathsTree /\
  (NoDup (ListPaths fivePathsTree) /\
   ListPaths fivePathsTree = map Path (List fivePathsTree) /\
   forall x y, x ∈ List fivePathsTree -> y ∈ List fivePathsTree ->
               Path x = Path y -> x = y).
Proof.
  split; [exact fivePathsTree_Reachable|].
  exact (ListPaths_distinct fivePathsTree fivePathsTree_Reachable).
Defined.

(** X3: a successful [Insert] into a tree built by [Insert] returns a
    node that holds the module path, its path relative to the root and
    the attributes given; [Get] finds that node at the relative path in
    the new tree; the new tree has the paths of the old one and the new
    path, each once, and [Get] still finds a node at every path of the old
    tree; the options of the tree stay as they are. *)
Theorem Insert_adds_node t modulePath attrs newNode t' :
  Reachable t -> Insert t modulePath attrs = Ok (newNode, t') ->
  exists moduleRelPath,
    moduleRelPathOf t modulePath = Ok moduleRelPath /\
    AbsPath newNode = modulePath /\ Path newNode = moduleRelPath /\
    (forall a, HasAttribute newNode a = true <-> a ∈ attrs) /\
    options t' = options t /\
    Get t' moduleRelPath = Some newNode /\
    (moduleRelPath ∉ ListPaths t) /\
    ListPaths t' ≡ₚ moduleRelPath :: ListPaths t /\
    forall path, path ∈ ListPaths t -> is_Some (Get t' path).
Proof.
  intros Hreach Hins.
  assert (Reachable t') as Hreach' by (econstructor; eassumption).
  pose proof (Insert_spec t modulePath attrs Hreach) as Hs. rewrite Hins in Hs.
  destruct Hs as (rel & Hrel & Hfresh & Habs & Hpath & Hattrs & Hopts & Hget & Hperm).
  exists rel. repeat (split; [assumption|]).
  split.
  { intros a. unfold HasAttribute. rewrite Hattrs.
    rewrite existsb_exists. split.
    - intros (b & Hb & Heq). apply String.eqb_eq in Heq. subst.
      apply list_elem_of_In. assumption.
    - intros Ha. exists a. split; [apply list_elem_of_In; assumption|].
      apply String.eqb_refl. }
  repeat (split; [assumption|]).
  intros path Hin. apply (Get_is_Some t' path Hreach').
  rewrite Hperm. apply elem_of_cons. auto.
Qed.

Lemma Insert_adds_node_witness :
  Reachable (NewModuleTree {| RootPath := "/repo" |}) /\
  Insert (NewModuleTree {| RootPath := "/repo" |}) "/repo/service/s3" ["tombstone"]
  = Ok (Node "/repo/service/s3" "service/s3" [] ["tombstone"],
        {| options := {| RootPath := "/repo" |};
           treeSubModules := [Node "/repo/service/s3" "service/s3" [] ["tombstone"]] |}) /\
  exists moduleRelPath,
    moduleRelPathOf (NewModuleTree {| RootPath := "/repo" |}) "/repo/service/s3"
    = Ok moduleRelPath /\
    AbsPath (Node "/repo/service/s3" "service/s3" [] ["tombstone"]) = "/repo/service/s3" /\
    Path (Node "/repo/service/s3" "service/s3" [] ["tombstone"]) = moduleRelPath /\
    (forall a, HasAttribute (Node "/repo/service/s3" "service/s3" [] ["tombstone"]) a = true
               <-> a ∈ ["tombstone"]) /\
    options {| options := {| RootPath := "/repo" |};
               treeSubModules := [Node "/repo/service/s3" "service/s3" [] ["tombstone"]] |}
    = options (NewModuleTree {| RootPath := "/repo" |}) /\
    Get {| options := {| RootPath := "/repo" |};
           treeSubModules := [Node "/repo/service/s3" "service/s3" [] ["tombstone"]] |}
        moduleRelPath
    = Some (Node "/repo/service/s3" "service/s3" [] ["tombstone"]) /\
    (moduleRelPath ∉ ListPaths (NewModuleTree {| RootPath := "/repo" |})) /\
    ListPaths {| options := {| RootPath := "/repo" |};
                 treeSubModules := [Node "/repo/service/s3" "service/s3" [] ["tombstone"]] |}
    ≡ₚ moduleRelPath :: ListPaths (NewModuleTree {| RootPath := "/repo" |}) /\
    forall path, path ∈ ListPaths (NewModuleTree {| RootPath := "/repo" |}) ->
                 is_Some (Get {| options := {| RootPath := "/repo" |};
                                 treeSubModules :=
                                   [Node "/repo/service/s3" "service/s3" [] ["tombstone"]] |}
                              path).
Proof.
  assert (Insert (NewModuleTree {| RootPath := "/repo" |}) "/repo/service/s3" ["tombstone"]
          = Ok (Node "/repo/service/s3" "service/s3" [] ["tombstone"],
                {| options := {| RootPath := "/repo" |};
                   treeSubModules :=
                     [Node "/repo/service/s3" "service/s3" [] ["tombstone"]] |}))
    as Hins by (vm_compute; reflexivity).
  split; [apply Reachable_new|]. split; [exact Hins|].
  exact (Insert_adds_node _ _ _ _ _ (Reachable_new _) Hins).
Defined.

(** X4: the errors of [Insert] on a tree built by [Insert].  It returns
    the error that the module is not nested within the root exactly when
    the tree has a root path and [filepath.Rel] fails for the module path,
    and the error that the module exists exactly when the path relative to
    the root is one of the paths of the tree. *)
Theorem Insert_errors t modulePath attrs :
  Reachable t ->
  (Insert t modulePath attrs = Err NotNestedWithinRoot <->
   RootPath (options t) <> EmptyString /\
   Filepath.Rel (RootPath (options t)) modulePath = Err tt) /\
  (Insert t modulePath attrs = Err ModuleAlreadyExists <->
   exists moduleRelPath,
     moduleRelPathOf t modulePath = Ok moduleRelPath /\
     moduleRelPath ∈ ListPaths t).
Proof.
  intros Hreach.
  pose proof (Insert_spec t modulePath attrs Hreach) as Hs. split; split.
  - intros Hins. rewrite Hins in Hs. destruct Hs as [Hroot [[] He]]. auto.
  - intros [Hroot Hrel]. rewrite Insert_unfold. unfold moduleRelPathOf.
    destruct (String.eqb_spec (RootPath (options t)) EmptyString);
      [contradiction|]. simpl. rewrite Hrel. reflexivity.
  - intros Hins. rewrite Hins in Hs. exact Hs.
  - intros (rel & Hrel & Hin). rewrite Insert_unfold, Hrel.
    apply (Get_is_Some t rel Hreach) in Hin as [node ->]. reflexivity.
Qed.

Lemma Insert_errors_witness :
  Reachable fivePathsTree /\
  ((Insert fivePathsTree "a/b" [] = Err NotNestedWithinRoot <->
    RootPath (options fivePathsTree) <> EmptyString /\
    Filepath.Rel (RootPath (options fivePathsTree)) "a/b" = Err tt) /\
   (Insert fivePathsTree "a/b" [] = Err ModuleAlreadyExists <->
    exists moduleRelPath,
      moduleRelPathOf fivePathsTree "a/b" = Ok moduleRelPath /\
      moduleRelPath ∈ ListPaths fivePathsTree)).
Proof.
  split; [exact fivePathsTree_Reachable|].
  exact (Insert_errors fivePathsTree "a/b" [] fivePathsTree_Reachable).
Defined.

(** X5: [Search] on a tree built by [Insert] returns the nearest
    ancestor of the path: a node of the tree that is an ancestor of the
    path, none of whose sub-modules is one, and that is every other
    ancestor of the path in the tree or one of the nodes below it.  It
    returns nothing exactly when no node of the tree is an ancestor of
    the path. *)
Theorem Search_nearest t path :
  Reachable t ->
  match Search t path with
  | Some n =>
      n ∈ List t /\ AncestorOf n path = true /\
      (forall c, c ∈ subModules n -> AncestorOf c path = false) /\
      forall x, x ∈ List t -> AncestorOf x path = true -> n = x \/ n ∈ NodeList x
  | None => forall x, x ∈ List t -> AncestorOf x path = false
  end.
Proof.
  intros Hreach. destruct (Reachable_invariant t Hreach) as [Hlayer Hok].
  pose proof (searchModuleTreeNodes_nearest (treeSubModules t) path Hlayer Hok
                (Reachable_nested t Hreach)) as Hnear.
  unfold Search. rewrite List_depthFirst.
  destruct (searchModuleTreeNodes path (treeSubModules t)) as [n|]; [|assumption].
  destruct Hnear as (Hin & Hanc & Hstop & Hbelow).
  split; [assumption|]. split; [assumption|]. split.
  - rewrite Forall_forall in Hstop. assumption.
  - intros x Hx Hxanc. specialize (Hbelow x Hx Hxanc).
    rewrite NodeList_preorder in Hbelow. apply elem_of_cons in Hbelow. assumption.
Qed.

Lemma Search_nearest_witness :
  Reachable nestedTree /\
  match Search nestedTree "service/s3/api.go" with
  | Some n =>
      n ∈ List nestedTree /\ AncestorOf n "service/s3/api.go" = true /\
      (forall c, c ∈ subModules n -> AncestorOf c "service/s3/api.go" = false) /\
      forall x, x ∈ List nestedTree -> AncestorOf x "service/s3/api.go" = true ->
                n = x \/ n ∈ NodeList x
  | None => forall x, x ∈ List nestedTree -> AncestorOf x "service/s3/api.go" = false
  end.
Proof.
  split; [exact nestedTree_Reachable|].
  exact (Search_nearest nestedTree "service/s3/api.go" nestedTree_Reachable).
Defined.

(** X6: a node of a tree built by [Insert] is the parent of a path, as
    [ParentOf] tells, exactly when [Search] on the tree returns that node
    for the path; so at most one node of the tree is the parent of a
    path. *)
Theorem ParentOf_iff_Search t n path :
  Reachable t -> n ∈ List t ->
  (ParentOf n path = true <-> Search t path = Some n) /\
  forall n', n' ∈ List t -> ParentOf n path = true -> ParentOf n' path = true ->
             n' = n.
Proof.
  intros Hreach Hn. destruct (Reachable_invariant t Hreach) as [Hlayer Hok].
  pose proof (Reachable_nested t Hreach) as Hnested.
  rewrite List_depthFirst in Hn. unfold Search. split.
  - apply ParentOf_search; assumption.
  - intros n' Hn' Hp Hp'. rewrite List_depthFirst in Hn'.
    apply (ParentOf_search (treeSubModules t) path Hlayer Hok Hnested n Hn) in Hp.
    apply (ParentOf_search (treeSubModules t) path Hlayer Hok Hnested n' Hn') in Hp'.
    congruence.
Qed.

Lemma ParentOf_iff_Search_witness :
  Reachable nestedTree /\
  Node "service/s3" "service/s3" [leaf "service/s3/internal/configtest"] []
    ∈ List nestedTree /\
  ((ParentOf (Node "service/s3" "service/s3" [leaf "service/s3/internal/configtest"] [])
      "service/s3/internal" = true <->
    Search nestedTree "service/s3/internal"
    = Some (Node "service/s3" "service/s3" [leaf "service/s3/internal/configtest"] [])) /\
   forall n', n' ∈ List nestedTree ->
     ParentOf (Node "service/s3" "service/s3" [leaf "service/s3/internal/configtest"] [])
       "service/s3/internal" = true ->
     ParentOf n' "service/s3/internal" = true ->
     n' = Node "service/s3" "service/s3" [leaf "service/s3/internal/configtest"] []).
Proof.
  assert (Node "service/s3" "service/s3" [leaf "service/s3/internal/configtest"] []
            ∈ List nestedTree) as Hin.
  { apply list_elem_of_In. vm_compute. tauto. }
  split; [exact nestedTree_Reachable|]. split; [exact Hin|].
  exact (ParentOf_iff_Search nestedTree _ "service/s3/internal"
           nestedTree_Reachable Hin).
Defined.

(** X7: [ModuleTreeNode.Get] on a node of a tree built by [Insert]
    returns, for the path of the node or of a node below it, that node;
    what it returns is the node or a node below it and has the path asked
    for. *)
Theorem NodeGet_lookup t n :
  Reachable t -> n ∈ List t ->
  (forall x, x = n \/ x ∈ NodeList n -> NodeGet n (Path x) = Some x) /\
  (forall path x, NodeGet n path = Some x ->
                  (x = n \/ x ∈ NodeList n) /\ Path x = path).
Proof.
  intros Hreach Hn. destruct (Reachable_invariant t Hreach) as [_ Hok].
  pose proof (Reachable_nested t Hreach) as Hnested.
  rewrite List_depthFirst in Hn.
  pose proof (depthFirst_nodeOk _ n Hok Hn) as Hnok.
  pose proof (depthFirst_nodeNested _ n Hnested Hn) as Hnn.
  apply nodeOk_inv in Hnok as [Hlayer Hoks].
  pose proof Hnn as Hnn'. apply nodeNested_inv in Hnn' as [Hbelow Hsubs].
  rewrite NodeList_depthFirst. unfold NodeGet. split.
  - intros x [-> | Hx]; [rewrite String.eqb_refl; reflexivity|].
    destruct (String.eqb_spec (Path n) (Path x)) as [Heq | _].
    + exfalso. apply elem_of_depthFirst in Hx as (c & Hc & Hx).
      rewrite Forall_forall in Hbelow, Hsubs.
      destruct (Hbelow c Hc) as [Hnc Hne]. apply Hne.
      rewrite !AncestorOf_ancestorPath in *. symmetry.
      apply ancestorPath_antisym; [assumption|]. rewrite Heq.
      rewrite <- AncestorOf_ancestorPath. apply preorder_AncestorOf; auto.
    + rewrite (searchModuleTreeNodes_complete _ x Hlayer Hoks Hsubs Hx).
      rewrite String.eqb_refl. reflexivity.
  - intros path x.
    destruct (String.eqb_spec (Path n) path) as [Heq | _].
    + intros [= <-]. auto.
    + destruct (searchModuleTreeNodes path (subModules n)) as [found|] eqn:Hs;
        [|discriminate].
      destruct (String.eqb_spec (Path found) path) as [Hp | _]; [|discriminate].
      intros [= <-]. split; [|assumption]. right.
      eapply searchModuleTreeNodes_depthFirst, Hs.
Qed.

Lemma NodeGet_lookup_witness :
  Reachable fivePathsTree /\
  Node "a" "a" [leaf "a/b"; leaf "a/f/g"] [] ∈ List fivePathsTree /\
  ((forall x, x = Node "a" "a" [leaf "a/b"; leaf "a/f/g"] [] \/
              x ∈ NodeList (Node "a" "a" [leaf "a/b"; leaf "a/f/g"] []) ->
              NodeGet (Node "a" "a" [leaf "a/b"; leaf "a/f/g"] []) (Path x) = Some x) /\
   (forall path x,
      NodeGet (Node "a" "a" [leaf "a/b"; leaf "a/f/g"] []) path = Some x ->
      (x = Node "a" "a" [leaf "a/b"; leaf "a/f/g"] [] \/
       x ∈ NodeList (Node "a" "a" [leaf "a/b"; leaf "a/f/g"] [])) /\ Path x = path)).
Proof.
  assert (Node "a" "a" [leaf "a/b"; leaf "a/f/g"] [] ∈ List fivePathsTree) as Hin.
  { apply list_elem_of_In. vm_compute. tauto. }
  split; [exact fivePathsTree_Reachable|]. split; [exact Hin|].
  exact (NodeGet_lookup fivePathsTree _ fivePathsTree_Reachable Hin).
Defined.
End TreeProperties.

Module DiffFacts.
Import GoStrings Gomod GomodFacts DiffDefs.

Lemma flat_map_relevant_perm dirs dirs' :
  dirs ≡ₚ dirs' -> flat_map relevantFilesOf dirs ≡ₚ flat_map relevantFilesOf dirs'.
Proof.
  induction 1 as [|d l l' _ IH|d d' l|l1 l2 l3 _ IH1 _ IH2]; simpl.
  - reflexivity.
  - rewrite IH. reflexivity.
  - rewrite !app_assoc. apply Permutation_app_tail, Permutation_app_comm.
  - etransitivity; eassumption.
Qed.

Lemma filter_snoc {A} (p : A -> bool) l x :
  List.filter p (l ++ [x]) = List.filter p l ++ (if p x then [x] else []).
Proof. rewrite List.filter_app. reflexivity. Qed.

Section Cache.
Variable module : ModuleTreeNode.

Lemma cacheFile_ok dirCache done f :
  cacheOk module dirCache done ->
  cacheOk module (cacheFile module dirCache f) (done ++ [f]).
Proof.
  intros [Hrel Hperm]. unfold cacheOk. rewrite filter_snoc.
  set (owned := List.filter (ownsFile module) done) in *.
  unfold cacheFile, ownsFile, isModuleFile, fileName, fileDir.
  destruct (Filepath.Split f) as [dir0 name]. cbn [fst snd].
  set (dir := Filepath.Clean dir0).
  destruct (IsGoSource name || IsGoMod name); cbn [negb andb].
  2: { split; [assumption|]. rewrite app_nil_r. assumption. }
  destruct (dirCache !! dir) as [v|] eqn:Hv.
  - pose proof (Hrel dir v Hv) as Hpar. rewrite <- Hpar.
    destruct (relevant v) eqn:Hrv; cbn [negb].
    + split.
      * intros d w. rewrite lookup_insert. case_decide; [|apply Hrel].
        intros [= <-]. subst. simpl. congruence.
      * rewrite <- insert_delete_eq.
        rewrite map_to_list_insert by apply lookup_delete_eq.
        rewrite <- Hperm, <- (map_to_list_delete dirCache dir v Hv).
        simpl. unfold relevantFilesOf at 1 3. simpl. rewrite Hrv. simpl.
        rewrite <- !app_assoc. apply Permutation_app_head.
        apply Permutation_app_comm.
    + split; [assumption|]. rewrite app_nil_r. assumption.
  - destruct (ParentOf module dir) eqn:Hpar; cbn [negb].
    + split.
      * intros d w. rewrite lookup_insert. case_decide; [|apply Hrel].
        intros [= <-]. subst. simpl. congruence.
      * rewrite map_to_list_insert by assumption. simpl.
        unfold relevantFilesOf at 1. simpl. rewrite Hperm.
        apply Permutation_cons_append.
    + split.
      * intros d w. rewrite lookup_insert. case_decide; [|apply Hrel].
        intros [= <-]. subst. simpl. congruence.
      * rewrite map_to_list_insert by assumption. simpl.
        rewrite app_nil_r. assumption.
Qed.

Lemma fold_cacheFile_ok files : forall dirCache done,
  cacheOk module dirCache done ->
  cacheOk module (fold_left (cacheFile module) files dirCache) (done ++ files).
Proof.
  induction files as [|f files IH]; intros dirCache done Hok; simpl.
  - rewrite app_nil_r. assumption.
  - replace (done ++ f :: files) with ((done ++ [f]) ++ files)
      by (rewrite <- app_assoc; reflexivity).
    apply IH, cacheFile_ok, Hok.
Qed.

(** [FilterModuleFiles] returns the files the module owns, in ascending
    order. *)
Lemma FilterModuleFiles_owned files :
  FilterModuleFiles module files
  = (SortStrings (List.filter (ownsFile module) files), None).
Proof.
  unfold FilterModuleFiles. f_equal.
  apply GomodClaims.SortStrings_Permutation.
  rewrite GomodClaims.collectRelevant_flat_map.
  apply (fold_cacheFile_ok files ∅ []). split.
  - intros dir v. rewrite lookup_empty. discriminate.
  - rewrite map_to_list_empty. reflexivity.
Qed.
End Cache.

Lemma SortStrings_perm l : SortStrings l ≡ₚ l.
Proof. apply merge_sort_Permutation. Qed.

Lemma SortStrings_sorted l : StronglySorted String.le (SortStrings l).
Proof. apply StronglySorted_merge_sort; apply _. Qed.

Lemma filter_perm {A} (p : A -> bool) l l' :
  l ≡ₚ l' -> List.filter p l ≡ₚ List.filter p l'.
Proof.
  induction 1 as [|x l l' _ IH|x y l|l1 l2 l3 _ IH1 _ IH2]; simpl.
  - reflexivity.
  - destruct (p x); [rewrite IH|]; auto.
  - destruct (p x), (p y); try reflexivity. apply perm_swap.
  - etransitivity; eassumption.
Qed.

Lemma filter_idem {A} (p : A -> bool) l :
  List.filter p (List.filter p l) = List.filter p l.
Proof.
  induction l as [|x l IH]; simpl; [reflexivity|].
  destruct (p x) eqn:Hp; simpl; [rewrite Hp, IH|]; auto.
Qed.

Lemma existsb_perm {A} (p : A -> bool) l l' :
  l ≡ₚ l' -> existsb p l = existsb p l'.
Proof.
  induction 1 as [|x l l' _ IH|x y l|l1 l2 l3 _ IH1 _ IH2]; simpl.
  - reflexivity.
  - rewrite IH. reflexivity.
  - destruct (p x), (p y); reflexivity.
  - congruence.
Qed.

Lemma elem_of_filter_bool {A} (p : A -> bool) l x :
  x ∈ List.filter p l <-> x ∈ l /\ p x = true.
Proof. rewrite !list_elem_of_In. apply filter_In. Qed.

(** The loop of [isModuleCarvedOut] returns whether a Go source file
    and whether a [go.mod] file is among the files, for the question
    whether the first is there and the second is not. *)
Lemma carvedOutLoop_spec files : forall hasGoSource hasGoMod,
  let (s, m) := carvedOutLoop hasGoSource hasGoMod files in
  negb m && s
  = negb (hasGoMod || existsb (fun f => IsGoMod (fileName f)) files)
    && (hasGoSource || existsb (fun f => IsGoSource (fileName f)) files).
Proof.
  induction files as [|f files IH]; intros s m; simpl.
  - rewrite !orb_false_r. reflexivity.
  - unfold fileName at 1 3. destruct (Filepath.Split f) as [dir name]. cbn [snd].
    destruct (IsGoMod name), (IsGoSource name), s, m; simpl;
      repeat match goal with
             | |- context [carvedOutLoop ?a ?b files] =>
                 let H := fresh in
                 pose proof (IH a b) as H;
                 destruct (carvedOutLoop a b files); rewrite H; clear H
             end;
      simpl;
      destruct (existsb (fun f => IsGoMod (fileName f)) files),
               (existsb (fun f => IsGoSource (fileName f)) files);
      reflexivity.
Qed.
End DiffFacts.

Module DiffProperties.
Import GoStrings Gomod GomodFacts GomodInsert GomodGet TreeFacts DiffDefs DiffFacts Examples.

Lemma existsb_filter {A} (p q : A -> bool) l :
  existsb q (List.filter p l) = existsb (fun x => p x && q x) l.
Proof.
  induction l as [|x l IH]; simpl; [reflexivity|].
  destruct (p x); simpl; rewrite IH; reflexivity.
Qed.

(** X8: [FilterModuleFiles] returns, in ascending order and without
    error, exactly the files of the list that are Go source files or
    [go.mod] files in a directory the module is the parent of, each as
    often as the list holds it; the directory cache does not show in the
    result.  Filtering the result again returns it unchanged. *)
Theorem FilterModuleFiles_sorted_owned module files :
  FilterModuleFiles module files
  = (SortStrings (List.filter (ownsFile module) files), None) /\
  StronglySorted String.le (fst (FilterModuleFiles module files)) /\
  fst (FilterModuleFiles module files) ≡ₚ List.filter (ownsFile module) files /\
  FilterModuleFiles module (fst (FilterModuleFiles module files))
  = FilterModuleFiles module files.
Proof.
  rewrite !FilterModuleFiles_owned. cbn [fst].
  split; [reflexivity|]. split; [apply SortStrings_sorted|].
  split; [apply SortStrings_perm|]. f_equal.
  apply GomodClaims.SortStrings_Permutation.
  rewrite (filter_perm _ _ _ (SortStrings_perm _)), filter_idem. reflexivity.
Qed.

(** X9: in a tree built by [Insert], [FilterModuleFiles] for a node of
    the tree keeps a file of the list exactly when it is a Go source or
    [go.mod] file and [Search] on the tree returns that node for the
    directory of the file; so no file is kept for two nodes of the tree.
    [IsModuleChanged] tells whether the list holds such a file. *)
Theorem FilterModuleFiles_owner t n files :
  Reachable t -> n ∈ List t ->
  (forall f, f ∈ fst (FilterModuleFiles n files) <->
             f ∈ files /\ isModuleFile f = true /\ Search t (fileDir f) = Some n) /\
  (forall n' files' f,
     n' ∈ List t -> f ∈ fst (FilterModuleFiles n files) ->
     f ∈ fst (FilterModuleFiles n' files') -> n' = n) /\
  (fst (IsModuleChanged n files) = true <->
   exists f, f ∈ files /\ isModuleFile f = true /\ Search t (fileDir f) = Some n).
Proof.
  intros Hreach Hn. destruct (Reachable_invariant t Hreach) as [Hlayer Hok].
  pose proof (Reachable_nested t Hreach) as Hnested.
  rewrite List_depthFirst in Hn.
  assert (forall m, m ∈ depthFirst (treeSubModules t) ->
          forall fs f, f ∈ fst (FilterModuleFiles m fs) <->
                       f ∈ fs /\ isModuleFile f = true /\
                       Search t (fileDir f) = Some m) as Hkeep.
  { intros m Hm fs f. rewrite FilterModuleFiles_owned. cbn [fst].
    rewrite (SortStrings_perm _), elem_of_filter_bool.
    unfold ownsFile. rewrite andb_true_iff.
    rewrite (ParentOf_search (treeSubModules t) (fileDir f) Hlayer Hok Hnested m Hm).
    reflexivity. }
  split; [apply Hkeep; assumption|]. split.
  - intros n' files' f Hn' Hf Hf'. rewrite List_depthFirst in Hn'.
    apply (Hkeep n Hn) in Hf as (_ & _ & Hs).
    apply (Hkeep n' Hn') in Hf' as (_ & _ & Hs'). congruence.
  - unfold IsModuleChanged.
    pose proof (Hkeep n Hn files) as Hk.
    destruct (FilterModuleFiles n files) as [kept err] eqn:Hfilter.
    assert (err = None) as ->.
    { rewrite FilterModuleFiles_owned in Hfilter. congruence. }
    cbn [fst] in *. destruct kept as [|f kept]; simpl.
    + split; [discriminate|]. intros (f & Hf). apply Hk in Hf. inversion Hf.
    + split; [|reflexivity]. intros _. exists f. apply Hk. left.
Qed.

Lemma FilterModuleFiles_owner_witness :
  Reachable nestedTree /\
  Node "service/s3" "service/s3" [leaf "service/s3/internal/configtest"] []
    ∈ List nestedTree /\
  ((forall f,
      f ∈ fst (FilterModuleFiles
                 (Node "service/s3" "service/s3"
                    [leaf "service/s3/internal/configtest"] [])
                 ["service/s3/api.go"; "go.mod"]) <->
      f ∈ ["service/s3/api.go"; "go.mod"] /\ isModuleFile f = true /\
      Search nestedTree (fileDir f)
      = Some (Node "service/s3" "service/s3"
                [leaf "service/s3/internal/configtest"] [])) /\
   (forall n' files' f,
      n' ∈ List nestedTree ->
      f ∈ fst (FilterModuleFiles
                 (Node "service/s3" "service/s3"
                    [leaf "service/s3/internal/configtest"] [])
                 ["service/s3/api.go"; "go.mod"]) ->
      f ∈ fst (FilterModuleFiles n' files') ->
      n' = Node "service/s3" "service/s3"
             [leaf "service/s3/internal/configtest"] []) /\
   (fst (IsModuleChanged
           (Node "service/s3" "service/s3"
              [leaf "service/s3/internal/configtest"] [])
           ["service/s3/api.go"; "go.mod"]) = true <->
    exists f, f ∈ ["service/s3/api.go"; "go.mod"] /\ isModuleFile f = true /\
              Search nestedTree (fileDir f)
              = Some (Node "service/s3" "service/s3"
                        [leaf "service/s3/internal/configtest"] []))).
Proof.
  assert (Node "service/s3" "service/s3" [leaf "service/s3/internal/configtest"] []
            ∈ List nestedTree) as Hin.
  { apply list_elem_of_In. vm_compute. tauto. }
  split; [exact nestedTree_Reachable|]. split; [exact Hin|].
  exact (FilterModuleFiles_owner nestedTree _ ["service/s3/api.go"; "go.mod"]
           nestedTree_Reachable Hin).
Defined.

(** X10: [isModuleCarvedOut] returns no error, and returns true exactly
    when the module owns a Go source file of the list and owns no
    [go.mod] file of the list; leaving the loop early does not change
    the answer. *)
Theorem isModuleCarvedOut_owned module files :
  isModuleCarvedOut module files
  = (existsb (fun f => ownsFile module f && IsGoSource (fileName f)) files
     && negb (existsb (fun f => ownsFile module f && IsGoMod (fileName f)) files),
     None).
Proof.
  unfold isModuleCarvedOut. rewrite FilterModuleFiles_owned.
  pose proof (carvedOutLoop_spec
                (SortStrings (List.filter (ownsFile module) files)) false false)
    as Hloop.
  destruct (carvedOutLoop false false _) as [s m]. rewrite Hloop. simpl.
  rewrite !(existsb_perm _ _ _ (SortStrings_perm _)), !existsb_filter.
  rewrite andb_comm. reflexivity.
Qed.
End DiffProperties.

Module StrconvFacts.
Import GoStrings Strconv StrconvDefs PathFacts.

Lemma digit_cases (d : Z) :
  (0 <= d <= 9)%Z ->
  d = 0%Z \/ d = 1%Z \/ d = 2%Z \/ d = 3%Z \/ d = 4%Z \/
  d = 5%Z \/ d = 6%Z \/ d = 7%Z \/ d = 8%Z \/ d = 9%Z.
Proof. lia. Qed.

Ltac each_digit d Hd :=
  destruct (digit_cases d Hd)
    as [-> | [-> | [-> | [-> | [-> | [-> | [-> | [-> | [-> | ->]]]]]]]]].

Lemma digitOf_digitChar d : (0 <= d <= 9)%Z -> digitOf (digitChar d) = Some d.
Proof. intros Hd. each_digit d Hd; reflexivity. Qed.

Lemma mod10_digit z : (0 <= z mod 10 <= 9)%Z.
Proof. pose proof (Z.mod_pos_bound z 10). lia. Qed.

(** Reading the digits [itoaPos] writes gives the number back. *)
Lemma digits_itoaPos rounds : forall z acc,
  (0 <= z < 10 ^ Z.of_nat rounds)%Z ->
  exists k, (0 <= k)%Z /\ forall a,
    digits a (itoaPos rounds z acc) = digits (a * 10 ^ k + z)%Z acc.
Proof.
  induction rounds as [|rounds IH]; intros z acc Hz.
  - exists 0%Z. split; [lia|]. intros a. simpl in *. f_equal. lia.
  - cbn [itoaPos]. destruct (Z.ltb_spec z 10) as [Hlt | Hge].
    + exists 1%Z. split; [lia|]. intros a. cbn [digits].
      rewrite (digitOf_digitChar _ (mod10_digit z)).
      rewrite Z.mod_small by lia. f_equal.
    + destruct (IH (z / 10)%Z (String (digitChar (z mod 10)) acc)) as (k & Hk0 & Hk).
      { split; [apply Z.div_pos; lia|].
        apply Z.div_lt_upper_bound; [lia|].
        rewrite Nat2Z.inj_succ, Z.pow_succ_r in Hz by lia. lia. }
      exists (k + 1)%Z. split; [lia|]. intros a. rewrite Hk. cbn [digits].
      rewrite (digitOf_digitChar _ (mod10_digit z)). f_equal.
      rewrite Z.pow_add_r by lia.
      pose proof (Z.div_mod z 10). lia.
Qed.

Lemma allDigits_itoaPos rounds : forall z acc,
  allDigits acc -> allDigits (itoaPos rounds z acc).
Proof.
  induction rounds as [|rounds IH]; intros z acc Hacc; [assumption|].
  cbn [itoaPos].
  assert (allDigits (String (digitChar (z mod 10)) acc)) as Hacc'.
  { split; [|assumption]. exists (z mod 10)%Z. split; [apply mod10_digit|reflexivity]. }
  destruct (z <? 10)%Z; auto.
Qed.

Lemma itoaPos_nonempty rounds z acc :
  itoaPos (S rounds) z acc <> EmptyString.
Proof.
  revert z acc. induction rounds as [|rounds IH]; intros z acc; cbn [itoaPos].
  - destruct (z <? 10)%Z; discriminate.
  - destruct (z <? 10)%Z; [discriminate|]. apply IH.
Qed.

(** [Atoi] reads back what [Itoa] writes. *)
Lemma Atoi_Itoa z : (minInt <= z <= maxInt)%Z -> Atoi (Itoa z) = Some z.
Proof.
  unfold minInt, maxInt. intros Hz. unfold Itoa.
  assert (forall n, (0 <= n <= 2 ^ 63)%Z ->
            itoaPos 20 n EmptyString <> EmptyString /\
            allDigits (itoaPos 20 n EmptyString) /\
            digits 0 (itoaPos 20 n EmptyString) = Some n) as Hpos.
  { intros n Hn. split; [apply itoaPos_nonempty|].
    split; [apply allDigits_itoaPos; exact I|].
    destruct (digits_itoaPos 20 n EmptyString) as (k & _ & Hk).
    { split; [lia|]. change (10 ^ Z.of_nat 20)%Z with 100000000000000000000%Z.
      change (2 ^ 63)%Z with 9223372036854775808%Z in Hn. lia. }
    rewrite Hk. simpl. f_equal. }
  destruct (Z.ltb_spec z 0) as [Hneg | Hnn].
  - destruct (Hpos (- z)%Z) as (Hne & _ & Hd); [lia|].
    rewrite append_cons, append_nil_l. unfold Atoi.
    destruct (itoaPos 20 (- z) EmptyString) as [|c s] eqn:Hs; [contradiction|].
    rewrite Hd. unfold minInt, maxInt.
    replace (- - z)%Z with z by lia.
    destruct (Z.leb_spec (- 2 ^ 63) z), (Z.leb_spec z (2 ^ 63 - 1)); simpl;
      try reflexivity; lia.
  - destruct (Hpos z) as (Hne & Hall & Hd); [lia|].
    unfold Atoi.
    destruct (itoaPos 20 z EmptyString) as [|c s] eqn:Hs; [contradiction|].
    destruct Hall as [(d & Hd9 & ->) _].
    assert (digits 0 (String (digitChar d) s) = Some z) as Hd' by exact Hd.
    clear Hd.
    assert (match String (digitChar d) s with
            | String "-"%char s' => (true, s')
            | String "+"%char s' => (false, s')
            | _ => (false, String (digitChar d) s)
            end = (false, String (digitChar d) s)) as ->.
    { each_digit d Hd9; reflexivity. }
    rewrite Hd'. unfold minInt, maxInt.
    destruct (Z.leb_spec (- 2 ^ 63) z), (Z.leb_spec z (2 ^ 63 - 1)); simpl;
      try reflexivity; lia.
Qed.

Lemma wrapInt_range z : (minInt <= wrapInt z <= maxInt)%Z.
Proof.
  unfold wrapInt, minInt, maxInt.
  pose proof (Z.mod_pos_bound (z + 2 ^ 63) (2 ^ 64)). lia.
Qed.

Lemma wrapInt_small z : (minInt <= z <= maxInt)%Z -> wrapInt z = z.
Proof.
  unfold wrapInt, minInt, maxInt. intros Hz.
  rewrite Z.mod_small; lia.
Qed.

Lemma Atoi_range s i : Atoi s = Some i -> (minInt <= i <= maxInt)%Z.
Proof.
  unfold Atoi.
  destruct (match s with
            | String "-"%char s' => (true, s')
            | String "+"%char s' => (false, s')
            | _ => (false, s)
            end) as [neg body].
  destruct body; [discriminate|].
  destruct (digits 0 _) as [n|]; [|discriminate].
  destruct (Z.leb_spec minInt (if neg then (- n)%Z else n)); [|discriminate].
  destruct (Z.leb_spec (if neg then (- n)%Z else n) maxInt); [|discriminate].
  simpl. intros [= <-]. lia.
Qed.

(** The last index of a byte in a string that ends in a part without
    that byte. *)
Lemma lastIndexFrom_none_app c s1 s2 i :
  lastIndexFrom (i + String.length s1) c s2 = None ->
  lastIndexFrom i c (s1 +:+ s2) = lastIndexFrom i c s1.
Proof.
  revert i. induction s1 as [|a s1 IH]; intros i Hnone.
  - rewrite append_nil_l. simpl in *. rewrite Nat.add_0_r in Hnone. assumption.
  - rewrite append_cons. cbn [lastIndexFrom]. rewrite IH; [reflexivity|].
    simpl in Hnone. rewrite <- Nat.add_succ_comm in Hnone. assumption.
Qed.

Lemma lastIndexFrom_snoc c s i :
  lastIndexFrom i c (s +:+ String c EmptyString) = Some (i + String.length s).
Proof.
  revert i. induction s as [|a s IH]; intros i.
  - simpl. rewrite Ascii.eqb_refl. f_equal. lia.
  - rewrite append_cons. cbn [lastIndexFrom]. rewrite IH. simpl. f_equal. lia.
Qed.

Lemma lastIndexFrom_lower c s : forall i j,
  lastIndexFrom i c s = Some j -> i <= j.
Proof.
  induction s as [|a s IH]; intros i j; simpl; [discriminate|].
  destruct (lastIndexFrom (S i) c s) as [k|] eqn:Hk.
  - intros [= <-]. apply IH in Hk. lia.
  - destruct (Ascii.eqb a c); [|discriminate]. intros [= <-]. lia.
Qed.

Lemma lastIndexFrom_shift c s : forall i j,
  lastIndexFrom i c s = None -> lastIndexFrom j c s = None.
Proof.
  induction s as [|a s IH]; intros i j; simpl; [reflexivity|].
  destruct (lastIndexFrom (S i) c s) eqn:Hk; [discriminate|].
  rewrite (IH _ (S j) Hk). destruct (Ascii.eqb a c); [discriminate|reflexivity].
Qed.

Lemma lastIndexFrom_allDigits s i :
  allDigits s -> lastIndexFrom i "."%char s = None.
Proof.
  revert i. induction s as [|a s IH]; intros i; simpl; [reflexivity|].
  intros [(d & Hd & ->) Hs]. rewrite IH by assumption.
  each_digit d Hd; reflexivity.
Qed.

(** [Itoa] writes no dot. *)
Lemma lastIndexFrom_Itoa z i : lastIndexFrom i "."%char (Itoa z) = None.
Proof.
  unfold Itoa. destruct (z <? 0)%Z.
  - rewrite append_cons, append_nil_l. cbn [lastIndexFrom].
    rewrite lastIndexFrom_allDigits; [reflexivity|].
    apply allDigits_itoaPos. exact I.
  - apply lastIndexFrom_allDigits, allDigits_itoaPos. exact I.
Qed.

Lemma substring_append_l s1 s2 :
  String.substring 0 (String.length s1) (s1 +:+ s2) = s1.
Proof.
  induction s1 as [|a s1 IH]; cbn [String.length].
  - rewrite append_nil_l. destruct s2; reflexivity.
  - rewrite append_cons. cbn [String.substring]. rewrite IH. reflexivity.
Qed.

Lemma substring_all s : String.substring 0 (String.length s) s = s.
Proof. induction s as [|a s IH]; simpl; [reflexivity|]. rewrite IH. reflexivity. Qed.

Lemma substring_append_r s1 s2 :
  String.substring (String.length s1) (String.length s2) (s1 +:+ s2) = s2.
Proof.
  induction s1 as [|a s1 IH]; cbn [String.length].
  - rewrite append_nil_l. apply substring_all.
  - rewrite append_cons. cbn [String.substring]. exact IH.
Qed.
End StrconvFacts.

Module ChangeFacts.
Import GoStrings Strconv Release ChangeDefs StrconvFacts.

Lemma flag_testbit m k :
  negb (N.land m (N.shiftl 1 k) =? 0)%N = N.testbit m k.
Proof.
  rewrite N.shiftl_1_l.
  destruct (N.testbit m k) eqn:Hb.
  - apply negb_true_iff, N.eqb_neq. intros Hz.
    apply (f_equal (fun x => N.testbit x k)) in Hz.
    rewrite N.land_spec, Hb, N.pow2_bits_true, N.bits_0 in Hz. discriminate.
  - apply negb_false_iff, N.eqb_eq. apply N.bits_inj. intros i.
    rewrite N.land_spec, N.bits_0, N.pow2_bits_eqb.
    destruct (N.eqb_spec k i) as [<- | _]; [rewrite Hb|]; 
      rewrite ?andb_false_r; reflexivity.
Qed.

Lemma SourceChange_bits i : N.testbit SourceChange i = (i =? 63)%N.
Proof.
  unfold SourceChange. change (64 - 1 - 0)%N with 63%N.
  rewrite N.shiftl_1_l, N.pow2_bits_eqb. apply N.eqb_sym.
Qed.

Lemma NewModule_bits i : N.testbit NewModule i = (i =? 62)%N.
Proof.
  unfold NewModule. change (64 - 1 - 1)%N with 62%N.
  rewrite N.shiftl_1_l, N.pow2_bits_eqb. apply N.eqb_sym.
Qed.

Lemma DependencyUpdate_bits i : N.testbit DependencyUpdate i = (i =? 61)%N.
Proof.
  unfold DependencyUpdate. change (64 - 1 - 2)%N with 61%N.
  rewrite N.shiftl_1_l, N.pow2_bits_eqb. apply N.eqb_sym.
Qed.

Lemma flags_testbit m :
  MarshalJSON m
  = {| jsonSourceChange := N.testbit m 63;
       jsonNewModule := N.testbit m 62;
       jsonDependencyUpdate := N.testbit m 61 |}.
Proof.
  unfold MarshalJSON, SourceChange, NewModule, DependencyUpdate.
  rewrite !flag_testbit. reflexivity.
Qed.

Lemma UnmarshalJSON_testbit m j i :
  N.testbit (UnmarshalJSON m j) i
  = N.testbit m i
    || (jsonSourceChange j && (i =? 63)%N)
    || (jsonNewModule j && (i =? 62)%N)
    || (jsonDependencyUpdate j && (i =? 61)%N).
Proof.
  unfold UnmarshalJSON.
  destruct j as [[] [] []]; cbn [jsonSourceChange jsonNewModule jsonDependencyUpdate];
    rewrite ?N.lor_spec, ?SourceChange_bits, ?NewModule_bits, ?DependencyUpdate_bits;
    cbn [andb]; rewrite ?orb_false_r; reflexivity.
Qed.

Lemma knownChanges_bits i :
  N.testbit knownChanges i = (i =? 63)%N || (i =? 62)%N || (i =? 61)%N.
Proof.
  unfold knownChanges.
  rewrite !N.lor_spec, SourceChange_bits, NewModule_bits, DependencyUpdate_bits.
  reflexivity.
Qed.

(** Unmarshalling into zero what was marshalled gives the named bits. *)
Lemma UnmarshalJSON_MarshalJSON m :
  UnmarshalJSON 0%N (MarshalJSON m) = N.land m knownChanges.
Proof.
  apply N.bits_inj. intros i.
  rewrite UnmarshalJSON_testbit, flags_testbit, N.land_spec, knownChanges_bits.
  cbn [jsonSourceChange jsonNewModule jsonDependencyUpdate].
  rewrite N.bits_0.
  destruct (N.eqb_spec i 63) as [-> | _];
    [destruct (N.testbit m 63), (N.testbit m 62), (N.testbit m 61); reflexivity|].
  destruct (N.eqb_spec i 62) as [-> | _];
    [destruct (N.testbit m 63), (N.testbit m 62), (N.testbit m 61); reflexivity|].
  destruct (N.eqb_spec i 61) as [-> | _];
    [destruct (N.testbit m 63), (N.testbit m 62), (N.testbit m 61); reflexivity|].
  rewrite !andb_false_r. reflexivity.
Qed.
End ChangeFacts.

Module ChangeProperties.
Import GoStrings Strconv Release ChangeDefs StrconvFacts ChangeFacts.

(** X11: the change bits and their JSON form.  Unmarshalling into a
    zero [ModuleChange] what [MarshalJSON] makes of a value gives back the
    three named bits of the value, which is the value itself when it has
    no other bit; marshalling what was unmarshalled into zero gives back the
    JSON value; and [UnmarshalJSON] sets bits of its receiver and clears
    none. *)
Theorem ModuleChange_json_round_trip m j :
  UnmarshalJSON 0%N (MarshalJSON m) = N.land m knownChanges /\
  MarshalJSON (UnmarshalJSON 0%N j) = j /\
  N.land m (UnmarshalJSON m j) = m.
Proof.
  pose proof (UnmarshalJSON_MarshalJSON m) as Hround.
  split; [exact Hround|]. split.
  - rewrite flags_testbit, !UnmarshalJSON_testbit, !N.bits_0.
    destruct j as [[] [] []]; reflexivity.
  - apply N.bits_inj. intros i.
    rewrite N.land_spec, UnmarshalJSON_testbit.
    destruct (N.testbit m i); reflexivity.
Qed.

(** X12: [ModuleChange.String] shows the three named bits and nothing
    else: two values have the same text exactly when they agree on these
    bits, and the text is empty exactly when none of them is set. *)
Theorem ModuleChangeString_flags m m' :
  (ModuleChangeString m = ModuleChangeString m' <->
   N.land m knownChanges = N.land m' knownChanges) /\
  (ModuleChangeString m = EmptyString <-> N.land m knownChanges = 0%N).
Proof.
  assert (forall x y, MarshalJSON x = MarshalJSON y <->
                      N.land x knownChanges = N.land y knownChanges) as Hjson.
  { intros x y. split.
    - intros Heq.
      rewrite <- (UnmarshalJSON_MarshalJSON x), <- (UnmarshalJSON_MarshalJSON y), Heq.
      reflexivity.
    - intros Heq. rewrite !flags_testbit.
      assert (forall i, N.testbit x i && N.testbit knownChanges i
                        = N.testbit y i && N.testbit knownChanges i) as Hbits.
      { intros i. rewrite <- !N.land_spec, Heq. reflexivity. }
      pose proof (Hbits 63%N) as H63. pose proof (Hbits 62%N) as H62.
      pose proof (Hbits 61%N) as H61.
      rewrite knownChanges_bits in H63, H62, H61. simpl in H63, H62, H61.
      rewrite !andb_true_r in *. congruence. }
  assert (forall x, ModuleChangeString x
                    = ModuleChangeString (N.land x knownChanges)) as Hmask.
  { intros x. unfold ModuleChangeString.
    assert (MarshalJSON x = MarshalJSON (N.land x knownChanges)) as Heq.
    { apply Hjson. rewrite <- N.land_assoc, N.land_diag. reflexivity. }
    unfold MarshalJSON in Heq. injection Heq as -> -> ->. reflexivity. }
  assert (forall x y, ModuleChangeString x = ModuleChangeString y ->
                      MarshalJSON x = MarshalJSON y) as Hinj.
  { intros x y. unfold ModuleChangeString, MarshalJSON.
    destruct (negb (N.land x SourceChange =? 0)%N),
             (negb (N.land x NewModule =? 0)%N),
             (negb (N.land x DependencyUpdate =? 0)%N),
             (negb (N.land y SourceChange =? 0)%N),
             (negb (N.land y NewModule =? 0)%N),
             (negb (N.land y DependencyUpdate =? 0)%N);
      vm_compute; intros Heq; try reflexivity; discriminate. }
  split.
  - rewrite <- Hjson. split; [apply Hinj|].
    intros Heq. unfold ModuleChangeString. unfold MarshalJSON in Heq.
    injection Heq as -> -> ->. reflexivity.
  - change EmptyString with (ModuleChangeString 0%N). split.
    + intros Heq. apply Hinj, Hjson in Heq. rewrite Heq. apply N.land_0_l.
    + intros Heq. rewrite Hmask, Heq. reflexivity.
Qed.
End ChangeProperties.

Module VersionProperties.
Import GoStrings Strconv Release StrconvDefs StrconvFacts PathFacts.

(** X13: [incrementStrInt] fails exactly when [strconv.Atoi] cannot read
    the string, with the error of [Atoi]; otherwise the string it stores
    reads back as the number plus one, and as the least [int] when the
    number was the greatest one. *)
Theorem incrementStrInt_successor v :
  match incrementStrInt v with
  | Ok v' =>
      exists i, Atoi v = Some i /\
                Atoi v' = Some (if (i =? maxInt)%Z then minInt else (i + 1)%Z)
  | Err e => e = AtoiError /\ Atoi v = None
  end.
Proof.
  unfold incrementStrInt. destruct (Atoi v) as [i|] eqn:Hv; [|auto].
  exists i. split; [reflexivity|].
  rewrite Atoi_Itoa by apply wrapInt_range. f_equal.
  apply Atoi_range in Hv.
  destruct (Z.eqb_spec i maxInt) as [-> | Hne].
  - reflexivity.
  - apply wrapInt_small. unfold minInt, maxInt in *. lia.
Qed.

(** X14: [incrementPrerelease] on a pre-release tag that ends in a dot
    and a number, and that starts with the identifier (a dash is put
    before an identifier that does not end in one), keeps the tag and
    counts the number up by one. *)
Theorem incrementPrerelease_number pre n identifier :
  HasPrefix (pre +:+ "." +:+ Itoa n)
    (if HasSuffix identifier "-" then identifier else "-" +:+ identifier) = true ->
  (minInt <= n < maxInt)%Z ->
  incrementPrerelease (pre +:+ "." +:+ Itoa n) identifier
  = Ok (pre +:+ "." +:+ Itoa (n + 1)).
Proof.
  intros Hprefix Hn. unfold incrementPrerelease.
  destruct (HasSuffix identifier "-") eqn:Hsuf; cbn [negb];
    rewrite Hprefix, andb_false_r.
  all: assert (LastIndex (pre +:+ "." +:+ Itoa n) "."%char
               = Some (String.length pre)) as Hlast.
  1, 3: unfold LastIndex;
        rewrite <- append_assoc;
        rewrite lastIndexFrom_none_app by apply lastIndexFrom_Itoa;
        rewrite lastIndexFrom_snoc; reflexivity.
  all: rewrite Hlast.
  all: assert (String.length pre + 1 = String.length (pre +:+ ".")) as Hlen
         by (rewrite length_append; reflexivity).
  all: rewrite Hlen.
  all: replace (String.length (pre +:+ "." +:+ Itoa n) - String.length (pre +:+ "."))
         with (String.length (Itoa n))
         by (rewrite <- append_assoc, length_append; lia).
  all: rewrite <- !append_assoc.
  all: rewrite substring_append_r, substring_append_l.
  all: rewrite Atoi_Itoa by (unfold minInt, maxInt in *; lia).
  all: rewrite wrapInt_small by (unfold minInt, maxInt in *; lia).
  all: reflexivity.
Qed.

Lemma incrementPrerelease_number_witness :
  HasPrefix ("-preview" +:+ "." +:+ Itoa 1)
    (if HasSuffix "preview" "-" then "preview" else "-" +:+ "preview") = true /\
  (minInt <= 1 < maxInt)%Z /\
  incrementPrerelease ("-preview" +:+ "." +:+ Itoa 1) "preview"
  = Ok ("-preview" +:+ "." +:+ Itoa (1 + 1)).
Proof.
  assert (HasPrefix ("-preview" +:+ "." +:+ Itoa 1)
            (if HasSuffix "preview" "-" then "preview" else "-" +:+ "preview") = true)
    as Hprefix by (vm_compute; reflexivity).
  assert (minInt <= 1 < maxInt)%Z as Hn by (unfold minInt, maxInt; lia).
  split; [exact Hprefix|]. split; [exact Hn|].
  exact (incrementPrerelease_number "-preview" 1 "preview" Hprefix Hn).
Defined.
End VersionProperties.

Module PropagationFacts.
Import Repotools Release GraphFacts Propagation GoStrings.

Section Loop.
Variables (g : gmap string (list string)) (modules0 : gmap string Module).
Hypothesis g_edges :
  forall r d, d ∈ dependentsOf g r ->
              exists m, modules0 !! d = Some m /\ r ∈ Require (File m) /\
                        is_Some (modules0 !! r).
Hypothesis g_nonEmpty : nonEmptyLists g.

(** More rounds than the work left do not change what the loop
    returns. *)
Lemma visitAll_rounds r1 : forall r2 st,
  Inv g modules0 None st -> workLeft st <= r1 -> workLeft st <= r2 ->
  visitAll r1 g st = visitAll r2 g st.
Proof.
  induction r1 as [|r1 IH]; intros r2 [tv ms] Hinv H1 H2.
  - destruct tv as [|current rest].
    + destruct r2; reflexivity.
    + unfold workLeft in H1. simpl in H1. lia.
  - destruct tv as [|current rest].
    + destruct r2; reflexivity.
    + destruct r2 as [|r2]; [unfold workLeft in H2; simpl in H2; lia|].
      simpl.
      pose proof (visit_spec g modules0 g_edges g_nonEmpty current rest ms Hinv)
        as Hvisit.
      destruct (visit g current {| toVisit := rest; mods := ms |}) as [st'|e];
        [|reflexivity].
      destruct Hvisit as [Hinv' Hwork'].
      apply IH; [assumption| |]; unfold workLeft in *; simpl in *; lia.
Qed.

(** The module the loop stops at with an error has a change at the
    start or depends on a module that has one. *)
Lemma visitAll_error rounds : forall st e,
  Inv g modules0 None st ->
  snd (visitAll rounds g st) = Some e ->
  exists current m0,
    modules0 !! current = Some m0 /\ NoTag (ModuleConfig m0) = true /\
    (changedAtStart modules0 current \/ dependsOnChange modules0 current) /\
    dependentsOf g current <> [] /\
    e = UntaggedModuleHasDependents current (length (dependentsOf g current)).
Proof.
  induction rounds as [|rounds IH]; intros [tv ms] e Hinv Herr.
  - destruct tv; discriminate.
  - destruct tv as [|current rest]; [discriminate|]. simpl in Herr.
    pose proof (visit_spec g modules0 g_edges g_nonEmpty current rest ms Hinv)
      as Hvisit.
    destruct (visit g current {| toVisit := rest; mods := ms |}) as [st'|e'].
    + destruct Hvisit as [Hinv' _]. eapply IH; eassumption.
    + simpl in Herr. inversion Herr; subst e'.
      destruct Hvisit as (m & Hm & Hc & Hnotag & Hdeps & ->).
      assert (changedAtStart modules0 current \/ dependsOnChange modules0 current)
        as Hsource by (eapply Inv_changed; [exact Hinv|exact Hm|exact Hc]).
      destruct Hinv as (Hev & _).
      destruct (evolves_lookup_inv _ _ _ _ Hev Hm) as (m0 & Hm0 & Hmark).
      apply marked_fields in Hmark as (_ & Hcfg & _).
      exists current, m0. rewrite <- Hcfg. auto.
Qed.
End Loop.
End PropagationFacts.

Module PropagationProperties.
Import Repotools Release GraphFacts Propagation GoStrings PropagationFacts Examples.
Import PropagationClaims.

Section Start.
Variables (order : list string) (modules : gmap string Module).

Local Abbreviation graph := (buildInverseDependencyGraph order modules).
Local Abbreviation start :=
  {| toVisit := SortStrings (map fst (map_to_list graph)); mods := modules |}.

Lemma Inv_start : Inv graph modules None start.
Proof.
  split; [apply evolves_refl|]. split; [intros k; apply toVisit_keys|].
  split.
  - intros k m ds _ Hk Hc Hg. left. apply toVisit_keys. eauto.
  - intros k Hk. left. assumption.
Qed.

Lemma workLeft_start :
  workLeft start <= 2 * size modules + length (toVisit start).
Proof.
  unfold workLeft. simpl.
  pose proof (map_subseteq_size _ _ (map_filter_subseteq unflagged modules)).
  lia.
Qed.

Lemma CalculateDependencyUpdates_loop :
  CalculateDependencyUpdates order modules
  = (mods (fst (visitAll (2 * size modules + length (toVisit start)) graph start)),
     snd (visitAll (2 * size modules + length (toVisit start)) graph start)).
Proof.
  unfold CalculateDependencyUpdates. cbn [toVisit].
  destruct (visitAll _ _ _) as [st err]. reflexivity.
Qed.

(** When the propagation ends without error, every module that depends
    on a module with a change carries the flag. *)
Lemma flags_complete modules' :
  RangeOrder order modules ->
  evolves modules modules' ->
  (forall k m ds, modules' !! k = Some m -> Changes m <> 0%N ->
                  graph !! k = Some ds ->
                  NoTag (ModuleConfig m) = false /\
                  forall d, d ∈ ds -> flagged modules' d) ->
  forall x r, dependsOn modules x r ->
              (exists m', modules' !! r = Some m' /\ Changes m' <> 0%N) ->
              flagged modules' x.
Proof.
  intros Horder Hev Hclosed x r Hdep.
  induction Hdep as [x r m Hx Hreq Hr | x y r _ IH1 _ IH2]; intros Hchanged.
  - destruct Hchanged as (m' & Hm' & Hc).
    destruct (graph_edge order modules x m r Horder Hx Hreq Hr) as (ds & Hds & Hin).
    destruct (Hclosed r m' ds Hm' Hc Hds) as [_ Hall]. auto.
  - apply IH1. apply flagged_changed. apply IH2. assumption.
Qed.
End Start.

(** X15: the inverse dependency graph.  For every order in which the
    loop visits the modules, a module [d] is among the dependents the
    graph lists for [r] exactly when [d] is a module of the map, requires
    [r], and [r] is a module of the map; the graph has an entry exactly
    for the modules that have a dependent, and no entry with an empty
    list. *)
Theorem inverse_graph order modules :
  RangeOrder order modules ->
  (forall r d,
     d ∈ dependentsOf (buildInverseDependencyGraph order modules) r <->
     exists m, modules !! d = Some m /\ r ∈ Require (File m) /\
               is_Some (modules !! r)) /\
  (forall r, is_Some (buildInverseDependencyGraph order modules !! r) <->
             exists d m, modules !! d = Some m /\ r ∈ Require (File m) /\
                         is_Some (modules !! r)) /\
  (forall r, buildInverseDependencyGraph order modules !! r <> Some []).
Proof.
  intros [Hnodup Horder].
  destruct (buildInverseDependencyGraph_spec order modules) as [Hne Hmem].
  assert (forall r d,
            d ∈ dependentsOf (buildInverseDependencyGraph order modules) r <->
            exists m, modules !! d = Some m /\ r ∈ Require (File m) /\
                      is_Some (modules !! r)) as Hedges.
  { intros r d. rewrite Hmem. split.
    - intros (m & _ & Hm). eauto.
    - intros (m & Hm & Hrest). exists m. split; [apply Horder; eauto|auto]. }
  split; [exact Hedges|]. split.
  - intros r. rewrite (dependentsOf_is_Some _ r Hne). split.
    + intros Hds.
      destruct (dependentsOf (buildInverseDependencyGraph order modules) r)
        as [|d ds] eqn:Hdeps; [congruence|].
      assert (d ∈ dependentsOf (buildInverseDependencyGraph order modules) r) as Hd
        by (rewrite Hdeps; left).
      apply Hedges in Hd as (m & Hm). eauto.
    + intros (d & m & Hm). intros Hnil.
      assert (d ∈ dependentsOf (buildInverseDependencyGraph order modules) r) as Hd
        by (apply Hedges; eauto).
      rewrite Hnil in Hd. inversion Hd.
  - intros r Hr. apply (Hne r [] Hr). reflexivity.
Qed.

Lemma inverse_graph_witness :
  RangeOrder (orderOf chainModules) chainModules /\
  ((forall r d,
      d ∈ dependentsOf (buildInverseDependencyGraph (orderOf chainModules) chainModules) r <->
      exists m, chainModules !! d = Some m /\ r ∈ Require (File m) /\
                is_Some (chainModules !! r)) /\
   (forall r,
      is_Some (buildInverseDependencyGraph (orderOf chainModules) chainModules !! r) <->
      exists d m, chainModules !! d = Some m /\ r ∈ Require (File m) /\
                  is_Some (chainModules !! r)) /\
   (forall r,
      buildInverseDependencyGraph (orderOf chainModules) chainModules !! r <> Some [])).
Proof.
  split; [apply RangeOrder_map_to_list|].
  exact (inverse_graph (orderOf chainModules) chainModules
           (RangeOrder_map_to_list chainModules)).
Defined.

(** X16: which modules [CalculateDependencyUpdates] flags.  When it
    returns without error, for every order of the map, a module carries
    the dependency-updated flag exactly when it carried it before or
    depends, through requirements among the modules of the map, on a
    module that had a change; the map has the same modules, and a module
    is as before or has this one flag added to its changes. *)
Theorem propagation_flags order modules modules' :
  RangeOrder order modules ->
  CalculateDependencyUpdates order modules = (modules', None) ->
  (forall k, flagged modules' k <-> flagged modules k \/ dependsOnChange modules k) /\
  (forall k, is_Some (modules' !! k) <-> is_Some (modules !! k)) /\
  (forall k m m', modules !! k = Some m -> modules' !! k = Some m' ->
                  m' = m \/ m' = setChanges m (N.lor (Changes m) DependencyUpdate)).
Proof.
  intros Horder Hcalc.
  pose proof (CalculateDependencyUpdates_spec order modules) as Hspec.
  rewrite Hcalc in Hspec. simpl in Hspec.
  destruct Hspec as (Hev & Hclosed & Hprov).
  split; [|split].
  - intros k. split; [apply Hprov|].
    intros [(m & Hm & Hf) | (a & (ma & Hma & Hca) & Hdep)].
    + destruct (evolves_lookup _ _ _ _ Hev Hm) as (m' & Hm' & Hmark).
      exists m'. split; [assumption|].
      apply marked_fields in Hmark as (_ & _ & Hkeep).
      intros Hz. apply Hf.
      apply N.bits_inj. intros i. rewrite N.land_spec, N.bits_0.
      assert (N.testbit (N.land (Changes m') DependencyUpdate) i = false) as Hbit
        by (rewrite Hz; apply N.bits_0).
      rewrite N.land_spec in Hbit.
      assert (N.testbit (Changes m) i
              = N.testbit (Changes m) i && N.testbit (Changes m') i) as Hm_i
        by (rewrite <- N.land_spec, Hkeep; reflexivity).
      rewrite Hm_i. destruct (N.testbit (Changes m) i), (N.testbit (Changes m') i),
        (N.testbit DependencyUpdate i); simpl in *; congruence.
    + eapply (flags_complete order modules modules' Horder Hev Hclosed); [exact Hdep|].
      destruct (evolves_lookup _ _ _ _ Hev Hma) as (ma' & Hma' & Hmark).
      exists ma'. split; [assumption|]. eapply marked_nonzero; eassumption.
  - intros k. specialize (Hev k). split; intros [x Hx]; rewrite Hx in Hev;
      inversion Hev; eauto.
  - intros k m m' Hm Hm'. specialize (Hev k). rewrite Hm, Hm' in Hev.
    inversion Hev; subst. assumption.
Qed.

Lemma propagation_flags_witness :
  RangeOrder (orderOf cycleModules) cycleModules /\
  CalculateDependencyUpdates (orderOf cycleModules) cycleModules
  = (fst (CalculateDependencyUpdates (orderOf cycleModules) cycleModules), None) /\
  ((forall k,
      flagged (fst (CalculateDependencyUpdates (orderOf cycleModules) cycleModules)) k <->
      flagged cycleModules k \/ dependsOnChange cycleModules k) /\
   (forall k,
      is_Some (fst (CalculateDependencyUpdates (orderOf cycleModules) cycleModules) !! k)
      <-> is_Some (cycleModules !! k)) /\
   (forall k m m',
      cycleModules !! k = Some m ->
      fst (CalculateDependencyUpdates (orderOf cycleModules) cycleModules) !! k = Some m' ->
      m' = m \/ m' = setChanges m (N.lor (Changes m) DependencyUpdate))).
Proof.
  assert (CalculateDependencyUpdates (orderOf cycleModules) cycleModules
          = (fst (CalculateDependencyUpdates (orderOf cycleModules) cycleModules), None))
    as Hcalc.
  { assert (snd (CalculateDependencyUpdates (orderOf cycleModules) cycleModules) = None)
      as Hnone by (vm_compute; reflexivity).
    destruct (CalculateDependencyUpdates (orderOf cycleModules) cycleModules).
    simpl in *. congruence. }
  split; [apply RangeOrder_map_to_list|]. split; [exact Hcalc|].
  exact (propagation_flags (orderOf cycleModules) cycleModules _
           (RangeOrder_map_to_list cycleModules) Hcalc).
Defined.

(** X17: when [CalculateDependencyUpdates] fails.  For every order of
    the map it returns an error exactly when some module of the map is
    exempt from tagging, is required by a module of the map, and has a
    change or depends on a module that has one; the error names a module
    of this kind and the number of its dependents. *)
Theorem propagation_error order modules :
  RangeOrder order modules ->
  (snd (CalculateDependencyUpdates order modules) <> None <->
   exists k m d md,
     modules !! k = Some m /\ NoTag (ModuleConfig m) = true /\
     (changedAtStart modules k \/ dependsOnChange modules k) /\
     modules !! d = Some md /\ k ∈ Require (File md)) /\
  (forall e,
     snd (CalculateDependencyUpdates order modules) = Some e ->
     exists k m,
       modules !! k = Some m /\ NoTag (ModuleConfig m) = true /\
       (changedAtStart modules k \/ dependsOnChange modules k) /\
       dependentsOf (buildInverseDependencyGraph order modules) k <> [] /\
       e = UntaggedModuleHasDependents k
             (length (dependentsOf (buildInverseDependencyGraph order modules) k))).
Proof.
  intros Horder.
  assert (forall e,
     snd (CalculateDependencyUpdates order modules) = Some e ->
     exists k m,
       modules !! k = Some m /\ NoTag (ModuleConfig m) = true /\
       (changedAtStart modules k \/ dependsOnChange modules k) /\
       dependentsOf (buildInverseDependencyGraph order modules) k <> [] /\
       e = UntaggedModuleHasDependents k
             (length (dependentsOf (buildInverseDependencyGraph order modules) k)))
    as Herror.
  { intros e He. unfold CalculateDependencyUpdates in He.
    destruct (visitAll _ _ _) as [st err] eqn:Hloop. simpl in He. subst err.
    eapply (visitAll_error _ modules (graph_edges order modules)
              (proj1 (buildInverseDependencyGraph_spec order modules))).
    - apply Inv_start.
    - rewrite Hloop. reflexivity. }
  split; [|exact Herror]. split.
  - intros Hsome.
    destruct (snd (CalculateDependencyUpdates order modules)) as [e|] eqn:He;
      [|congruence].
    destruct (Herror e eq_refl) as (k & m & Hm & Hnotag & Hsource & Hdeps & _).
    destruct (dependentsOf (buildInverseDependencyGraph order modules) k)
      as [|d ds] eqn:Hds; [congruence|].
    destruct (graph_edges order modules k d) as (md & Hmd & Hreq & _);
      [rewrite Hds; left|].
    exists k, m, d, md. auto.
  - intros (k & m & d & md & Hm & Hnotag & Hsource & Hmd & Hreq) Hnone.
    pose proof (CalculateDependencyUpdates_spec order modules) as Hspec.
    rewrite Hnone in Hspec. simpl in Hspec.
    destruct Hspec as (Hev & Hclosed & _).
    destruct (evolves_lookup _ _ _ _ Hev Hm) as (m' & Hm' & Hmark).
    destruct (graph_edge order modules d md k Horder Hmd Hreq) as (ds & Hds & _);
      [eauto|].
    assert (Changes m' <> 0%N) as Hc.
    { destruct Hsource as [(m0 & Hm0 & Hc0) | (a & (ma & Hma & Hca) & Hdep)].
      - rewrite Hm in Hm0. inversion Hm0; subst m0.
        eapply marked_nonzero; eassumption.
      - assert (flagged (fst (CalculateDependencyUpdates order modules)) k) as Hf.
        { eapply (flags_complete order modules _ Horder Hev Hclosed); [exact Hdep|].
          destruct (evolves_lookup _ _ _ _ Hev Hma) as (ma' & Hma' & Hmark').
          exists ma'. split; [assumption|]. eapply marked_nonzero; eassumption. }
        apply flagged_changed in Hf as (m1 & Hm1 & Hc1). congruence. }
    destruct (Hclosed k m' ds Hm' Hc Hds) as [Hno _].
    apply marked_fields in Hmark as (_ & Hcfg & _). congruence.
Qed.

Lemma propagation_error_witness :
  RangeOrder (orderOf untaggedModules) untaggedModules /\
  ((snd (CalculateDependencyUpdates (orderOf untaggedModules) untaggedModules) <> None <->
    exists k m d md,
      untaggedModules !! k = Some m /\ NoTag (ModuleConfig m) = true /\
      (changedAtStart untaggedModules k \/ dependsOnChange untaggedModules k) /\
      untaggedModules !! d = Some md /\ k ∈ Require (File md)) /\
   (forall e,
      snd (CalculateDependencyUpdates (orderOf untaggedModules) untaggedModules) = Some e ->
      exists k m,
        untaggedModules !! k = Some m /\ NoTag (ModuleConfig m) = true /\
        (changedAtStart untaggedModules k \/ dependsOnChange untaggedModules k) /\
        dependentsOf
          (buildInverseDependencyGraph (orderOf untaggedModules) untaggedModules) k <> [] /\
        e = UntaggedModuleHasDependents k
              (length
                 (dependentsOf
                    (buildInverseDependencyGraph (orderOf untaggedModules) untaggedModules)
                    k)))).
Proof.
  split; [apply RangeOrder_map_to_list|].
  exact (propagation_error (orderOf untaggedModules) untaggedModules
           (RangeOrder_map_to_list untaggedModules)).
Defined.

(** X18: the loop of [CalculateDependencyUpdates] ends, whether or not
    the requirements run in a circle: after at most two rounds for every
    module and one for every module that has a dependent it has stopped
    in an error or with nothing left to visit, and more rounds give the
    same modules and the same error. *)
Theorem propagation_terminates order modules rounds :
  let g := buildInverseDependencyGraph order modules in
  let st := {| toVisit := SortStrings (map fst (map_to_list g)); mods := modules |} in
  2 * size modules + length (toVisit st) <= rounds ->
  visitAll rounds g st = visitAll (2 * size modules + length (toVisit st)) g st /\
  (snd (visitAll rounds g st) <> None \/ toVisit (fst (visitAll rounds g st)) = []) /\
  (fst (visitAll rounds g st)).(mods) = fst (CalculateDependencyUpdates order modules) /\
  snd (visitAll rounds g st) = snd (CalculateDependencyUpdates order modules).
Proof.
  intros g st Hrounds.
  pose proof (workLeft_start order modules) as Hwork.
  pose proof (CalculateDependencyUpdates_loop order modules) as Hloop.
  fold g in Hwork, Hloop. fold st in Hwork, Hloop.
  assert (visitAll rounds g st
          = visitAll (2 * size modules + length (toVisit st)) g st) as Heq.
  { apply (visitAll_rounds g modules (graph_edges order modules)
             (proj1 (buildInverseDependencyGraph_spec order modules))).
    - apply Inv_start.
    - lia.
    - lia. }
  split; [exact Heq|]. rewrite Heq, Hloop. split.
  - apply CalculateDependencyUpdates_ends.
  - split; reflexivity.
Qed.

Lemma propagation_terminates_witness :
  let g := buildInverseDependencyGraph (orderOf cycleModules) cycleModules in
  let st := {| toVisit := SortStrings (map fst (map_to_list g)); mods := cycleModules |} in
  2 * size cycleModules + length (toVisit st) <= 100 /\
  (visitAll 100 g st = visitAll (2 * size cycleModules + length (toVisit st)) g st /\
   (snd (visitAll 100 g st) <> None \/ toVisit (fst (visitAll 100 g st)) = []) /\
   (fst (visitAll 100 g st)).(mods)
   = fst (CalculateDependencyUpdates (orderOf cycleModules) cycleModules) /\
   snd (visitAll 100 g st)
   = snd (CalculateDependencyUpdates (orderOf cycleModules) cycleModules)).
Proof.
  intros g st.
  assert (2 * size cycleModules + length (toVisit st) <= 100) as Hrounds
    by (vm_compute; lia).
  split; [exact Hrounds|].
  exact (propagation_terminates (orderOf cycleModules) cycleModules 100 Hrounds).
Defined.
End PropagationProperties.

Module ManifestFacts.
Import Changelog Repotools Release GoStrings GraphFacts ManifestDefs DiffFacts.

Lemma rangeMap_keys_sublist {V} (order : list string) (m : gmap string V) :
  map fst (rangeMap order m) `sublist_of` order.
Proof.
  unfold rangeMap. induction order as [|k order IH]; simpl; [constructor|].
  destruct (m !! k); simpl.
  - apply sublist_skip. assumption.
  - apply sublist_cons. assumption.
Qed.

(** A loop over a map sees the entries of the map, each once. *)
Lemma rangeMap_perm {V} (order : list string) (m : gmap string V) :
  RangeOrder order m -> rangeMap order m ≡ₚ map_to_list m.
Proof.
  intros [Hnodup Hkeys]. apply NoDup_Permutation.
  - apply (NoDup_fmap_1 fst).
    exact (sublist_NoDup _ _ Hnodup (rangeMap_keys_sublist order m)).
  - apply NoDup_map_to_list.
  - intros [k v]. rewrite elem_of_rangeMap, elem_of_map_to_list.
    rewrite Hkeys. split; [tauto|]. intros Hk. split; eauto.
Qed.

Section AnyPackages.
Context `{Packages}.
Variables (verbose : bool) (preRelease : string).

Lemma addModule_entry rm modulePath mod' rm' :
  addModule verbose preRelease rm modulePath mod' = Ok rm' ->
  (released mod' = false /\ rm' = rm) \/
  (released mod' = true /\
   exists nextVersion moduleTag,
     CalculateNextVersion modulePath (Latest mod') (ModuleConfig mod')
       (ChangeAnnotations mod') preRelease = Ok nextVersion /\
     gitToModuleTag (RelativeRepoPath mod') nextVersion = Ok moduleTag /\
     manifestModules rm'
     = <[RelativeRepoPath mod' := manifestEntry verbose modulePath mod' nextVersion]>
         (manifestModules rm) /\
     Tags rm' = Tags rm ++ [moduleTag]).
Proof.
  unfold addModule, released.
  destruct ((Changes mod' =? 0)%N || NoTag (ModuleConfig mod')); simpl.
  - intros [= <-]. auto.
  - destruct (CalculateNextVersion _ _ _ _ _) as [next|] eqn:Hnext; [|discriminate].
    destruct (gitToModuleTag _ _) as [tag|] eqn:Htag; [|discriminate].
    intros [= <-]. simpl. right. split; [reflexivity|].
    exists next, tag. split; [reflexivity|]. split; [assumption|].
    split; reflexivity.
Qed.

(** What the loop of [BuildReleaseManifest] adds to the manifest. *)
Lemma addModules_entries entries : forall rm rm',
  addModules verbose preRelease rm entries = Ok rm' ->
  (forall p mm,
     manifestModules rm' !! p = Some mm ->
     manifestModules rm !! p = Some mm \/
     exists modulePath mod' nextVersion,
       (modulePath, mod') ∈ entries /\ released mod' = true /\
       RelativeRepoPath mod' = p /\
       CalculateNextVersion modulePath (Latest mod') (ModuleConfig mod')
         (ChangeAnnotations mod') preRelease = Ok nextVersion /\
       mm = manifestEntry verbose modulePath mod' nextVersion) /\
  (forall tag,
     tag ∈ Tags rm' ->
     tag ∈ Tags rm \/
     exists modulePath mod' nextVersion,
       (modulePath, mod') ∈ entries /\ released mod' = true /\
       CalculateNextVersion modulePath (Latest mod') (ModuleConfig mod')
         (ChangeAnnotations mod') preRelease = Ok nextVersion /\
       gitToModuleTag (RelativeRepoPath mod') nextVersion = Ok tag) /\
  (forall tag, tag ∈ Tags rm -> tag ∈ Tags rm') /\
  (forall p, is_Some (manifestModules rm !! p) -> is_Some (manifestModules rm' !! p)) /\
  (forall modulePath mod',
     (modulePath, mod') ∈ entries -> released mod' = true ->
     exists nextVersion moduleTag,
       CalculateNextVersion modulePath (Latest mod') (ModuleConfig mod')
         (ChangeAnnotations mod') preRelease = Ok nextVersion /\
       gitToModuleTag (RelativeRepoPath mod') nextVersion = Ok moduleTag /\
       moduleTag ∈ Tags rm' /\
       is_Some (manifestModules rm' !! RelativeRepoPath mod')) /\
  length (Tags rm')
  = length (Tags rm) + length (List.filter (fun kv => released (snd kv)) entries).
Proof.
  induction entries as [|[k mod'] entries IH]; intros rm rm' Heq; simpl in Heq.
  - inversion Heq; subst.
    split; [auto|]. split; [auto|]. split; [auto|]. split; [auto|]. split.
    + intros ? ? Hin. inversion Hin.
    + simpl. lia.
  - destruct (addModule verbose preRelease rm k mod') as [rm1|] eqn:Hadd;
      [|discriminate].
    apply addModule_entry in Hadd.
    apply IH in Heq as (Hfrom & Htags & Hkeeptags & Hkeep & Hcover & Hlen).
    destruct Hadd as [[Hno ->] | (Hyes & next & tag & Hnext & Htag & Hmods & Htags1)].
    + split; [|split; [|split; [|split; [|split]]]].
      * intros p mm Hp. destruct (Hfrom p mm Hp) as [? | (k' & m' & n' & Hin & ?)];
          [auto|]. right. exists k', m', n'. split; [right; assumption|assumption].
      * intros t Ht. destruct (Htags t Ht) as [? | (k' & m' & n' & Hin & ?)];
          [auto|]. right. exists k', m', n'. split; [right; assumption|assumption].
      * assumption.
      * assumption.
      * intros k' m' Hin Hrel. apply elem_of_cons in Hin as [[= -> ->] | Hin];
          [congruence|]. eapply Hcover; eassumption.
      * simpl. rewrite Hno. assumption.
    + split; [|split; [|split; [|split; [|split]]]].
      * intros p mm Hp. destruct (Hfrom p mm Hp) as [Hp1 | (k' & m' & n' & Hin & ?)].
        -- rewrite Hmods, lookup_insert in Hp1. case_decide.
           ++ inversion Hp1; subst. right. exists k, mod', next.
              split; [left|]. auto.
           ++ auto.
        -- right. exists k', m', n'. split; [right; assumption|assumption].
      * intros t Ht. destruct (Htags t Ht) as [Ht1 | (k' & m' & n' & Hin & ?)].
        -- rewrite Htags1 in Ht1. apply elem_of_app in Ht1 as [? | Ht1]; [auto|].
           apply list_elem_of_singleton in Ht1. subst t.
           right. exists k, mod', next. split; [left|]. auto.
        -- right. exists k', m', n'. split; [right; assumption|assumption].
      * intros t Ht. apply Hkeeptags. rewrite Htags1. apply elem_of_app. auto.
      * intros p Hp. apply Hkeep. rewrite Hmods, lookup_insert.
        case_decide; eauto.
      * intros k' m' Hin Hrel. apply elem_of_cons in Hin as [[= -> ->] | Hin].
        -- exists next, tag. split; [assumption|]. split; [assumption|]. split.
           ++ apply Hkeeptags. rewrite Htags1. apply elem_of_app. right. left.
           ++ apply Hkeep. rewrite Hmods, lookup_insert_eq. eauto.
        -- eapply Hcover; eassumption.
      * simpl. rewrite Hyes. simpl. rewrite Hlen, Htags1, length_app. simpl. lia.
Qed.

(** [BuildReleaseManifest] returns the modules and, sorted, the tags of
    its loop. *)
Lemma BuildReleaseManifest_loop order order' moduleTree id modules rm :
  BuildReleaseManifest order order' moduleTree id modules verbose preRelease = Ok rm ->
  exists rm1,
    addModules verbose preRelease
      {| manifestID := id; WithReleaseTag := true; manifestModules := ∅; Tags := [] |}
      (rangeMap order modules) = Ok rm1 /\
    manifestModules rm = manifestModules rm1 /\
    Tags rm = SortStrings (Tags rm1).
Proof.
  unfold BuildReleaseManifest.
  destruct (addModules _ _ _ _) as [rm1|]; [|discriminate].
  intros Hbuild. exists rm1. split; [reflexivity|].
  destruct (Gomod.List moduleTree) as [|root [|n2 l]].
  - inversion Hbuild; subst. auto.
  - destruct (manifestModules rm1 !! Gomod.Path root).
    + inversion Hbuild; subst. auto.
    + destruct (FindModuleViaRelativeRepoPath order' modules (Gomod.Path root));
        [|discriminate].
      inversion Hbuild; subst. auto.
  - inversion Hbuild; subst. auto.
Qed.
End AnyPackages.
End ManifestFacts.

Module ManifestProperties.
Import Changelog Repotools Release GoStrings GraphFacts ManifestDefs DiffFacts.
Import ManifestFacts Examples.

(** X19: [FindModuleViaRelativeRepoPath] returns a module of the map
    that has the relative path, and returns nothing exactly when no module
    of the map has it; when at most one module has the path, every order
    in which the loop visits the map gives the same module. *)
Theorem FindModule_spec order modules relPath :
  RangeOrder order modules ->
  match FindModuleViaRelativeRepoPath order modules relPath with
  | Some mod' =>
      RelativeRepoPath mod' = relPath /\ exists k, modules !! k = Some mod'
  | None => forall k mod', modules !! k = Some mod' -> RelativeRepoPath mod' <> relPath
  end /\
  ((forall k k' m m', modules !! k = Some m -> modules !! k' = Some m' ->
                      RelativeRepoPath m = relPath -> RelativeRepoPath m' = relPath ->
                      k = k') ->
   forall order', RangeOrder order' modules ->
     FindModuleViaRelativeRepoPath order' modules relPath
     = FindModuleViaRelativeRepoPath order modules relPath).
Proof.
  assert (forall o, RangeOrder o modules ->
    match FindModuleViaRelativeRepoPath o modules relPath with
    | Some mod' =>
        RelativeRepoPath mod' = relPath /\ exists k, modules !! k = Some mod'
    | None => forall k mod', modules !! k = Some mod' -> RelativeRepoPath mod' <> relPath
    end) as Hfind.
  { intros o [_ Hkeys]. unfold FindModuleViaRelativeRepoPath.
    destruct (find _ (rangeMap o modules)) as [[k m]|] eqn:Hf; simpl.
    - apply find_some in Hf as [Hin Heq].
      apply list_elem_of_In, elem_of_rangeMap in Hin as [_ Hk].
      apply String.eqb_eq in Heq. eauto.
    - intros k m Hk Hrel.
      pose proof (find_none _ _ Hf (k, m)) as Hnone. simpl in Hnone.
      rewrite Hrel, String.eqb_refl in Hnone.
      assert (false = true); [|discriminate]. symmetry. apply Hnone.
      apply list_elem_of_In, elem_of_rangeMap. split; [apply Hkeys; eauto|assumption]. }
  intros Horder. split; [apply Hfind; assumption|].
  intros Huniq order' Horder'.
  pose proof (Hfind order Horder) as H1. pose proof (Hfind order' Horder') as H2.
  destruct (FindModuleViaRelativeRepoPath order modules relPath) as [m|],
           (FindModuleViaRelativeRepoPath order' modules relPath) as [m'|].
  - destruct H1 as (Hr & k & Hk), H2 as (Hr' & k' & Hk').
    assert (k' = k) as -> by (eapply Huniq; eassumption). congruence.
  - destruct H1 as (Hr & k & Hk). exfalso. eapply H2; eassumption.
  - destruct H2 as (Hr & k & Hk). exfalso. eapply H1; eassumption.
  - reflexivity.
Qed.

Lemma smithy_RangeOrder noTag :
  RangeOrder ["github.com/aws/smithy-go"] (smithyModules noTag).
Proof.
  split; [repeat constructor; intros Hin; inversion Hin|].
  intros k. unfold smithyModules. rewrite list_elem_of_singleton.
  rewrite lookup_singleton_is_Some. split; congruence.
Qed.

Lemma FindModule_spec_witness :
  RangeOrder ["github.com/aws/smithy-go"] (smithyModules false) /\
  (match FindModuleViaRelativeRepoPath ["github.com/aws/smithy-go"]
           (smithyModules false) "." with
   | Some mod' =>
       RelativeRepoPath mod' = "." /\ exists k, smithyModules false !! k = Some mod'
   | None => forall k mod', smithyModules false !! k = Some mod' ->
                            RelativeRepoPath mod' <> "."
   end /\
   ((forall k k' m m', smithyModules false !! k = Some m ->
                       smithyModules false !! k' = Some m' ->
                       RelativeRepoPath m = "." -> RelativeRepoPath m' = "." ->
                       k = k') ->
    forall order', RangeOrder order' (smithyModules false) ->
      FindModuleViaRelativeRepoPath order' (smithyModules false) "."
      = FindModuleViaRelativeRepoPath ["github.com/aws/smithy-go"]
          (smithyModules false) ".")).
Proof.
  split; [apply smithy_RangeOrder|].
  exact (FindModule_spec ["github.com/aws/smithy-go"] (smithyModules false) "."
           (smithy_RangeOrder false)).
Defined.

Section AnyPackages.
Context `{Packages}.
Variables (verbose : bool) (preRelease : string).

(** X20: what a manifest [BuildReleaseManifest] returns holds, for every
    order of the map.  Every entry of its module map is the entry of a
    module of the map that has a change and may be tagged, stored at the
    relative path of the module, with the latest version of the module as
    the version it comes from and the next version computed for it as the
    version it goes to; for every such module of the map the next version
    and the tag could be computed, the tag is among the tags and the
    relative path has an entry; every tag is the tag of such a module;
    and the tags are in ascending order, one for every such module. *)
Theorem manifest_contents order order' moduleTree id modules rm :
  RangeOrder order modules ->
  BuildReleaseManifest order order' moduleTree id modules verbose preRelease = Ok rm ->
  (forall p mm,
     manifestModules rm !! p = Some mm ->
     exists mod' nextVersion,
       modules !! mmModulePath mm = Some mod' /\ released mod' = true /\
       RelativeRepoPath mod' = p /\
       CalculateNextVersion (mmModulePath mm) (Latest mod') (ModuleConfig mod')
         (ChangeAnnotations mod') preRelease = Ok nextVersion /\
       mm = manifestEntry verbose (mmModulePath mm) mod' nextVersion) /\
  (forall modulePath mod',
     modules !! modulePath = Some mod' -> released mod' = true ->
     exists nextVersion moduleTag,
       CalculateNextVersion modulePath (Latest mod') (ModuleConfig mod')
         (ChangeAnnotations mod') preRelease = Ok nextVersion /\
       gitToModuleTag (RelativeRepoPath mod') nextVersion = Ok moduleTag /\
       moduleTag ∈ Tags rm /\
       is_Some (manifestModules rm !! RelativeRepoPath mod')) /\
  (forall tag,
     tag ∈ Tags rm ->
     exists modulePath mod' nextVersion,
       modules !! modulePath = Some mod' /\ released mod' = true /\
       CalculateNextVersion modulePath (Latest mod') (ModuleConfig mod')
         (ChangeAnnotations mod') preRelease = Ok nextVersion /\
       gitToModuleTag (RelativeRepoPath mod') nextVersion = Ok tag) /\
  StronglySorted String.le (Tags rm) /\
  length (Tags rm)
  = length (List.filter (fun kv => released (snd kv)) (map_to_list modules)).
Proof.
  intros Horder Hbuild.
  apply BuildReleaseManifest_loop in Hbuild as (rm1 & Hadd & Hmods & Htags).
  apply addModules_entries in Hadd
    as (Hfrom & Htagfrom & _ & _ & Hcover & Hlen).
  simpl in *. rewrite Hmods, Htags.
  split; [|split; [|split; [|split]]].
  - intros p mm Hp.
    destruct (Hfrom p mm Hp) as [Hempty | (k & m & next & Hin & Hrel & Hpath & Hnext & ->)].
    { rewrite lookup_empty in Hempty. discriminate. }
    apply elem_of_rangeMap in Hin as [_ Hk]. simpl. eauto 10.
  - intros k m Hk Hrel.
    destruct (Hcover k m) as (next & tag & Hnext & Htag & Hin & Hsome);
      [|assumption|].
    { apply elem_of_rangeMap. split; [apply Horder; eauto|assumption]. }
    exists next, tag. rewrite (SortStrings_perm _). auto.
  - intros tag Htag. rewrite (SortStrings_perm _) in Htag.
    destruct (Htagfrom tag Htag) as [Hnil | (k & m & next & Hin & Hrest)];
      [inversion Hnil|].
    apply elem_of_rangeMap in Hin as [_ Hk]. eauto 10.
  - apply SortStrings_sorted.
  - rewrite (SortStrings_perm _), Hlen.
    apply Permutation_length, filter_perm, rangeMap_perm. assumption.
Qed.
End AnyPackages.

Lemma manifest_contents_witness :
  RangeOrder ["github.com/aws/smithy-go"] (smithyModules false) /\
  BuildReleaseManifest ["github.com/aws/smithy-go"] ["github.com/aws/smithy-go"]
    singleModuleTree "2021-10-27" (smithyModules false) true EmptyString
  = Ok {| manifestID := "v1.2.4"; WithReleaseTag := false;
          manifestModules :=
            {[ "." := {| mmModulePath := "github.com/aws/smithy-go";
                         mmFrom := "v1.2.3"; mmTo := "v1.2.4";
                         mmChanges := SourceChange;
                         mmFileChanges := ["config/foo.go"];
                         mmAnnotations := [] |} ]};
          Tags := ["v1.2.4"] |} /\
  StronglySorted String.le ["v1.2.4"] /\
  length ["v1.2.4"]
  = length (List.filter (fun kv => released (snd kv))
              (map_to_list (smithyModules false))).
Proof.
  assert (BuildReleaseManifest ["github.com/aws/smithy-go"] ["github.com/aws/smithy-go"]
            singleModuleTree "2021-10-27" (smithyModules false) true EmptyString
          = Ok {| manifestID := "v1.2.4"; WithReleaseTag := false;
                  manifestModules :=
                    {[ "." := {| mmModulePath := "github.com/aws/smithy-go";
                                 mmFrom := "v1.2.3"; mmTo := "v1.2.4";
                                 mmChanges := SourceChange;
                                 mmFileChanges := ["config/foo.go"];
                                 mmAnnotations := [] |} ]};
                  Tags := ["v1.2.4"] |}) as Hbuild
    by (vm_compute; reflexivity).
  split; [apply smithy_RangeOrder|]. split; [exact Hbuild|].
  exact (proj2 (proj2 (proj2
           (manifest_contents true EmptyString _ _ _ _ _ _
              (smithy_RangeOrder false) Hbuild)))).
Defined.
End ManifestProperties.

Module TimeFacts.
Import GoStrings Strconv StrconvDefs StrconvFacts PathFacts Time TimeDefs ReleaseIDDefs.

Lemma digitOf_inv c d : digitOf c = Some d -> (0 <= d <= 9)%Z /\ c = digitChar d.
Proof.
  destruct c as [[] [] [] [] [] [] [] []]; vm_compute; intros Heq;
    try discriminate; injection Heq as <-; split; (reflexivity || lia || (split; discriminate)).
Qed.

Lemma itoaPos_small rounds z acc :
  (z < 10)%Z -> itoaPos (S rounds) z acc = String (digitChar (z mod 10)) acc.
Proof.
  intros Hz. cbn [itoaPos]. destruct (Z.ltb_spec z 10); [reflexivity|lia].
Qed.

Lemma itoaPos_step rounds z acc :
  (10 <= z)%Z ->
  itoaPos (S rounds) z acc
  = itoaPos rounds (z / 10) (String (digitChar (z mod 10)) acc).
Proof.
  intros Hz. cbn [itoaPos]. destruct (Z.ltb_spec z 10); [lia|reflexivity].
Qed.

Ltac same_digit :=
  apply (f_equal digitChar); Z.to_euclidean_division_equations; lia.

Ltac same_digits := repeat (apply f_equal2; [same_digit|]); reflexivity.

Lemma appendInt_year y : (0 <= y <= 9999)%Z -> appendInt y 4 = fourDigits y.
Proof.
  intros Hy. unfold appendInt, fourDigits.
  destruct (Z.ltb_spec y 0); [lia|]. rewrite Z.abs_eq, append_nil_l by lia.
  destruct (Z_lt_le_dec y 10); [|destruct (Z_lt_le_dec y 100);
    [|destruct (Z_lt_le_dec y 1000)]].
  - rewrite itoaPos_small by lia. cbn [String.length Nat.sub zeros].
    rewrite !append_cons, append_nil_l.
    change "0"%char with (digitChar 0).
    same_digits.
  - rewrite itoaPos_step, itoaPos_small
      by (try apply Z.div_lt_upper_bound; lia).
    cbn [String.length Nat.sub zeros]. rewrite !append_cons, append_nil_l.
    change "0"%char with (digitChar 0).
    same_digits.
  - rewrite itoaPos_step, itoaPos_step, itoaPos_small
      by (try apply Z.div_lt_upper_bound; try apply Z.div_le_lower_bound;
          try apply Z.div_lt_upper_bound; lia).
    cbn [String.length Nat.sub zeros]. rewrite !append_cons, append_nil_l.
    change "0"%char with (digitChar 0).
    same_digits.
  - rewrite itoaPos_step, itoaPos_step, itoaPos_step, itoaPos_small
      by (Z.to_euclidean_division_equations; lia).
    cbn [String.length Nat.sub zeros]. rewrite append_nil_l.
    same_digits.
Qed.

Lemma appendInt_two x : (0 <= x <= 99)%Z -> appendInt x 2 = twoDigits x.
Proof.
  intros Hx. unfold appendInt, twoDigits.
  destruct (Z.ltb_spec x 0); [lia|]. rewrite Z.abs_eq, append_nil_l by lia.
  destruct (Z_lt_le_dec x 10).
  - rewrite itoaPos_small by lia. cbn [String.length Nat.sub zeros].
    rewrite !append_cons, append_nil_l.
    change "0"%char with (digitChar 0). same_digits.
  - rewrite itoaPos_step, itoaPos_small by (Z.to_euclidean_division_equations; lia).
    cbn [String.length Nat.sub zeros]. rewrite append_nil_l.
    same_digits.
Qed.

Lemma skipDash_inv v r : skipDash v = Some r -> v = String "-"%char r.
Proof.
  destruct v as [|c v]; [discriminate|].
  destruct c as [[] [] [] [] [] [] [] []]; simpl; intros Heq;
    try discriminate; congruence.
Qed.

Lemma getnum2_inv v n r :
  getnum2 v = Some (n, r) ->
  exists x y, (0 <= x <= 9)%Z /\ (0 <= y <= 9)%Z /\
              v = String (digitChar x) (String (digitChar y) r) /\
              n = (x * 10 + y)%Z.
Proof.
  destruct v as [|a [|b v]]; try discriminate. unfold getnum2.
  destruct (digitOf a) as [x|] eqn:Ha; [|discriminate].
  destruct (digitOf b) as [y|] eqn:Hb; [|discriminate].
  intros [= <- <-]. apply digitOf_inv in Ha as [Hx ->], Hb as [Hy ->].
  exists x, y. auto.
Qed.

Lemma getnum2_twoDigits n r :
  (0 <= n <= 99)%Z -> getnum2 (twoDigits n +:+ r) = Some (n, r).
Proof.
  intros Hn. unfold twoDigits. rewrite !append_cons, append_nil_l.
  unfold getnum2.
  rewrite !digitOf_digitChar by (Z.to_euclidean_division_equations; lia).
  f_equal. f_equal. Z.to_euclidean_division_equations. lia.
Qed.

Lemma twoDigits_split x y :
  (0 <= x <= 9)%Z -> (0 <= y <= 9)%Z ->
  String (digitChar x) (String (digitChar y) EmptyString) = twoDigits (x * 10 + y).
Proof. intros Hx Hy. unfold twoDigits. same_digits. Qed.

(** The text of a date, as [Format] writes it. *)
Lemma Format_digits t :
  validDate t ->
  Format t
  = fourDigits (year t) +:+ "-" +:+ twoDigits (month t) +:+ "-" +:+ twoDigits (day t).
Proof.
  intros (Hy & Hm & Hd). unfold Format.
  rewrite appendInt_year, !appendInt_two; [reflexivity| |lia|lia].
  assert (daysIn (month t) (year t) <= 31)%Z; [|lia].
  unfold daysIn. destruct ((month t =? 2)%Z && isLeap (year t)); [lia|].
  assert (month t = 1 \/ month t = 2 \/ month t = 3 \/ month t = 4 \/
          month t = 5 \/ month t = 6 \/ month t = 7 \/ month t = 8 \/
          month t = 9 \/ month t = 10 \/ month t = 11 \/ month t = 12)%Z
    as Hcases by lia.
  destruct Hcases as [-> | [-> | [-> | [-> | [-> | [-> | [-> | [-> | [-> | [-> | [-> | ->]]]]]]]]]]];
    vm_compute; discriminate.
Qed.

(** [Parse] reads what [Format] writes. *)
Lemma Parse_Format t : validDate t -> Parse (Format t) = Some t.
Proof.
  intros Hvalid. rewrite (Format_digits t Hvalid).
  destruct Hvalid as (Hy & Hm & Hd).
  assert (daysIn (month t) (year t) <= 99)%Z as Hdays.
  { unfold daysIn. destruct ((month t =? 2)%Z && isLeap (year t)); [lia|].
    assert (month t = 1 \/ month t = 2 \/ month t = 3 \/ month t = 4 \/
            month t = 5 \/ month t = 6 \/ month t = 7 \/ month t = 8 \/
            month t = 9 \/ month t = 10 \/ month t = 11 \/ month t = 12)%Z
      as Hcases by lia.
    destruct Hcases as [-> | [-> | [-> | [-> | [-> | [-> | [-> | [-> | [-> | [-> | [-> | ->]]]]]]]]]]];
      vm_compute; discriminate. }
  unfold fourDigits at 1. rewrite !append_cons, !append_nil_l.
  unfold Parse. cbn [digits].
  rewrite !digitOf_digitChar by (Z.to_euclidean_division_equations; lia).
  cbn [skipDash]. rewrite getnum2_twoDigits by lia.
  destruct (Z.leb_spec (month t) 0); [lia|].
  destruct (Z.ltb_spec 12 (month t)); [lia|]. cbn [orb skipDash].
  rewrite <- (append_nil_r (twoDigits (day t))).
  rewrite getnum2_twoDigits by lia. cbn [String.eqb negb].
  replace (((0 * 10 + year t / 1000) * 10 + year t / 100 mod 10) * 10
           + year t / 10 mod 10)%Z with (year t / 10)%Z
    by (Z.to_euclidean_division_equations; lia).
  replace (year t / 10 * 10 + year t mod 10)%Z with (year t)
    by (Z.to_euclidean_division_equations; lia).
  destruct (Z.ltb_spec (day t) 1); [lia|].
  destruct (Z.ltb_spec (daysIn (month t) (year t)) (day t)); [lia|].
  cbn [orb]. destruct t; reflexivity.
Qed.

(** What [Parse] reads is a day of the calendar, written as [Format]
    writes it. *)
Lemma Parse_inv s t : Parse s = Some t -> validDate t /\ s = Format t.
Proof.
  unfold Parse. intros Hparse.
  destruct s as [|y1 [|y2 [|y3 [|y4 rest]]]]; try discriminate.
  cbn [digits] in Hparse.
  destruct (digitOf y1) as [a|] eqn:H1; [|discriminate].
  destruct (digitOf y2) as [b|] eqn:H2; [|discriminate].
  destruct (digitOf y3) as [c|] eqn:H3; [|discriminate].
  destruct (digitOf y4) as [d|] eqn:H4; [|discriminate].
  apply digitOf_inv in H1 as [Ha ->], H2 as [Hb ->], H3 as [Hc ->], H4 as [Hd ->].
  destruct (skipDash rest) as [rest1|] eqn:Hs1; [|discriminate].
  apply skipDash_inv in Hs1 as ->.
  destruct (getnum2 rest1) as [[m rest2]|] eqn:Hm; [|discriminate].
  apply getnum2_inv in Hm as (m1 & m2 & Hm1 & Hm2 & -> & ->).
  destruct (Z.leb_spec (m1 * 10 + m2) 0); [discriminate|].
  destruct (Z.ltb_spec 12 (m1 * 10 + m2)); [discriminate|]. cbn [orb] in Hparse.
  destruct (skipDash rest2) as [rest3|] eqn:Hs2; [|discriminate].
  apply skipDash_inv in Hs2 as ->.
  destruct (getnum2 rest3) as [[dd rest4]|] eqn:Hdd; [|discriminate].
  apply getnum2_inv in Hdd as (d1 & d2 & Hd1 & Hd2 & -> & ->).
  destruct (String.eqb_spec rest4 EmptyString) as [-> | _]; [|discriminate].
  cbn [negb] in Hparse.
  destruct (Z.ltb_spec (d1 * 10 + d2) 1); [discriminate|].
  destruct (Z.ltb_spec (daysIn (m1 * 10 + m2)
                          ((((0 * 10 + a) * 10 + b) * 10 + c) * 10 + d))
                       (d1 * 10 + d2)); [discriminate|].
  cbn [orb] in Hparse. injection Hparse as <-.
  assert (validDate {| year := (((0 * 10 + a) * 10 + b) * 10 + c) * 10 + d;
                       month := m1 * 10 + m2; day := d1 * 10 + d2 |}) as Hvalid.
  { unfold validDate. cbn [year month day]. lia. }
  split; [exact Hvalid|]. rewrite (Format_digits _ Hvalid). cbn [year month day].
  rewrite <- (twoDigits_split m1 m2), <- (twoDigits_split d1 d2) by assumption.
  unfold fourDigits. rewrite !append_cons, !append_nil_l.
  repeat (apply f_equal2; [same_digit|]).
  reflexivity.
Qed.
End TimeFacts.

Module ReleaseIDFacts.
Import GoStrings Strconv StrconvDefs StrconvFacts PathFacts.
Import Time TimeDefs ReleaseIDDefs TimeFacts.

Lemma Cut_spec sep s : forall before after,
  Cut s sep = Some (before, after) ->
  s = before +:+ String sep after /\ Cut before sep = None.
Proof.
  induction s as [|a s IH]; intros before after; simpl; [discriminate|].
  destruct (Ascii.eqb_spec a sep) as [-> | Hne].
  - intros [= <- <-]. auto.
  - destruct (Cut s sep) as [[b r]|]; [|discriminate].
    intros [= <- <-]. destruct (IH b r eq_refl) as [-> Hb].
    split; [reflexivity|]. simpl.
    destruct (Ascii.eqb_spec a sep); [contradiction|]. rewrite Hb. reflexivity.
Qed.

Lemma Cut_app sep before after :
  Cut before sep = None ->
  Cut (before +:+ String sep after) sep = Some (before, after).
Proof.
  induction before as [|a s IH]; intros Hnone.
  - rewrite append_nil_l. simpl. rewrite Ascii.eqb_refl. reflexivity.
  - rewrite append_cons. simpl in *.
    destruct (Ascii.eqb a sep); [discriminate|].
    destruct (Cut s sep) as [[b r]|]; [discriminate|].
    rewrite IH by reflexivity. reflexivity.
Qed.

Lemma digitChar_not_dot d : (0 <= d <= 9)%Z -> Ascii.eqb (digitChar d) "."%char = false.
Proof. intros Hd. each_digit d Hd; reflexivity. Qed.

(** [Format] writes no dot. *)
Lemma Cut_Format t : validDate t -> Cut (Format t) "."%char = None.
Proof.
  intros Hvalid. rewrite (Format_digits t Hvalid).
  destruct Hvalid as (Hy & Hm & Hd).
  assert (daysIn (month t) (year t) <= 99)%Z as Hdays.
  { unfold daysIn. destruct ((month t =? 2)%Z && isLeap (year t)); [lia|].
    assert (month t = 1 \/ month t = 2 \/ month t = 3 \/ month t = 4 \/
            month t = 5 \/ month t = 6 \/ month t = 7 \/ month t = 8 \/
            month t = 9 \/ month t = 10 \/ month t = 11 \/ month t = 12)%Z
      as Hcases by lia.
    destruct Hcases as [-> | [-> | [-> | [-> | [-> | [-> | [-> | [-> | [-> | [-> | [-> | ->]]]]]]]]]]];
      vm_compute; discriminate. }
  unfold fourDigits, twoDigits. rewrite !append_cons, !append_nil_l.
  cbn [Cut].
  rewrite !digitChar_not_dot by (Z.to_euclidean_division_equations; lia).
  reflexivity.
Qed.

Lemma HasPrefix_app pre s : HasPrefix (pre +:+ s) pre = true.
Proof. apply HasPrefix_iff. eauto. Qed.

Lemma TrimPrefix_app pre s : TrimPrefix (pre +:+ s) pre = s.
Proof.
  unfold TrimPrefix. rewrite HasPrefix_app.
  replace (String.length (pre +:+ s) - String.length pre) with (String.length s)
    by (rewrite length_append; lia).
  apply substring_append_r.
Qed.

Lemma Equal_eq t u : Equal t u = true <-> t = u.
Proof.
  unfold Equal. rewrite !andb_true_iff, !Z.eqb_eq.
  destruct t, u; simpl. split; [intros [[-> ->] ->]; reflexivity|].
  intros [= -> -> ->]. auto.
Qed.

(** The loop of [NextReleaseID] looks at what the tag is to it. *)
Lemma releaseStep_classify nextTime latestNum tag :
  releaseStep nextTime latestNum tag
  = match classify nextTime tag with
    | OtherTag => latestNum
    | FirstRelease => if (latestNum =? 0)%Z then 1%Z else latestNum
    | NumberedRelease i => if (latestNum <? i)%Z then i else latestNum
    end.
Proof.
  unfold releaseStep, classify.
  destruct (HasPrefix tag "release-"); cbn [negb]; [|reflexivity].
  destruct (Parse _) as [t|]; [|reflexivity].
  destruct (Equal t nextTime); cbn [negb]; [|reflexivity].
  destruct (length _ =? 2); cbn [negb]; [|reflexivity].
  destruct (Atoi _); reflexivity.
Qed.

Section Day.
Variable nextTime : Date.
Hypothesis nextTime_valid : validDate nextTime.

(** The tags that count for the day: the release tag of the day, with
    or without a number. *)
Lemma classify_spec tag :
  match classify nextTime tag with
  | OtherTag =>
      tag <> "release-" +:+ Format nextTime /\
      forall r i, tag = "release-" +:+ Format nextTime +:+ "." +:+ r ->
                  Atoi r <> Some i
  | FirstRelease => tag = "release-" +:+ Format nextTime
  | NumberedRelease i =>
      exists r, tag = "release-" +:+ Format nextTime +:+ "." +:+ r /\ Atoi r = Some i
  end.
Proof.
  pose proof (Cut_Format nextTime nextTime_valid) as Hnodot.
  pose proof (Parse_Format nextTime nextTime_valid) as Hparse.
  assert (forall r, classify nextTime ("release-" +:+ Format nextTime +:+ "." +:+ r)
                    = match Atoi r with
                      | Some i => NumberedRelease i
                      | None => OtherTag
                      end) as Hnum.
  { intros r. unfold classify. rewrite HasPrefix_app, TrimPrefix_app. cbn [negb].
    unfold SplitN2. change ("." +:+ r) with (String "."%char r).
    rewrite (Cut_app _ _ _ Hnodot). cbn [nth length]. rewrite Hparse.
    rewrite (proj2 (Equal_eq _ _) eq_refl). reflexivity. }
  assert (classify nextTime ("release-" +:+ Format nextTime) = FirstRelease) as Hfirst.
  { unfold classify. rewrite HasPrefix_app, TrimPrefix_app. cbn [negb].
    unfold SplitN2. rewrite Hnodot. cbn [nth length]. rewrite Hparse.
    rewrite (proj2 (Equal_eq _ _) eq_refl). reflexivity. }
  destruct (classify nextTime tag) eqn:Hclass.
  - split.
    + intros ->. congruence.
    + intros r i -> Hr. rewrite Hnum, Hr in Hclass. discriminate.
  - unfold classify in Hclass.
    destruct (HasPrefix tag "release-") eqn:Hpre; [|discriminate].
    apply HasPrefix_iff in Hpre as [s ->]. rewrite TrimPrefix_app in Hclass.
    cbn [negb] in Hclass. unfold SplitN2 in Hclass.
    destruct (Cut s "."%char) as [[b a]|] eqn:Hcut; cbn [nth length] in Hclass.
    + destruct (Parse b); [|discriminate].
      destruct (Equal d nextTime); [|discriminate]. simpl in Hclass.
      destruct (Atoi a); discriminate.
    + destruct (Parse s) as [t|] eqn:Hs; [|discriminate].
      destruct (Equal t nextTime) eqn:Heq; [|discriminate].
      apply Equal_eq in Heq as ->. apply Parse_inv in Hs as [_ ->]. reflexivity.
  - unfold classify in Hclass.
    destruct (HasPrefix tag "release-") eqn:Hpre; [|discriminate].
    apply HasPrefix_iff in Hpre as [s ->]. rewrite TrimPrefix_app in Hclass.
    cbn [negb] in Hclass. unfold SplitN2 in Hclass.
    destruct (Cut s "."%char) as [[b a]|] eqn:Hcut; cbn [nth length] in Hclass.
    + destruct (Parse b) as [t|] eqn:Hb; [|discriminate].
      destruct (Equal t nextTime) eqn:Heq; [|discriminate].
      apply Equal_eq in Heq as ->. apply Parse_inv in Hb as [_ ->].
      simpl in Hclass. destruct (Atoi a) as [j|] eqn:Ha; [|discriminate].
      injection Hclass as ->. apply Cut_spec in Hcut as [-> _].
      exists a. split; [reflexivity|assumption].
    + destruct (Parse s) as [t|]; [|discriminate].
      destruct (Equal t nextTime); discriminate.
Qed.

Lemma classify_first tag :
  classify nextTime tag = FirstRelease <-> tag = "release-" +:+ Format nextTime.
Proof.
  pose proof (classify_spec tag) as Hs. split.
  - intros Hc. rewrite Hc in Hs. exact Hs.
  - intros ->. pose proof (classify_spec ("release-" +:+ Format nextTime)) as Hs'.
    destruct (classify nextTime ("release-" +:+ Format nextTime)).
    + destruct Hs' as [Hne _]. congruence.
    + reflexivity.
    + destruct Hs' as (r & Heq & _).
      apply (f_equal String.length) in Heq. rewrite !length_append in Heq.
      simpl in Heq. lia.
Qed.

Lemma classify_numbered tag i :
  classify nextTime tag = NumberedRelease i <->
  exists r, tag = "release-" +:+ Format nextTime +:+ "." +:+ r /\ Atoi r = Some i.
Proof.
  pose proof (classify_spec tag) as Hs. split.
  - intros Hc. rewrite Hc in Hs. exact Hs.
  - intros (r & -> & Hr).
    destruct (classify nextTime _) as [| |j] eqn:Hc.
    + destruct Hs as [_ Hno]. exfalso. eapply Hno; [reflexivity|exact Hr].
    + exfalso.
      apply (f_equal String.length) in Hs. rewrite !length_append in Hs.
      simpl in Hs. lia.
    + destruct Hs as (r' & Heq & Hr').
      do 3 apply String.app_inj in Heq. subst r'. congruence.
Qed.

(** The number the loop ends with is not below the one it starts with,
    and counts every release of the day. *)
Lemma fold_releaseStep_lower tags : forall n,
  (n <= fold_left (releaseStep nextTime) tags n)%Z.
Proof.
  induction tags as [|tag tags IH]; intros n; simpl; [lia|].
  etransitivity; [|apply IH]. rewrite releaseStep_classify.
  destruct (classify nextTime tag) as [| |i].
  - lia.
  - destruct (Z.eqb_spec n 0); lia.
  - destruct (Z.ltb_spec n i); lia.
Qed.

Lemma fold_releaseStep_counts tags : forall n tag,
  (0 <= n)%Z -> tag ∈ tags ->
  match classify nextTime tag with
  | OtherTag => True
  | FirstRelease => (1 <= fold_left (releaseStep nextTime) tags n)%Z
  | NumberedRelease i => (i <= fold_left (releaseStep nextTime) tags n)%Z
  end.
Proof.
  induction tags as [|t tags IH]; intros n tag Hn Hin; [inversion Hin|].
  simpl. apply elem_of_cons in Hin as [<- | Hin].
  - pose proof (fold_releaseStep_lower tags (releaseStep nextTime n tag)) as Hlow.
    rewrite releaseStep_classify in Hlow. rewrite releaseStep_classify.
    destruct (classify nextTime tag) as [| |i]; [exact I| |]; revert Hlow.
    + destruct (Z.eqb_spec n 0); lia.
    + destruct (Z.ltb_spec n i); lia.
  - apply IH; [|assumption]. rewrite releaseStep_classify.
    destruct (classify nextTime t) as [| |i].
    + lia.
    + destruct (Z.eqb_spec n 0); lia.
    + destruct (Z.ltb_spec n i); lia.
Qed.

(** The number the loop ends with is the one it starts with, or 1 for
    the release of the day without a number, or the number of a release
    of the day. *)
Lemma fold_releaseStep_source tags : forall n,
  (0 <= n)%Z ->
  fold_left (releaseStep nextTime) tags n = n \/
  (fold_left (releaseStep nextTime) tags n = 1%Z /\
   exists tag, tag ∈ tags /\ classify nextTime tag = FirstRelease) \/
  (exists tag, tag ∈ tags /\
     classify nextTime tag
     = NumberedRelease (fold_left (releaseStep nextTime) tags n)).
Proof.
  induction tags as [|t tags IH]; intros n Hn; simpl; [auto|].
  assert (0 <= releaseStep nextTime n t)%Z as Hstep.
  { rewrite releaseStep_classify. destruct (classify nextTime t) as [| |i].
    - lia.
    - destruct (Z.eqb_spec n 0); lia.
    - destruct (Z.ltb_spec n i); lia. }
  destruct (IH _ Hstep) as [Hsame | [[H1 (tag & Hin & Hc)] | (tag & Hin & Hc)]].
  - rewrite Hsame, releaseStep_classify.
    destruct (classify nextTime t) as [| |i] eqn:Hc.
    + auto.
    + destruct (Z.eqb_spec n 0); [|auto].
      right. left. split; [reflexivity|]. exists t. split; [left|assumption].
    + destruct (Z.ltb_spec n i); [|auto].
      right. right. exists t. split; [left|assumption].
  - right. left. split; [assumption|]. exists tag. split; [right|]; assumption.
  - right. right. exists tag. split; [right|]; assumption.
Qed.
End Day.
End ReleaseIDFacts.

Module ReleaseIDProperties.
Import GoStrings Strconv StrconvDefs StrconvFacts PathFacts.
Import Time TimeDefs ReleaseIDDefs TimeFacts ReleaseIDFacts.

(** X21: the identifier [NextReleaseID] returns for a day is not the
    identifier of a release tag among the tags given, unless one of the
    tags of the day has the greatest [int] as its number: the next number
    then wraps around. *)
Theorem NextReleaseID_fresh nextTime tags :
  validDate nextTime ->
  (forall tag r, tag ∈ tags ->
                 tag = "release-" +:+ Format nextTime +:+ "." +:+ r ->
                 Atoi r <> Some maxInt) ->
  "release-" +:+ NextReleaseID nextTime tags ∉ tags.
Proof.
  intros Hvalid Hmax. unfold NextReleaseID.
  remember (fold_left (releaseStep nextTime) tags 0%Z) as n eqn:Hdef.
  pose proof (fold_releaseStep_lower nextTime tags 0%Z) as Hlow.
  rewrite <- Hdef in Hlow.
  destruct (Z.eqb_spec n 0) as [Hzero | Hpos]; intros Hin;
    pose proof (fold_releaseStep_counts nextTime tags 0%Z _ (Z.le_refl 0) Hin)
      as Hcount; rewrite <- Hdef in Hcount.
  - rewrite (proj2 (classify_first nextTime Hvalid _) eq_refl) in Hcount. lia.
  - assert (n < maxInt)%Z as Hn.
    { destruct (fold_releaseStep_source nextTime tags 0%Z (Z.le_refl 0))
        as [Hsame | [[H1 _] | (tag & Htag & Hc)]]; rewrite <- Hdef in *.
      - congruence.
      - rewrite H1. unfold maxInt. lia.
      - apply (classify_numbered nextTime Hvalid) in Hc as (r & -> & Hr).
        pose proof (Atoi_range _ _ Hr) as Hrange.
        destruct (Z.eq_dec n maxInt) as [Heq | Hne]; [|lia].
        exfalso. eapply Hmax; [exact Htag|reflexivity|]. rewrite Hr, Heq. reflexivity. }
    rewrite wrapInt_small in Hcount by (unfold minInt, maxInt in *; lia).
    rewrite (proj2 (classify_numbered nextTime Hvalid _ (n + 1)%Z)) in Hcount.
    + lia.
    + exists (Itoa (n + 1)). split; [reflexivity|].
      apply Atoi_Itoa. unfold minInt, maxInt in *. lia.
Qed.

Lemma NextReleaseID_fresh_witness :
  validDate {| year := 2021; month := 5; day := 6 |} /\
  (forall tag r,
     tag ∈ ["release-2021-05-06"; "release-2021-05-06.2"; "v1.2.0"] ->
     tag = "release-" +:+ Format {| year := 2021; month := 5; day := 6 |} +:+ "." +:+ r ->
     Atoi r <> Some maxInt) /\
  "release-" +:+ NextReleaseID {| year := 2021; month := 5; day := 6 |}
                   ["release-2021-05-06"; "release-2021-05-06.2"; "v1.2.0"]
  ∉ ["release-2021-05-06"; "release-2021-05-06.2"; "v1.2.0"].
Proof.
  assert (validDate {| year := 2021; month := 5; day := 6 |}) as Hvalid
    by (unfold validDate; repeat split; vm_compute; discriminate).
  assert (forall tag r,
     tag ∈ ["release-2021-05-06"; "release-2021-05-06.2"; "v1.2.0"] ->
     tag = "release-" +:+ Format {| year := 2021; month := 5; day := 6 |} +:+ "." +:+ r ->
     Atoi r <> Some maxInt) as Hmax.
  { intros tag r Hin Heq.
    repeat (apply elem_of_cons in Hin as [-> | Hin]); [| | |inversion Hin];
      vm_compute in Heq; try discriminate.
    injection Heq as <-. vm_compute. discriminate. }
  split; [exact Hvalid|]. split; [exact Hmax|].
  exact (NextReleaseID_fresh _ _ Hvalid Hmax).
Defined.

(** X22: the identifier [NextReleaseID] returns is the day, written as
    year, month and day, when no tag is a release tag of the day with a
    number above zero or without a number; else it is the day, a dot and
    the number after the greatest number of the release tags of the day,
    of which the one without a number counts as 1. *)
Theorem NextReleaseID_number nextTime tags :
  validDate nextTime ->
  (NextReleaseID nextTime tags = Format nextTime /\
   ("release-" +:+ Format nextTime ∉ tags) /\
   forall r i, "release-" +:+ Format nextTime +:+ "." +:+ r ∈ tags ->
               Atoi r = Some i -> (i <= 0)%Z) \/
  (exists n,
     (1 <= n)%Z /\
     NextReleaseID nextTime tags
     = Format nextTime +:+ "." +:+ Itoa (wrapInt (n + 1)) /\
     ((n = 1%Z /\ "release-" +:+ Format nextTime ∈ tags) \/
      exists r, "release-" +:+ Format nextTime +:+ "." +:+ r ∈ tags /\
                Atoi r = Some n) /\
     forall r i, "release-" +:+ Format nextTime +:+ "." +:+ r ∈ tags ->
                 Atoi r = Some i -> (i <= n)%Z).
Proof.
  intros Hvalid. unfold NextReleaseID.
  remember (fold_left (releaseStep nextTime) tags 0%Z) as n eqn:Hdef.
  pose proof (fold_releaseStep_lower nextTime tags 0%Z) as Hlow. rewrite <- Hdef in Hlow.
  assert (forall r i, "release-" +:+ Format nextTime +:+ "." +:+ r ∈ tags ->
                      Atoi r = Some i -> (i <= n)%Z) as Hnum.
  { intros r i Hin Hr.
    pose proof (fold_releaseStep_counts nextTime tags 0%Z _ (Z.le_refl 0) Hin)
      as Hcount. rewrite <- Hdef in Hcount.
    rewrite (proj2 (classify_numbered nextTime Hvalid _ i)) in Hcount; eauto. }
  destruct (Z.eqb_spec n 0) as [Hzero | Hpos].
  - left. split; [reflexivity|]. split.
    + intros Hin.
      pose proof (fold_releaseStep_counts nextTime tags 0%Z _ (Z.le_refl 0) Hin)
        as Hcount. rewrite <- Hdef in Hcount.
      rewrite (proj2 (classify_first nextTime Hvalid _) eq_refl) in Hcount. lia.
    + intros r i Hin Hr. rewrite <- Hzero. eauto.
  - right. exists n. split; [lia|]. split; [reflexivity|]. split; [|exact Hnum].
    destruct (fold_releaseStep_source nextTime tags 0%Z (Z.le_refl 0))
      as [Hsame | [[H1 (tag & Htag & Hc)] | (tag & Htag & Hc)]]; rewrite <- Hdef in *.
    + congruence.
    + left. split; [assumption|].
      apply (classify_first nextTime Hvalid) in Hc as ->. assumption.
    + right. apply (classify_numbered nextTime Hvalid) in Hc as (r & -> & Hr). eauto.
Qed.

Lemma NextReleaseID_number_witness :
  validDate {| year := 2021; month := 5; day := 6 |} /\
  NextReleaseID {| year := 2021; month := 5; day := 6 |}
    ["release-2021-05-06"; "release-2021-05-06.2"] = "2021-05-06.3" /\
  NextReleaseID {| year := 2021; month := 5; day := 6 |}
    ["release-2021-05-04"; "v1.2.0"] = "2021-05-06" /\
  ((NextReleaseID {| year := 2021; month := 5; day := 6 |}
      ["release-2021-05-06"; "release-2021-05-06.2"]
    = Format {| year := 2021; month := 5; day := 6 |} /\
    ("release-" +:+ Format {| year := 2021; month := 5; day := 6 |}
      ∉ ["release-2021-05-06"; "release-2021-05-06.2"]) /\
    forall r i,
      "release-" +:+ Format {| year := 2021; month := 5; day := 6 |} +:+ "." +:+ r
        ∈ ["release-2021-05-06"; "release-2021-05-06.2"] ->
      Atoi r = Some i -> (i <= 0)%Z) \/
   (exists n,
      (1 <= n)%Z /\
      NextReleaseID {| year := 2021; month := 5; day := 6 |}
        ["release-2021-05-06"; "release-2021-05-06.2"]
      = Format {| year := 2021; month := 5; day := 6 |} +:+ "."
          +:+ Itoa (wrapInt (n + 1)) /\
      ((n = 1%Z /\
        "release-" +:+ Format {| year := 2021; month := 5; day := 6 |}
          ∈ ["release-2021-05-06"; "release-2021-05-06.2"]) \/
       exists r,
         "release-" +:+ Format {| year := 2021; month := 5; day := 6 |} +:+ "." +:+ r
           ∈ ["release-2021-05-06"; "release-2021-05-06.2"] /\
         Atoi r = Some n) /\
      forall r i,
        "release-" +:+ Format {| year := 2021; month := 5; day := 6 |} +:+ "." +:+ r
          ∈ ["release-2021-05-06"; "release-2021-05-06.2"] ->
        Atoi r = Some i -> (i <= n)%Z)).
Proof.
  assert (validDate {| year := 2021; month := 5; day := 6 |}) as Hvalid
    by (unfold validDate; repeat split; vm_compute; discriminate).
  split; [exact Hvalid|]. split; [vm_compute; reflexivity|].
  split; [vm_compute; reflexivity|].
  exact (NextReleaseID_number _ ["release-2021-05-06"; "release-2021-05-06.2"] Hvalid).
Defined.
End ReleaseIDProperties.

Module InsertRelProperties.
Import GoStrings Gomod GomodFacts GomodInsert PathFacts GomodGet Examples.

(** With an empty first element, [filepath.Join] cleans the second. *)
Lemma Join_unrooted rel :
  rel <> EmptyString -> Filepath.Join [EmptyString; rel] = Filepath.Clean rel.
Proof.
  intros Hrel. cbn [Filepath.Join]. cbn [String.eqb].
  destruct (String.eqb_spec rel EmptyString) as [Heq | _]; [contradiction|].
  reflexivity.
Qed.

Lemma InsertRel_Insert t rel attrs :
  RootPath (options t) = EmptyString -> rel <> EmptyString ->
  InsertRel t rel attrs = Insert t (Filepath.Clean rel) attrs.
Proof.
  intros Hroot Hrel. unfold InsertRel. rewrite Hroot, Join_unrooted by assumption.
  reflexivity.
Qed.

Lemma moduleRelPathOf_unrooted t modulePath :
  RootPath (options t) = EmptyString -> moduleRelPathOf t modulePath = Ok modulePath.
Proof. intros Hroot. unfold moduleRelPathOf. rewrite Hroot. reflexivity. Qed.

(** X23: in a tree without a root path, built by successful calls of
    [Insert], [InsertRel] of a non-empty path inserts the cleaned path:
    on success the new node has the cleaned path as its path and as its
    relative path, the tree did not hold that path before, [Get] finds
    the new node at it afterwards, and [InsertRel] of any spelling of
    the same cleaned path then fails with the error that the module
    exists; the one error of [InsertRel] is that error, returned exactly
    when the tree holds the cleaned path already. *)
Theorem InsertRel_unrooted t rel attrs :
  Reachable t -> RootPath (options t) = EmptyString -> rel <> EmptyString ->
  match InsertRel t rel attrs with
  | Ok (newNode, t') =>
      AbsPath newNode = Filepath.Clean rel /\ Path newNode = Filepath.Clean rel /\
      (Filepath.Clean rel ∉ ListPaths t) /\
      Get t' (Filepath.Clean rel) = Some newNode /\
      forall rel' attrs',
        rel' <> EmptyString -> Filepath.Clean rel' = Filepath.Clean rel ->
        InsertRel t' rel' attrs' = Err ModuleAlreadyExists
  | Err e => e = ModuleAlreadyExists /\ Filepath.Clean rel ∈ ListPaths t
  end.
Proof.
  intros Hreach Hroot Hrel. rewrite InsertRel_Insert by assumption.
  pose proof (Insert_spec t (Filepath.Clean rel) attrs Hreach) as Hspec.
  rewrite (moduleRelPathOf_unrooted t _ Hroot) in Hspec.
  destruct (Insert t (Filepath.Clean rel) attrs) as [[newNode t']|e] eqn:Hins.
  - destruct Hspec as (p & Hp & Hnew & Habs & Hpath & _ & Hopt & Hget & _).
    assert (p = Filepath.Clean rel) as -> by congruence.
    split; [exact Habs|]. split; [exact Hpath|]. split; [exact Hnew|].
    split; [exact Hget|].
    intros rel' attrs' Hrel' Hclean.
    assert (RootPath (options t') = EmptyString) as Hroot' by (rewrite Hopt; exact Hroot).
    rewrite InsertRel_Insert by assumption.
    rewrite Hclean, Insert_unfold, (moduleRelPathOf_unrooted t' _ Hroot'), Hget.
    reflexivity.
  - destruct e.
    + destruct Hspec as [Hne _]. contradiction.
    + destruct Hspec as (p & Hp & Hin).
      assert (p = Filepath.Clean rel) as -> by congruence. split; [reflexivity|exact Hin].
Qed.

Lemma InsertRel_unrooted_witness :
  Reachable (NewModuleTree {| RootPath := EmptyString |}) /\
  RootPath (options (NewModuleTree {| RootPath := EmptyString |})) = EmptyString /\
  "./service//s3/" <> EmptyString /\
  match InsertRel (NewModuleTree {| RootPath := EmptyString |}) "./service//s3/" ["tombstone"] with
  | Ok (newNode, t') =>
      AbsPath newNode = Filepath.Clean "./service//s3/" /\
      Path newNode = Filepath.Clean "./service//s3/" /\
      (Filepath.Clean "./service//s3/"
         ∉ ListPaths (NewModuleTree {| RootPath := EmptyString |})) /\
      Get t' (Filepath.Clean "./service//s3/") = Some newNode /\
      forall rel' attrs',
        rel' <> EmptyString -> Filepath.Clean rel' = Filepath.Clean "./service//s3/" ->
        InsertRel t' rel' attrs' = Err ModuleAlreadyExists
  | Err e =>
      e = ModuleAlreadyExists /\
      Filepath.Clean "./service//s3/" ∈ ListPaths (NewModuleTree {| RootPath := EmptyString |})
  end.
Proof.
  assert (Reachable (NewModuleTree {| RootPath := EmptyString |})) as Hreach
    by apply Reachable_new.
  assert ("./service//s3/" <> EmptyString) as Hrel by discriminate.
  split; [exact Hreach|]. split; [reflexivity|]. split; [exact Hrel|].
  exact (InsertRel_unrooted (NewModuleTree {| RootPath := EmptyString |})
           "./service//s3/" ["tombstone"] Hreach eq_refl Hrel).
Defined.
End InsertRelProperties.
